(** * Pengputer virtual file system: paths, directory entries, floppy
    serialisation and the file-system manager.

    A shallow embedding of [src/Pengputer/FileSystem.ts].

    Conventions of the embedding.
    - A JavaScript string is a [string] (a sequence of 8-bit characters);
      [toUpperCase] is modelled on the ASCII letters only.
    - A thrown exception is a value of [Exception]; a method that may throw
      returns [Exception + A].
    - An object mutated in place (a directory's entry array, the mount table,
      the external store) is threaded explicitly: a method takes the old value
      and returns the new one. *)

From stdpp Require Import base option list strings gmap.
From Stdlib Require Import Ascii String List Bool Arith Lia Sorted.
Import ListNotations.

Local Open Scope string_scope.
Local Open Scope list_scope.

(** ** JavaScript strings and arrays *)

Module Js.

(** [s.indexOf(c)] for a one-character needle; [None] stands for [-1]. *)
Fixpoint indexOf (c : ascii) (s : string) : option nat :=
  match s with
  | EmptyString => None
  | String d rest =>
      if Ascii.eqb d c then Some 0
      else match indexOf c rest with
           | Some i => Some (S i)
           | None => None
           end
  end.

(** [s.slice(0, n)]. *)
Fixpoint sliceTo (n : nat) (s : string) : string :=
  match n, s with
  | S k, String c rest => String c (sliceTo k rest)
  | _, _ => EmptyString
  end.

(** [s.slice(n)]. *)
Fixpoint sliceFrom (n : nat) (s : string) : string :=
  match n, s with
  | S k, String _ rest => sliceFrom k rest
  | _, _ => s
  end.

Definition upperChar (c : ascii) : ascii :=
  let n := nat_of_ascii c in
  if Nat.leb 97 n && Nat.leb n 122 then ascii_of_nat (n - 32) else c.

(** [s.toUpperCase()], on the ASCII letters. *)
Fixpoint toUpperCase (s : string) : string :=
  match s with
  | EmptyString => EmptyString
  | String c rest => String (upperChar c) (toUpperCase rest)
  end.

(** [s[0] === c]; out of range [s[0]] is [undefined], which equals no
    character. *)
Definition firstCharIs (c : ascii) (s : string) : bool :=
  match s with
  | EmptyString => false
  | String d _ => Ascii.eqb d c
  end.

(** [s.split(sep)] for a one-character separator: never the empty array,
    [split sep ""] is [[""]]. *)
Fixpoint split (sep : ascii) (s : string) : list string :=
  match s with
  | EmptyString => [EmptyString]
  | String c rest =>
      if Ascii.eqb c sep then EmptyString :: split sep rest
      else match split sep rest with
           | [] => [String c EmptyString]
           | hd :: tl => String c hd :: tl
           end
  end.

(** [arr.push(x)] and [arr.pop()] (the popped value is not used). *)
Definition push {A} (arr : list A) (x : A) : list A := arr ++ [x].
Definition pop {A} (arr : list A) : list A := removelast arr.

(** [_.find(arr, p)] and [arr.find(p)]: the first element satisfying [p]. *)
Definition find {A} (p : A -> bool) (arr : list A) : option A :=
  List.find p arr.

(** [_.remove(arr, p)]: [fst] is the array after the call (the elements
    that do not satisfy [p], in order), [snd] the removed elements. *)
Definition remove {A} (p : A -> bool) (arr : list A) : list A * list A :=
  (List.filter (fun x => negb (p x)) arr, List.filter p arr).

Fixpoint everyChar (p : ascii -> bool) (s : string) : bool :=
  match s with
  | EmptyString => true
  | String c rest => p c && everyChar p rest
  end.

(** [arr.join(sep)] on an array of strings. *)
Fixpoint join (sep : string) (arr : list string) : string :=
  match arr with
  | [] => EmptyString
  | [x] => x
  | x :: rest => x ++ sep ++ join sep rest
  end.

(** An array after the element that [_.find(arr, p)] returns has been changed
    in place into [x']. *)
Fixpoint replaceFound {A} (p : A -> bool) (x' : A) (arr : list A) : list A :=
  match arr with
  | [] => []
  | x :: rest => if p x then x' :: rest else x :: replaceFound p x' rest
  end.

(** [l < r] on strings: the order of the code units, a proper prefix coming
    before the strings it starts. *)
Definition lessThan (l r : string) : bool := String.ltb l r.

(** [arr.sort(compareFn)]. The sort of the language is stable, and with a
    consistent comparator its result is the sorted arrangement that keeps
    the elements that compare equal in their order: the one the stable
    insertion below builds. *)
Fixpoint sortInsert {A} (compareFn : A -> A -> Z) (x : A) (sorted : list A)
  : list A :=
  match sorted with
  | [] => [x]
  | y :: rest =>
      if Z.leb (compareFn x y) 0 then x :: sorted
      else y :: sortInsert compareFn x rest
  end.

Definition sort {A} (compareFn : A -> A -> Z) (arr : list A) : list A :=
  List.fold_right (sortInsert compareFn) [] arr.

End Js.

(** ** Exceptions *)

Inductive Exception : Type :=
| Error (message : string)
| TypeError
| SyntaxError
| RangeError.

Definition Result (A : Type) : Type := (Exception + A)%type.

Definition throw {A} (e : Exception) : Result A := inl e.
Definition ok {A} (x : A) : Result A := inr x.

Definition rbind {A B} (r : Result A) (k : A -> Result B) : Result B :=
  match r with
  | inl e => inl e
  | inr x => k x
  end.

Notation "'do' x <- r ; k" := (rbind r (fun x => k))
  (at level 10, x name, r at level 100, k at level 200).

(** [arr.map(f)] where [f] may throw: elements are visited in order and the
    first exception leaves the loop. *)
Definition mapR {A B} (f : A -> Result B) : list A -> Result (list B) :=
  fix go (l : list A) : Result (list B) :=
    match l with
    | [] => ok []
    | x :: rest =>
        match f x with
        | inl e => inl e
        | inr y =>
            match go rest with
            | inl e => inl e
            | inr ys => ok (y :: ys)
            end
        end
    end.

(** ** Drive labels *)

Definition PATH_SEPARATOR : ascii := "/"%char.

Definition DriveLabel : Type := string.

Definition DriveLabelValues : list string :=
  ["A"; "B"; "C"; "D"; "E"; "F"; "G"; "H"; "I"; "J"; "K"; "L"; "M";
   "N"; "O"; "P"; "Q"; "R"; "S"; "T"; "U"; "V"; "W"; "X"; "Y"; "Z"].

Definition isDriveLabel (label : string) : bool :=
  existsb (String.eqb label) DriveLabelValues.

(** ** Path model *)

Module FilePath.

Record t : Type := mk {
  drive : option DriveLabel;
  pieces : list string;
  isAbsolute : bool
}.

(** One turn of the constructor's loop over [pieces]; [acc] is
    [this.#pieces] so far. *)
Definition step (isAbsolute : bool) (acc : list string) (piece : string)
  : list string :=
  if String.eqb piece ".." then
    if isAbsolute then
      (if negb (Nat.eqb (length acc) 0) then Js.pop acc else acc)
    else Js.push acc ".."
  else if String.eqb piece "." then acc
  else Js.push acc piece.

(** The private constructor. *)
Definition new (drive : option DriveLabel) (pieces : list string)
    (isAbsolute : bool) : t :=
  let isAbsolute := match drive with Some _ => true | None => false end
                    || isAbsolute in
  {| drive := drive;
     isAbsolute := isAbsolute;
     pieces := fold_left (step isAbsolute) pieces [] |}.

(** The part of [tryParse] after the drive prefix is taken off. *)
Definition parseRest (drive : option DriveLabel) (path : string)
    (defaultDrive : option DriveLabel) : t :=
  let isAbsolute :=
    Nat.eqb (String.length path) 0 || Js.firstCharIs PATH_SEPARATOR path in
  let path := if isAbsolute then Js.sliceFrom 1 path else path in
  let drive :=
    if isAbsolute then
      match drive with
      | None => defaultDrive
      | Some _ => drive
      end
    else drive in
  let pieces :=
    List.filter (fun s => Nat.ltb 0 (String.length s))
                (Js.split PATH_SEPARATOR path) in
  new drive pieces isAbsolute.

Definition tryParse (path : string) (defaultDrive : option DriveLabel)
  : option t :=
  if Nat.eqb (String.length path) 0 then Some (new None [] false)
  else if String.eqb path "/" then Some (new None [] true)
  else
    match Js.indexOf ":"%char path with
    | Some colonIndex =>
        let driveName := Js.toUpperCase (Js.sliceTo colonIndex path) in
        if isDriveLabel driveName then
          Some (parseRest (Some driveName)
                          (Js.sliceFrom (colonIndex + 1) path)
                          defaultDrive)
        else None
    | None => Some (parseRest None path defaultDrive)
    end.

Definition hasDrive (this : t) : bool :=
  match drive this with Some _ => true | None => false end.

Definition isRelative (this : t) : bool := negb (isAbsolute this).

Definition combine (this other : t) : t :=
  if isAbsolute other then this
  else new (drive this) (pieces this ++ pieces other) (isAbsolute this).

Definition parentDirectory (this : t) : t :=
  if Nat.eqb (length (pieces this)) 0 then this
  else new (drive this)
           (firstn (length (pieces this) - 1) (pieces this))
           (isAbsolute this).

(** [a !== b] on [DriveLabel | null]. *)
Definition driveDiffers (a b : option DriveLabel) : bool :=
  match a, b with
  | Some x, Some y => negb (String.eqb x y)
  | None, None => false
  | _, _ => true
  end.

(** The loop of [equals] over the indices [i .. i + fuel - 1]. *)
Fixpoint piecesEqualFrom (thisPieces otherPieces : list string)
    (fuel i : nat) : bool :=
  match fuel with
  | 0 => true
  | S fuel' =>
      if negb (String.eqb (nth i thisPieces "") (nth i otherPieces "")) then
        false
      else piecesEqualFrom thisPieces otherPieces fuel' (S i)
  end.

Definition equals (this other : t) : bool :=
  if driveDiffers (drive this) (drive other) then false
  else
    let thisPieces := pieces this in
    let otherPieces := pieces other in
    if negb (Nat.eqb (length thisPieces) (length otherPieces)) then false
    else piecesEqualFrom thisPieces otherPieces (length thisPieces) 0.

Definition toString (this : t) : string :=
  let pathPart := Js.join (String PATH_SEPARATOR EmptyString) (pieces this) in
  match drive this with
  | Some d => d ++ ":" ++ String PATH_SEPARATOR EmptyString ++ pathPart
  | None =>
      if isAbsolute this then String PATH_SEPARATOR EmptyString ++ pathPart
      else "." ++ String PATH_SEPARATOR EmptyString ++ pathPart
  end.

End FilePath.

(** ** File entry model *)

Module FileSystemObjectType.

Inductive t : Type :=
| Directory | TextFile | Executable | Audio | Image | Link | Binary.

(** The enum's string values. *)
Definition value (ty : t) : string :=
  match ty with
  | Directory => "dir"
  | TextFile => "txt"
  | Executable => "exe"
  | Audio => "aud"
  | Image => "img"
  | Link => "lnk"
  | Binary => "bin"
  end.

End FileSystemObjectType.

(** The classes of [./fileTypes] are not among the sources at hand; the
    serializer uses [new TextFile()], [replace], [getText],
    [new BinaryFile(data)] and [data]. *)

Module TextFile.
(** Modelled from the spec: the class [TextFile] of [./fileTypes] is missing;
    a text file holds its content as text, [replace] sets it and [getText]
    reads it. *)
Record t : Type := mk { getText : string }.
(** Modelled from the spec: the constructor of [TextFile] is missing; a new
    text file is empty. *)
Definition new : t := {| getText := "" |}.
(** Modelled from the spec: [TextFile.replace] is missing; it sets the whole
    content. *)
Definition replace (text : string) (this : t) : t := {| getText := text |}.
End TextFile.

Module BinaryFile.
(** Modelled from the spec: the class [BinaryFile] of [./fileTypes] is
    missing; a binary file holds opaque content, the string [data] given to
    its constructor. *)
Record t : Type := new { data : string }.
End BinaryFile.

(** Modelled from the spec: [AudioFile] of [./fileTypes] is missing; an asset
    reference. *)
Record AudioFile : Type := { audioAsset : string }.
(** Modelled from the spec: [ImageFile] of [./fileTypes] is missing; an asset
    reference. *)
Record ImageFile : Type := { imageAsset : string }.
(** Modelled from the spec: [LinkFile] of [./fileTypes] is missing; a link
    target. *)
Record LinkFile : Type := { linkTarget : string }.
(** Modelled from the spec: [LinkOpenType] of [./fileTypes] is missing; how a
    link is opened. *)
Record LinkOpenType : Type := { linkOpenKind : string }.

(** The union [FileInfo]. A [FileInfoExecutable] carries a factory closure,
    which nothing here inspects; only its name is kept. *)
#[warnings="-register-all"]
Inductive FileInfo : Type :=
| InfoDirectory (name : string) (entries : list FileInfo)
| InfoText (name : string) (data : TextFile.t)
| InfoExecutable (name : string)
| InfoAudio (name : string) (data : AudioFile)
| InfoImage (name : string) (data : ImageFile)
| InfoLink (name : string) (data : LinkFile) (openType : LinkOpenType)
| InfoBinary (name : string) (data : BinaryFile.t).

Definition FileInfo_type (e : FileInfo) : FileSystemObjectType.t :=
  match e with
  | InfoDirectory _ _ => FileSystemObjectType.Directory
  | InfoText _ _ => FileSystemObjectType.TextFile
  | InfoExecutable _ => FileSystemObjectType.Executable
  | InfoAudio _ _ => FileSystemObjectType.Audio
  | InfoImage _ _ => FileSystemObjectType.Image
  | InfoLink _ _ _ => FileSystemObjectType.Link
  | InfoBinary _ _ => FileSystemObjectType.Binary
  end.

Definition FileInfo_name (e : FileInfo) : string :=
  match e with
  | InfoDirectory name _ | InfoText name _ | InfoExecutable name
  | InfoAudio name _ | InfoImage name _ | InfoLink name _ _
  | InfoBinary name _ => name
  end.

Definition isDirectory (e : FileInfo) : bool :=
  match e with
  | InfoDirectory _ _ => true
  | _ => false
  end.

Module FileInfoDirectory.

Record t : Type := new {
  name : string;
  entries : list FileInfo
}.

(** A directory seen as a member of the union [FileInfo], and back. *)
Definition toInfo (d : t) : FileInfo := InfoDirectory (name d) (entries d).

Definition ofInfo (e : FileInfo) : option t :=
  match e with
  | InfoDirectory n es => Some (new n es)
  | _ => None
  end.

Definition hasName (n : string) (e : FileInfo) : bool :=
  String.eqb (FileInfo_name e) n.

Definition addItem (this : t) (info : FileInfo) : Result (t * FileInfo) :=
  match Js.find (hasName (FileInfo_name info)) (entries this) with
  | Some _ => throw (Error (FileInfo_name info ++ " already exists"))
  | None => ok (new (name this) (Js.push (entries this) info), info)
  end.

Definition mkdir (this : t) (n : string) : Result (t * t) :=
  match Js.find (hasName n) (entries this) with
  | Some _ => throw (Error (n ++ " already exists"))
  | None =>
      let dir := new n [] in
      ok (new (name this) (Js.push (entries this) (toInfo dir)), dir)
  end.

(** [rmdir(name, force)]: the directory after the call, or the exception. *)
Definition rmdir (this : t) (n : string) (force : bool) : Result t :=
  let entries := entries this in
  match Js.find (hasName n) entries with
  | None => throw (Error (n ++ " does not exist"))
  | Some dir =>
      match dir with
      | InfoDirectory _ dirEntries =>
          if negb (Nat.eqb (length dirEntries) 0) && negb force then
            throw (Error (n ++ " is not empty"))
          else ok (new (name this) (fst (Js.remove (hasName n) entries)))
      | _ => throw (Error (n ++ " is not a directory"))
      end
  end.

End FileInfoDirectory.

(** ** Drives and the floppy serializer *)

(** A serialized entry as [JSON.parse] hands it over. The declared type
    [FloppySerializedFile | FloppySerializedDirectory] has the first three
    shapes; [SerOther] is an entry whose [type] tag is anything else, which
    the cast in [#insertFloppyInternal] does not exclude. *)
#[warnings="-register-all"]
Inductive FloppySerializedFile : Type :=
| SerDirectory (name : string) (entries : list FloppySerializedFile)
| SerText (name : string) (textData : string)
| SerBinary (name : string) (binaryData : string)
| SerOther (type : string) (name : string).

Module FloppySerializedDirectory.
Record t : Type := mk {
  name : string;
  entries : list FloppySerializedFile
}.
End FloppySerializedDirectory.

Module FloppySerialized.
Record t : Type := mk { root : FloppySerializedDirectory.t }.
End FloppySerialized.

Module FloppyFileSystemDrive.

Record t : Type := new { rootEntry : FileInfoDirectory.t }.

Fixpoint deserializeFile (file : FloppySerializedFile) : Result FileInfo :=
  match file with
  | SerDirectory name entries =>
      do entries' <- mapR deserializeFile entries;
      ok (InfoDirectory name entries')
  | SerText name textData =>
      let textFile := TextFile.replace textData TextFile.new in
      ok (InfoText name textFile)
  | SerBinary name binaryData =>
      ok (InfoBinary name (BinaryFile.new binaryData))
  | SerOther type _ =>
      throw (Error ("Unrecognized or unsupported serialized file type: "
                    ++ type))
  end.

Definition deserializeDirectory (dir : FloppySerializedDirectory.t)
  : Result FileInfoDirectory.t :=
  do entries <- mapR deserializeFile (FloppySerializedDirectory.entries dir);
  ok (FileInfoDirectory.new (FloppySerializedDirectory.name dir) entries).

Definition fromSerialized (floppyContents : FloppySerialized.t) : Result t :=
  do rootEntry <- deserializeDirectory (FloppySerialized.root floppyContents);
  ok (new rootEntry).

Fixpoint serializeFile (file : FileInfo) : Result FloppySerializedFile :=
  match file with
  | InfoDirectory name entries =>
      do entries' <- mapR serializeFile entries;
      ok (SerDirectory name entries')
  | InfoText name data => ok (SerText name (TextFile.getText data))
  | InfoBinary name data => ok (SerBinary name (BinaryFile.data data))
  | other =>
      throw (Error ("Unrecognized or unsupported file info type: "
                    ++ FileSystemObjectType.value (FileInfo_type other)))
  end.

Definition serializeDirectory (dir : FileInfoDirectory.t)
  : Result FloppySerializedDirectory.t :=
  do entries <- mapR serializeFile (FileInfoDirectory.entries dir);
  ok (FloppySerializedDirectory.mk (FileInfoDirectory.name dir) entries).

Definition serialize (this : t) : Result FloppySerialized.t :=
  do root <- serializeDirectory (rootEntry this);
  ok (FloppySerialized.mk root).

End FloppyFileSystemDrive.

Module TransientFileSystemDrive.
Record t : Type := mk { rootEntry : FileInfoDirectory.t }.
Definition new : t := mk (FileInfoDirectory.new "/" []).
End TransientFileSystemDrive.

(** [FileSystemDrive = TransientFileSystemDrive | FloppyFileSystemDrive],
    told apart by the [type] field. *)
Inductive FileSystemDrive : Type :=
| Transient (d : TransientFileSystemDrive.t)
| Floppy (d : FloppyFileSystemDrive.t).

Definition rootEntry (d : FileSystemDrive) : FileInfoDirectory.t :=
  match d with
  | Transient d => TransientFileSystemDrive.rootEntry d
  | Floppy d => FloppyFileSystemDrive.rootEntry d
  end.

(** ** The persisted floppy records and the external store *)

Module FloppyStorage.

Record t : Type := mk {
  name : string;
  drive : option DriveLabel;
  data : string
}.

Definition setDrive (d : option DriveLabel) (floppy : t) : t :=
  {| name := name floppy; drive := d; data := data floppy |}.

Definition setData (s : string) (floppy : t) : t :=
  {| name := name floppy; drive := drive floppy; data := s |}.

Definition hasName (n : string) (floppy : t) : bool :=
  String.eqb (name floppy) n.

End FloppyStorage.

(** ** Filesystem manager *)

Module FileSystem.

(** What the methods of a [FileSystem] read and write: the mount table
    [this.drives] and the item of [localStorage] under [LSKEY_FLOPPIES].
    The item is the JSON text of an array of records; it is kept as the
    array it denotes ([None]: the key is absent), every access in the
    source being [JSON.parse] of the whole item or [JSON.stringify] of the
    whole array. *)
Record World : Type := mkWorld {
  drives : gmap string FileSystemDrive;
  floppies : option (list FloppyStorage.t)
}.

(** Methods run in a state and exception monad over [World]: an exception
    leaves the loop or method it is raised in, and keeps what was written
    before it. *)
Definition M (A : Type) : Type := World -> Result A * World.

Definition ret {A} (x : A) : M A := fun w => (inr x, w).

Definition raise {A} (e : Exception) : M A := fun w => (inl e, w).

Definition bind {A B} (m : M A) (k : A -> M B) : M B :=
  fun w =>
    match m w with
    | (inl e, w') => (inl e, w')
    | (inr x, w') => k x w'
    end.

Definition lift {A} (r : Result A) : M A := fun w => (r, w).

(** [try { m } catch (e) { h e }]. *)
Definition tryCatch {A} (m : M A) (h : Exception -> M A) : M A :=
  fun w =>
    match m w with
    | (inl e, w') => h e w'
    | (inr x, w') => (inr x, w')
    end.

Notation "'run' x <- m ; k" := (bind m (fun x => k))
  (at level 10, x name, m at level 100, k at level 200).
Notation "'exec' m ; k" := (bind m (fun _ => k))
  (at level 10, m at level 100, k at level 200).

(** [for (let x of arr) { ... }] where the body may replace fields of [x]:
    the array after the loop. *)
Fixpoint forOf {A} (body : A -> M A) (arr : list A) : M (list A) :=
  match arr with
  | [] => ret []
  | x :: rest =>
      run x' <- body x ;
      run rest' <- forOf body rest ;
      ret (x' :: rest')
  end.

(** [JSON.parse(localStorage.getItem(LSKEY_FLOPPIES) ?? "[]")]. *)
Definition getFloppies : M (list FloppyStorage.t) :=
  fun w => (inr (default [] (floppies w)), w).

(** [localStorage.setItem(LSKEY_FLOPPIES, JSON.stringify(floppyData))]. *)
Definition setFloppies (floppyData : list FloppyStorage.t) : M unit :=
  fun w => (inr tt, {| drives := drives w; floppies := Some floppyData |}).

(** [this.drives[label]] for a label among [DriveLabelValues]; [None] is
    [undefined]. [this.drives] is a plain object: under a name that objects
    inherit ([constructor], [toString], ...) the code reads the inherited
    value, which the map does not hold. The properties below that would
    differ there assume [isDriveLabel label = true]. *)
Definition getDrive (label : DriveLabel) : M (option FileSystemDrive) :=
  fun w => (inr (drives w !! label), w).

(** [mount(label, drive)] for a label among [DriveLabelValues], none of
    which names an inherited property: [label in this.drives] then holds
    exactly for the labels set by [mount]. Under an inherited name the test
    holds in the code and [mount] returns [false]; the properties below that
    would differ there assume [isDriveLabel label = true]. *)
Definition mount (label : DriveLabel) (drive : FileSystemDrive) : M bool :=
  fun w =>
    match drives w !! label with
    | Some _ => (inr false, w)
    | None =>
        (inr true,
         {| drives := <[label := drive]> (drives w);
            floppies := floppies w |})
    end.

Definition unmount (label : DriveLabel) : M unit :=
  fun w =>
    (inr tt, {| drives := delete label (drives w); floppies := floppies w |}).

Definition emptyFloppyContents : FloppySerialized.t :=
  FloppySerialized.mk (FloppySerializedDirectory.mk "/" []).

(** [/^[a-zA-Z0-9_]+$/]. *)
Definition isFloppyNameChar (c : ascii) : bool :=
  let n := nat_of_ascii c in
  (Nat.leb 97 n && Nat.leb n 122) || (Nat.leb 65 n && Nat.leb n 90)
  || (Nat.leb 48 n && Nat.leb n 57) || Nat.eqb n 95.

Definition matchesFloppyName (name : string) : bool :=
  Nat.ltb 0 (String.length name) && Js.everyChar isFloppyNameChar name.

Definition newline : string := String (ascii_of_nat 10) EmptyString.

Section WithJSON.

(** [JSON.parse(floppy.data) as FloppySerialized]: [None] when the text
    is not a JSON document and the call throws. [JSON.stringify] of a
    [FloppySerialized] value. Both belong to the runtime. *)
Variable JSON_parse : string -> option FloppySerialized.t.
Variable JSON_stringify : FloppySerialized.t -> string.

(** [#insertFloppyInternal]; the record after [floppy.drive = label].
    [fromSerialized] returns an object or throws, so the test
    [drive === null] never holds. *)
Definition insertFloppyInternal (label : DriveLabel)
    (floppy : FloppyStorage.t) : M FloppyStorage.t :=
  run floppyContents <-
    lift (match JSON_parse (FloppyStorage.data floppy) with
          | Some c => ok c
          | None => throw SyntaxError
          end) ;
  run drive <- lift (FloppyFileSystemDrive.fromSerialized floppyContents) ;
  run mounted <- mount label (Floppy drive) ;
  if negb mounted then
    raise (Error "Failed to insert floppy; it might be corrupt")
  else ret (FloppyStorage.setDrive (Some label) floppy).

(** The constructor, run on the world in which [this.drives] is [{}]. *)
Definition new : M unit :=
  exec mount "C" (Transient TransientFileSystemDrive.new) ;
  run floppyData <- getFloppies ;
  run floppyData <-
    forOf (fun floppy =>
             match FloppyStorage.drive floppy with
             | None => ret floppy
             | Some label =>
                 tryCatch (insertFloppyInternal label floppy)
                          (fun e => raise e)
             end) floppyData ;
  setFloppies floppyData.

Definition construct (store : option (list FloppyStorage.t))
  : Result unit * World :=
  new {| drives := ∅; floppies := store |}.

(** [commit()]. Reading [drive.type] when [this.drives[floppy.drive]] is
    [undefined] throws a [TypeError]. *)
Definition commit : M unit :=
  run floppyData <- getFloppies ;
  run floppyData <-
    forOf (fun floppy =>
             match FloppyStorage.drive floppy with
             | None => ret floppy
             | Some label =>
                 run drive <- getDrive label ;
                 match drive with
                 | None => raise TypeError
                 | Some (Transient _) =>
                     ret (FloppyStorage.setDrive None floppy)
                 | Some (Floppy d) =>
                     run s <- lift (FloppyFileSystemDrive.serialize d) ;
                     ret (FloppyStorage.setData (JSON_stringify s) floppy)
                 end
             end) floppyData ;
  setFloppies floppyData.

Definition spawnFloppy (name : string) : M unit :=
  if negb (matchesFloppyName name) then
    raise (Error ("Invalid floppy name" ++ newline))
  else
    run floppyData <- getFloppies ;
    match Js.find (FloppyStorage.hasName name) floppyData with
    | Some _ =>
        raise (Error ("Floppy '" ++ name ++ "' already exists" ++ newline))
    | None =>
        setFloppies
          (Js.push floppyData
             {| FloppyStorage.name := name;
                FloppyStorage.drive := None;
                FloppyStorage.data := JSON_stringify emptyFloppyContents |})
    end.

(** [trySerializeFloppy(label)]; [None] is [null]. *)
Definition trySerializeFloppy (label : DriveLabel) : M (option string) :=
  tryCatch
    (run drive <- getDrive label ;
     match drive with
     | None => ret None
     | Some (Transient _) => ret None
     | Some (Floppy d) =>
         run s <- lift (FloppyFileSystemDrive.serialize d) ;
         ret (Some (JSON_stringify s))
     end)
    (fun _ => ret None).

(** [insertFloppy(label, floppyName)]: [#insertFloppyInternal] sets the
    drive of the record found, which is an element of [floppyData]. *)
Definition insertFloppy (label : DriveLabel) (floppyName : string) : M unit :=
  run floppyData <- getFloppies ;
  match Js.find (FloppyStorage.hasName floppyName) floppyData with
  | None => raise (Error "No floppy with that name")
  | Some floppy =>
      run floppy <- insertFloppyInternal label floppy ;
      setFloppies
        (Js.replaceFound (FloppyStorage.hasName floppyName) floppy floppyData)
  end.

End WithJSON.

Definition burnFloppy (name : string) : M unit :=
  run floppyData <- getFloppies ;
  let (floppyData, floppies) :=
    Js.remove (FloppyStorage.hasName name) floppyData in
  match floppies with
  | [] => raise (Error "No floppy with that name")
  | floppy :: _ =>
      exec match FloppyStorage.drive floppy with
           | Some label => unmount label
           | None => ret tt
           end ;
      setFloppies floppyData
  end.

(** The comparator of [getFloppyInfos]: the mounted records first, by their
    label, then the others, by their name. *)
Definition stringCompare (l r : string) : Z :=
  if String.eqb l r then 0%Z
  else if Js.lessThan l r then (-1)%Z
  else 1%Z.

Definition compareFloppies (a b : FloppyStorage.t) : Z :=
  match FloppyStorage.drive a, FloppyStorage.drive b with
  | Some da, Some db => stringCompare da db
  | Some _, None => (-1)%Z
  | None, Some _ => 1%Z
  | None, None => stringCompare (FloppyStorage.name a) (FloppyStorage.name b)
  end.

(** The object [{ drive, name }] is the pair of the two. *)
Definition floppyInfo (d : FloppyStorage.t) : option DriveLabel * string :=
  (FloppyStorage.drive d, FloppyStorage.name d).

Definition getFloppyInfos : M (list (option DriveLabel * string)) :=
  fun w =>
    match floppies w with
    | None => ret [] w
    | Some floppyData =>
        ret (List.map floppyInfo (Js.sort compareFloppies floppyData)) w
    end.

(** [d.drive === label]. *)
Definition mountedAt (label : DriveLabel) (d : FloppyStorage.t) : bool :=
  match FloppyStorage.drive d with
  | Some l => String.eqb l label
  | None => false
  end.

(** [ejectFloppy(label)]; a drive object is truthy, so [!this.drives[label]]
    holds when the label has no drive. The two [console.dir] calls are left
    out. *)
Definition ejectFloppy (label : DriveLabel) : M unit :=
  run drive <- getDrive label ;
  match drive with
  | None => ret tt
  | Some _ =>
      run floppyData <- getFloppies ;
      match Js.find (mountedAt label) floppyData with
      | None => raise (Error "No floppy mounted to that drive")
      | Some floppy =>
          exec unmount label ;
          setFloppies
            (Js.replaceFound (mountedAt label)
                             (FloppyStorage.setDrive None floppy) floppyData)
      end
  end.

(** The loop of [getFileInfo] over [pieces[0 .. pieces.length - 2]],
    started at index [i] with [cur]; [fuel] bounds the remaining turns. *)
Fixpoint walk (pieces : list string) (fuel i : nat)
    (cur : FileInfoDirectory.t) : option FileInfoDirectory.t :=
  match fuel with
  | 0 => Some cur
  | S fuel' =>
      let pathName := nth i pieces "" in
      let entries := FileInfoDirectory.entries cur in
      match Js.find (fun e => isDirectory e
                              && String.eqb (FileInfo_name e) pathName)
                    entries with
      | Some (InfoDirectory n es) =>
          walk pieces fuel' (S i) (FileInfoDirectory.new n es)
      | _ => None
      end
  end.

(** [getFileInfo(path)]; [None] is [null], for the path and the result. The
    drive of the path is a label among [DriveLabelValues]: under an
    inherited name [this.drives[drive]] is not [undefined] in the code, and
    the properties below that would differ there assume that the drive is
    such a label. *)
Definition getFileInfo (drives : gmap string FileSystemDrive)
    (path : option FilePath.t) : option FileInfo :=
  match path with
  | None => None
  | Some path =>
      let pieces := FilePath.pieces path in
      match FilePath.drive path with
      | None => None
      | Some drive =>
          match drives !! drive with
          | None => None
          | Some fsDrive =>
              let rootEntry := rootEntry fsDrive in
              if Nat.eqb (length pieces) 0 then
                Some (FileInfoDirectory.toInfo rootEntry)
              else
                match walk pieces (length pieces - 1) 0 rootEntry with
                | None => None
                | Some cur =>
                    let pathName := nth (length pieces - 1) pieces "" in
                    Js.find (FileInfoDirectory.hasName pathName)
                            (FileInfoDirectory.entries cur)
                end
          end
      end
  end.

(** Directories are objects: the entry [getFileInfo] returns is the one held
    in the tree, and a method that changes it in place ([mkdir], [rmdir])
    changes the tree. [storeAt d' names cur] is the tree below [cur] once
    the directory that [getFileInfo] finds along [names] has become [d']:
    the intermediate segments are followed as [getFileInfo] follows them
    (the first directory of that name), the last one names the first entry
    of that name. *)
Fixpoint storeAt (d' : FileInfoDirectory.t) (names : list string)
    (cur : FileInfoDirectory.t) : FileInfoDirectory.t :=
  match names with
  | [] => d'
  | n :: rest =>
      match rest with
      | [] =>
          FileInfoDirectory.new (FileInfoDirectory.name cur)
            (Js.replaceFound (FileInfoDirectory.hasName n)
                             (FileInfoDirectory.toInfo d')
                             (FileInfoDirectory.entries cur))
      | _ :: _ =>
          let isDir := fun e => isDirectory e
                                && String.eqb (FileInfo_name e) n in
          match Js.find isDir (FileInfoDirectory.entries cur) with
          | Some (InfoDirectory m es) =>
              FileInfoDirectory.new (FileInfoDirectory.name cur)
                (Js.replaceFound isDir
                   (FileInfoDirectory.toInfo
                      (storeAt d' rest (FileInfoDirectory.new m es)))
                   (FileInfoDirectory.entries cur))
          | _ => cur
          end
      end
  end.

(** A drive of the same kind with another root entry. *)
Definition setRootEntry (fsDrive : FileSystemDrive)
    (root : FileInfoDirectory.t) : FileSystemDrive :=
  match fsDrive with
  | Transient _ => Transient (TransientFileSystemDrive.mk root)
  | Floppy _ => Floppy (FloppyFileSystemDrive.new root)
  end.

(** The mount table once the directory that [getFileInfo(path)] returns has
    become [d']. *)
Definition putDirectory (path : FilePath.t) (d' : FileInfoDirectory.t)
    (w : World) : World :=
  match FilePath.drive path with
  | Some label =>
      match drives w !! label with
      | Some fsDrive =>
          {| drives :=
               <[label := setRootEntry fsDrive
                            (storeAt d' (FilePath.pieces path)
                                     (rootEntry fsDrive))]> (drives w);
             floppies := floppies w |}
      | None => w
      end
  | None => w
  end.

(** [removeDirectory(path, force)]. *)
Definition removeDirectory (path : FilePath.t) (force : bool) : M unit :=
  fun w =>
    let parentPath := FilePath.parentDirectory path in
    match getFileInfo (drives w) (Some parentPath) with
    | None =>
        (throw (Error (FilePath.toString parentPath ++ " does not exist")), w)
    | Some (InfoDirectory n es) =>
        if FilePath.equals path parentPath then (ok tt, w)
        else
          let pieces := FilePath.pieces path in
          match FileInfoDirectory.rmdir (FileInfoDirectory.new n es)
                  (nth (length pieces - 1) pieces "") force with
          | inl e => (inl e, w)
          | inr parentDir => (ok tt, putDirectory parentPath parentDir w)
          end
    | Some _ =>
        (throw (Error (FilePath.toString parentPath
                       ++ " is not a directory")), w)
    end.

(** [`${path.drive}`]: the text of a drive in a template literal. *)
Definition driveText (drive : option DriveLabel) : string :=
  match drive with
  | Some d => d
  | None => "null"
  end.

(** One turn of the loop of [createDirectory], at [pathIndex]. The path
    [nextDirPath] is [null] when [tryParse] rejects the text; reading
    [nextDirPath.parentDirectory] then throws a [TypeError]. *)
Definition createDirectoryStep (path : FilePath.t) (pathIndex : nat)
  : M unit :=
  fun w =>
    let pieces := FilePath.pieces path in
    let nextDirPath :=
      FilePath.tryParse
        (driveText (FilePath.drive path) ++ ":/"
         ++ Js.join "/" (firstn (pathIndex + 1) pieces)) None in
    match getFileInfo (drives w) nextDirPath with
    | None =>
        match nextDirPath with
        | None => (throw TypeError, w)
        | Some nextDirPath =>
            let prevDirPath := FilePath.parentDirectory nextDirPath in
            match getFileInfo (drives w) (Some prevDirPath) with
            | Some (InfoDirectory n es) =>
                match FileInfoDirectory.mkdir (FileInfoDirectory.new n es)
                        (nth pathIndex pieces "") with
                | inl e => (inl e, w)
                | inr (prevDirEntry, _) =>
                    (ok tt, putDirectory prevDirPath prevDirEntry w)
                end
            | _ => (ok tt, w)
            end
        end
    | Some nextDirEntry =>
        if isDirectory nextDirEntry then (ok tt, w)
        else
          (throw (Error ("Path "
                         ++ match nextDirPath with
                            | Some p => FilePath.toString p
                            | None => ""
                            end
                         ++ " is not a directory")), w)
    end.

(** The loop of [createDirectory] from [pathIndex] on; [fuel] is the number
    of turns left. *)
Fixpoint createDirectoryLoop (path : FilePath.t) (fuel pathIndex : nat)
  : M unit :=
  match fuel with
  | 0 => ret tt
  | S fuel' =>
      exec createDirectoryStep path pathIndex ;
      createDirectoryLoop path fuel' (S pathIndex)
  end.

(** [createDirectory(path, wholePath)]; [wholePath] is not used. *)
Definition createDirectory (path : FilePath.t) : M unit :=
  createDirectoryLoop path (length (FilePath.pieces path)) 0.

End FileSystem.

(** ** String toolbox ([src/Toolbox/String.ts]) *)

Module Toolbox.

(** [n] copies of [s], one after the other. *)
Fixpoint copies (s : string) (n : nat) : string :=
  match n with
  | 0 => EmptyString
  | S k => s ++ copies s k
  end.

Section WithLimit.

(** The length of the longest string the engine builds; making a longer one
    throws a [RangeError]. *)
Variable maxStringLength : nat.

(** [s.repeat(count)] for a count that holds an integer. *)
Definition repeat (s : string) (count : Z) : Result string :=
  if Z.ltb count 0 then throw RangeError
  else if Z.ltb (Z.of_nat maxStringLength)
                (count * Z.of_nat (String.length s))
       then throw RangeError
  else ok (copies s (Z.to_nat count)).

(** The template literal of three strings. *)
Definition template (left string right : String.string)
  : Result String.string :=
  if Nat.ltb maxStringLength
             (String.length left + String.length string + String.length right)
  then throw RangeError
  else ok (left ++ string ++ right)%string.

(** [padWithRightBias(string, length, character)]. [length] is a number
    holding an integer; [character] is the third argument, [" "] when the
    caller gives none. [spaceLeft] is positive where it is divided, so that
    [%] and [Math.floor] of the quotient are [mod] and [/]. *)
Definition padWithRightBias (string : string) (length : Z)
    (character : String.string) : Result String.string :=
  let spaceLeft := (length - Z.of_nat (String.length string))%Z in
  if Z.leb spaceLeft 0 then ok string
  else if Z.eqb (spaceLeft mod 2) 0 then
    let pad := (spaceLeft / 2)%Z in
    do left <- repeat character pad;
    do right <- repeat character pad;
    template left string right
  else
    let pad := (spaceLeft / 2)%Z in
    do left <- repeat character (pad + 1);
    do right <- repeat character pad;
    template left string right.

End WithLimit.

End Toolbox.

(** ** Notions used to state the properties *)

(** The paths a client can hold: the constructor of [FilePath] is private, so
    a path comes from [tryParse], or from [combine] or [parentDirectory] on
    paths already made. *)
Inductive Constructible : FilePath.t -> Prop :=
| Constructible_tryParse (path : string) (defaultDrive : option DriveLabel)
    (p : FilePath.t) :
    FilePath.tryParse path defaultDrive = Some p -> Constructible p
| Constructible_combine (p q : FilePath.t) :
    Constructible p -> Constructible q -> Constructible (FilePath.combine p q)
| Constructible_parentDirectory (p : FilePath.t) :
    Constructible p -> Constructible (FilePath.parentDirectory p).

(** An entry the floppy serializer handles: a text file, a binary file, or a
    directory of such entries. *)
Fixpoint serializable (e : FileInfo) : bool :=
  match e with
  | InfoDirectory _ entries => forallb serializable entries
  | InfoText _ _ | InfoBinary _ _ => true
  | _ => false
  end.

(** Path resolution, as the description of [getFileInfo] words it.
    [sub] is the directory that the segment [n] names in [d]: an entry of [d]
    that is a directory named [n], the first such entry. *)
Definition NamesDirectory (d : FileInfoDirectory.t) (n : string)
    (sub : FileInfoDirectory.t) : Prop :=
  exists before after,
    FileInfoDirectory.entries d
    = before ++ FileInfoDirectory.toInfo sub :: after
    /\ FileInfoDirectory.name sub = n
    /\ Forall (fun e => isDirectory e = false \/ FileInfo_name e <> n) before.

(** Following the segments [names] from [d], each naming a directory, ends
    in [d']. *)
Inductive Reaches : FileInfoDirectory.t -> list string ->
                    FileInfoDirectory.t -> Prop :=
| Reaches_here (d : FileInfoDirectory.t) : Reaches d [] d
| Reaches_down (d sub d' : FileInfoDirectory.t) (n : string)
    (names : list string) :
    NamesDirectory d n sub -> Reaches sub names d' ->
    Reaches d (n :: names) d'.

(** Some segment of [pieces] cannot be resolved from [root]: the segments
    before it lead to a directory [cur], and either it is an intermediate
    segment and no entry of [cur] is a directory of that name (there is no
    such entry, or it is not a directory), or it is the final segment and no
    entry of [cur] has that name. *)
Definition Unresolved (root : FileInfoDirectory.t) (pieces : list string)
    : Prop :=
  exists pre seg post cur,
    pieces = pre ++ seg :: post
    /\ Reaches root pre cur
    /\ match post with
       | [] =>
           Forall (fun e => FileInfo_name e <> seg)
                  (FileInfoDirectory.entries cur)
       | _ :: _ =>
           Forall (fun e => FileInfo_name e <> seg \/ isDirectory e = false)
                  (FileInfoDirectory.entries cur)
       end.

Definition NotFound (drives : gmap string FileSystemDrive)
    (path : option FilePath.t) : Prop :=
  path = None
  \/ exists p,
      path = Some p
      /\ (FilePath.drive p = None
          \/ exists label,
              FilePath.drive p = Some label
              /\ (drives !! label = None
                  \/ exists fsDrive,
                      drives !! label = Some fsDrive
                      /\ Unresolved (rootEntry fsDrive) (FilePath.pieces p))).

(** The loop of [getFileInfo] as a recursion over the segments it visits
    (used in the proofs only). *)
Fixpoint descend (cur : FileInfoDirectory.t) (names : list string)
    : option FileInfoDirectory.t :=
  match names with
  | [] => Some cur
  | n :: rest =>
      match Js.find (fun e => isDirectory e && String.eqb (FileInfo_name e) n)
                    (FileInfoDirectory.entries cur) with
      | Some (InfoDirectory m es) => descend (FileInfoDirectory.new m es) rest
      | _ => None
      end
  end.

(** What [commit()] is to do with one persisted record, given the mount
    table: a record that is not mounted is kept; a record mounted at a label
    that holds a floppy drive gets the text of that drive's serialized tree
    as its [data]; a record mounted at a label that holds a drive of another
    kind gets [null] as its [drive]. *)
Inductive Committed (JSON_stringify : FloppySerialized.t -> string)
    (drives : gmap string FileSystemDrive)
  : FloppyStorage.t -> FloppyStorage.t -> Prop :=
| Committed_unmounted (floppy : FloppyStorage.t) :
    FloppyStorage.drive floppy = None ->
    Committed JSON_stringify drives floppy floppy
| Committed_floppy (floppy : FloppyStorage.t) (label : DriveLabel)
    (d : FloppyFileSystemDrive.t) (s : FloppySerialized.t) :
    FloppyStorage.drive floppy = Some label ->
    drives !! label = Some (Floppy d) ->
    FloppyFileSystemDrive.serialize d = ok s ->
    Committed JSON_stringify drives floppy
              (FloppyStorage.setData (JSON_stringify s) floppy)
| Committed_other (floppy : FloppyStorage.t) (label : DriveLabel)
    (d : TransientFileSystemDrive.t) :
    FloppyStorage.drive floppy = Some label ->
    drives !! label = Some (Transient d) ->
    Committed JSON_stringify drives floppy (FloppyStorage.setDrive None floppy).

(** [commit()] can handle the record: the label it is mounted at, if any,
    holds a drive, and when that drive is a floppy its tree holds only
    entries the serializer handles. *)
Definition Committable (drives : gmap string FileSystemDrive)
    (floppy : FloppyStorage.t) : Prop :=
  forall label,
    FloppyStorage.drive floppy = Some label ->
    exists fsDrive,
      drives !! label = Some fsDrive
      /\ match fsDrive with
         | Floppy d =>
             forallb serializable
               (FileInfoDirectory.entries (FloppyFileSystemDrive.rootEntry d))
             = true
         | Transient _ => True
         end.

(** The data of a persisted record deserializes: [JSON.parse] returns and
    [fromSerialized] returns. *)
Definition deserializes (JSON_parse : string -> option FloppySerialized.t)
    (floppy : FloppyStorage.t) : bool :=
  match JSON_parse (FloppyStorage.data floppy) with
  | Some c =>
      match FloppyFileSystemDrive.fromSerialized c with
      | inr _ => true
      | inl _ => false
      end
  | None => false
  end.

(** The runtime's JSON functions, for the examples. [stringify] writes a
    [FloppySerialized] value the way [JSON.stringify] does: members in the
    order the object literals of the serializer list them, no white space,
    strings quoted and escaped. [parseKnown docs] reads back the text of each
    document of [docs] and throws on any other text. *)
Module JsonText.

Definition quote : string := String (ascii_of_nat 34) EmptyString.
Definition backslash : string := String (ascii_of_nat 92) EmptyString.

Definition hexDigit (n : nat) : string :=
  String (ascii_of_nat (if Nat.ltb n 10 then 48 + n else 87 + n))
         EmptyString.

Definition escapeChar (c : ascii) : string :=
  let n := nat_of_ascii c in
  if Nat.eqb n 34 then backslash ++ quote
  else if Nat.eqb n 92 then backslash ++ backslash
  else if Nat.eqb n 8 then backslash ++ "b"
  else if Nat.eqb n 9 then backslash ++ "t"
  else if Nat.eqb n 10 then backslash ++ "n"
  else if Nat.eqb n 12 then backslash ++ "f"
  else if Nat.eqb n 13 then backslash ++ "r"
  else if Nat.ltb n 32 then
    backslash ++ "u00" ++ hexDigit (n / 16) ++ hexDigit (n mod 16)
  else String c EmptyString.

Fixpoint escape (s : string) : string :=
  match s with
  | EmptyString => EmptyString
  | String c rest => escapeChar c ++ escape rest
  end.

Definition str (s : string) : string := quote ++ escape s ++ quote.

Definition member (key value : string) : string := str key ++ ":" ++ value.

Fixpoint commaSeparated (items : list string) : string :=
  match items with
  | [] => ""
  | [x] => x
  | x :: rest => x ++ "," ++ commaSeparated rest
  end.

Fixpoint entry (e : FloppySerializedFile) : string :=
  match e with
  | SerDirectory name entries =>
      "{" ++ member "type" (str "dir") ++ "," ++ member "name" (str name)
      ++ "," ++ member "entries"
                       ("[" ++ commaSeparated (List.map entry entries) ++ "]")
      ++ "}"
  | SerText name textData =>
      "{" ++ member "type" (str "txt") ++ "," ++ member "name" (str name)
      ++ "," ++ member "textData" (str textData) ++ "}"
  | SerBinary name binaryData =>
      "{" ++ member "type" (str "bin") ++ "," ++ member "name" (str name)
      ++ "," ++ member "binaryData" (str binaryData) ++ "}"
  | SerOther type name =>
      "{" ++ member "type" (str type) ++ "," ++ member "name" (str name)
      ++ "}"
  end.

Definition stringify (c : FloppySerialized.t) : string :=
  let root := FloppySerialized.root c in
  "{" ++ member "root"
           (entry (SerDirectory (FloppySerializedDirectory.name root)
                                (FloppySerializedDirectory.entries root)))
  ++ "}".

Definition parseKnown (docs : list FloppySerialized.t) (text : string)
  : option FloppySerialized.t :=
  List.find (fun c => String.eqb (stringify c) text) docs.

End JsonText.

(** The normal form of a path: every piece is a non-empty string without
    separator and is not ["."]; an absolute path has no piece [".."]; a path
    with a drive is absolute. *)
Definition NormalPath (p : FilePath.t) : Prop :=
  Forall (fun s => s <> "" /\ Js.indexOf PATH_SEPARATOR s = None /\ s <> ".")
         (FilePath.pieces p)
  /\ (FilePath.isAbsolute p = true ->
      Forall (fun s => s <> "..") (FilePath.pieces p))
  /\ (FilePath.drive p <> None -> FilePath.isAbsolute p = true).

(** The names of the entries of a directory are pairwise different. *)
Definition UniqueNames (d : FileInfoDirectory.t) : Prop :=
  NoDup (List.map FileInfo_name (FileInfoDirectory.entries d)).

(** A serialized entry whose [type] tag, and that of every entry below it,
    is one the deserializer recognizes. *)
Fixpoint recognized (file : FloppySerializedFile) : bool :=
  match file with
  | SerDirectory _ entries => forallb recognized entries
  | SerText _ _ | SerBinary _ _ => true
  | SerOther _ _ => false
  end.

(** The labels at which the records of a persisted array are mounted, in
    the order of the records. *)
Definition mountedLabels (floppyData : list FloppyStorage.t)
  : list DriveLabel :=
  flat_map (fun floppy => match FloppyStorage.drive floppy with
                          | Some label => [label]
                          | None => []
                          end) floppyData.

(** The persisted array of a world, and the property that its records have
    pairwise different names. *)
Definition floppyRecords (w : FileSystem.World) : list FloppyStorage.t :=
  default [] (FileSystem.floppies w).

Definition UniqueFloppyNames (w : FileSystem.World) : Prop :=
  NoDup (List.map FloppyStorage.name (floppyRecords w)).

(** [getFileInfo] below a root entry, by recursion over the pieces (used in
    the proofs). *)
Fixpoint lookupIn (cur : FileInfoDirectory.t) (names : list string)
    : option FileInfo :=
  match names with
  | [] => Some (FileInfoDirectory.toInfo cur)
  | n :: rest =>
      match rest with
      | [] =>
          Js.find (FileInfoDirectory.hasName n) (FileInfoDirectory.entries cur)
      | _ :: _ =>
          match Js.find (fun e => isDirectory e
                                  && String.eqb (FileInfo_name e) n)
                        (FileInfoDirectory.entries cur) with
          | Some (InfoDirectory m es) =>
              lookupIn (FileInfoDirectory.new m es) rest
          | _ => None
          end
      end
  end.

(** The body of the loop of [commit()] as a function of the mount table and
    the record (used in the proofs). *)
Definition commitRecord (JSON_stringify : FloppySerialized.t -> string)
    (drives : gmap string FileSystemDrive) (floppy : FloppyStorage.t)
  : Result FloppyStorage.t :=
  match FloppyStorage.drive floppy with
  | None => ok floppy
  | Some label =>
      match drives !! label with
      | None => throw TypeError
      | Some (Transient _) => ok (FloppyStorage.setDrive None floppy)
      | Some (Floppy d) =>
          match FloppyFileSystemDrive.serialize d with
          | inl e => inl e
          | inr s => ok (FloppyStorage.setData (JSON_stringify s) floppy)
          end
      end
  end.

(** The entries of a tree in the order in which the serializer visits them:
    an entry, then the entries below it. *)
Fixpoint treeEntries (e : FileInfo) : list FileInfo :=
  e :: match e with
       | InfoDirectory _ entries => flat_map treeEntries entries
       | _ => []
       end.

(** The kinds of entry the serializer has a branch for. *)
Definition supportedKind (e : FileInfo) : bool :=
  match FileInfo_type e with
  | FileSystemObjectType.Directory
  | FileSystemObjectType.TextFile
  | FileSystemObjectType.Binary => true
  | _ => false
  end.

(** The same for a serialized tree, and the [type] tag of its entries. *)
Fixpoint serializedEntries (file : FloppySerializedFile)
  : list FloppySerializedFile :=
  file :: match file with
          | SerDirectory _ entries => flat_map serializedEntries entries
          | _ => []
          end.

Definition FloppySerializedFile_type (file : FloppySerializedFile) : string :=
  match file with
  | SerDirectory _ _ => "dir"
  | SerText _ _ => "txt"
  | SerBinary _ _ => "bin"
  | SerOther type _ => type
  end.

Definition recognizedTag (type : string) : bool :=
  String.eqb type "dir" || String.eqb type "txt" || String.eqb type "bin".

(** [SerOther] stands for an entry with a tag other than the three the
    deserializer has a branch for. *)
Definition wellTagged (file : FloppySerializedFile) : bool :=
  match file with
  | SerOther type _ => negb (recognizedTag type)
  | _ => true
  end.

(** The order of the listing of the floppies: [a] may come before [b]. *)
Definition ListedBefore (a b : FloppyStorage.t) : Prop :=
  (FileSystem.compareFloppies a b <= 0)%Z.

(** * Properties *)

(** ** Path model *)

Lemma pieces_new_snoc drive isAbsolute l p :
  FilePath.pieces (FilePath.new drive (l ++ [p]) isAbsolute) =
  FilePath.step (FilePath.isAbsolute (FilePath.new drive l isAbsolute))
                (FilePath.pieces (FilePath.new drive l isAbsolute)) p.
Proof.
  unfold FilePath.new; simpl. now rewrite fold_left_app.
Qed.

Lemma step_length isAbsolute acc p :
  length (FilePath.step isAbsolute acc p) <= S (length acc).
Proof.
  unfold FilePath.step, Js.push, Js.pop.
  repeat match goal with |- context [if ?b then _ else _] => destruct b end;
    rewrite ?length_app; simpl; try lia.
  destruct acc as [|x acc] using rev_ind; simpl; [lia|].
  rewrite removelast_last. rewrite length_app. simpl. lia.
Qed.

Lemma step_no_dot isAbsolute acc p :
  existsb (String.eqb ".") acc = false ->
  existsb (String.eqb ".") (FilePath.step isAbsolute acc p) = false.
Proof.
  intros Hacc. unfold FilePath.step, Js.push, Js.pop.
  destruct (String.eqb_spec p "..") as [->|Hdd].
  - destruct isAbsolute.
    + destruct (negb (Nat.eqb (length acc) 0)); [|exact Hacc].
      destruct acc as [|x acc _] using rev_ind; [reflexivity|].
      rewrite removelast_last. rewrite existsb_app in Hacc.
      now apply orb_false_iff in Hacc.
    + rewrite existsb_app, Hacc. reflexivity.
  - destruct (String.eqb_spec p ".") as [->|Hd]; [exact Hacc|].
    assert (Hne : String.eqb "." p = false)
      by (apply String.eqb_neq; congruence).
    rewrite existsb_app, Hacc. cbn [existsb]. now rewrite Hne.
Qed.

Lemma step_absolute_no_dotdot acc p :
  existsb (String.eqb "..") acc = false ->
  existsb (String.eqb "..") (FilePath.step true acc p) = false.
Proof.
  intros Hacc. unfold FilePath.step, Js.push, Js.pop.
  destruct (String.eqb_spec p "..") as [->|Hdd].
  - destruct (negb (Nat.eqb (length acc) 0)); [|exact Hacc].
    destruct acc as [|x acc _] using rev_ind; [reflexivity|].
    rewrite removelast_last. rewrite existsb_app in Hacc.
    now apply orb_false_iff in Hacc.
  - destruct (String.eqb_spec p ".") as [->|Hd]; [exact Hacc|].
    assert (Hne : String.eqb ".." p = false)
      by (apply String.eqb_neq; congruence).
    rewrite existsb_app, Hacc. cbn [existsb]. now rewrite Hne.
Qed.

Lemma fold_step_relative ps acc :
  fold_left (FilePath.step false) ps acc =
  acc ++ List.filter (fun s => negb (String.eqb s ".")) ps.
Proof.
  revert acc. induction ps as [|p ps IH]; intros acc; simpl.
  - now rewrite app_nil_r.
  - rewrite IH. unfold FilePath.step, Js.push.
    destruct (String.eqb_spec p "..") as [->|Hdd]; simpl.
    + now rewrite <- app_assoc.
    + destruct (String.eqb_spec p "."); simpl; [reflexivity|].
      now rewrite <- app_assoc.
Qed.

Lemma fold_step_invariant (P : list string -> Prop) isAbsolute :
  (forall acc p, P acc -> P (FilePath.step isAbsolute acc p)) ->
  forall ps acc, P acc -> P (fold_left (FilePath.step isAbsolute) ps acc).
Proof.
  intros Hstep ps. induction ps as [|p ps IH]; intros acc Hacc; simpl; auto.
Qed.

Lemma fold_step_length isAbsolute ps acc :
  length (fold_left (FilePath.step isAbsolute) ps acc)
  <= length acc + length ps.
Proof.
  revert acc. induction ps as [|p ps IH]; intros acc; simpl; [lia|].
  specialize (IH (FilePath.step isAbsolute acc p)).
  pose proof (step_length isAbsolute acc p). lia.
Qed.

(** C6. The constructor of [FilePath] normalises the piece sequence it is
    given, one piece after the other. The path is absolute when it is given a
    drive or is given as absolute. A piece ["."] is dropped; a piece [".."]
    on an absolute path removes the last segment kept so far and does nothing
    when none is kept; a piece [".."] on a relative path is kept as a segment;
    any other piece is kept. So the result holds no ["."], holds no [".."] when
    the path is absolute, is the input without its ["."] pieces when the path
    is relative, and is never longer than the input. *)
Theorem FilePath_new_normalizes
    (drive : option DriveLabel) (isAbsolute : bool) (ps : list string)
    (p : string) :
  let abs := match drive with Some _ => true | None => false end
             || isAbsolute in
  let norm := fun l => FilePath.pieces (FilePath.new drive l isAbsolute) in
  FilePath.isAbsolute (FilePath.new drive ps isAbsolute) = abs
  /\ FilePath.drive (FilePath.new drive ps isAbsolute) = drive
  /\ norm [] = []
  /\ norm (ps ++ [p]) =
       (if String.eqb p "." then norm ps
        else if String.eqb p ".." then
          if abs then
            match norm ps with
            | [] => []
            | _ :: _ => removelast (norm ps)
            end
          else norm ps ++ [".."]
        else norm ps ++ [p])
  /\ existsb (String.eqb ".") (norm ps) = false
  /\ (if abs then existsb (String.eqb "..") (norm ps) = false
      else norm ps = List.filter (fun s => negb (String.eqb s ".")) ps)
  /\ length (norm ps) <= length ps.
Proof.
  cbv zeta. split; [reflexivity|]. split; [reflexivity|].
  split; [reflexivity|]. split; [|split; [|split]].
  - rewrite pieces_new_snoc. unfold FilePath.step, Js.push, Js.pop.
    change (FilePath.isAbsolute (FilePath.new drive ps isAbsolute))
      with (match drive with Some _ => true | None => false end || isAbsolute).
    destruct (String.eqb_spec p ".") as [->|Hd]; [reflexivity|].
    destruct (String.eqb_spec p "..") as [->|Hdd]; [|reflexivity].
    destruct (_ || isAbsolute); [|reflexivity].
    now destruct (FilePath.pieces _).
  - unfold FilePath.new; simpl.
    apply (fold_step_invariant
             (fun acc => existsb (String.eqb ".") acc = false)); [|reflexivity].
    intros acc q. apply step_no_dot.
  - unfold FilePath.new; simpl.
    destruct (_ || isAbsolute).
    + apply (fold_step_invariant
               (fun acc => existsb (String.eqb "..") acc = false));
        [|reflexivity].
      intros acc q. apply step_absolute_no_dotdot.
    + apply fold_step_relative.
  - unfold FilePath.new; simpl.
    apply (fold_step_length _ ps []).
Qed.

Example tryParse_drive_path :
  FilePath.tryParse "c:/games/./doom/../quake" None
  = Some (FilePath.mk (Some "C") ["games"; "quake"] true).
Proof. reflexivity. Qed.

Example tryParse_relative_path :
  FilePath.tryParse "../x//y" (Some "C")
  = Some (FilePath.mk None [".."; "x"; "y"] false).
Proof. reflexivity. Qed.

Example tryParse_above_root :
  FilePath.tryParse "/../.." (Some "C") = Some (FilePath.mk (Some "C") [] true).
Proof. reflexivity. Qed.

Example tryParse_bad_drive : FilePath.tryParse "cd:/x" None = None.
Proof. reflexivity. Qed.

Lemma new_drive drive ps isAbsolute :
  FilePath.drive (FilePath.new drive ps isAbsolute) = drive.
Proof. reflexivity. Qed.

Lemma new_isAbsolute drive ps isAbsolute :
  FilePath.isAbsolute (FilePath.new drive ps isAbsolute)
  = FilePath.hasDrive (FilePath.new drive ps isAbsolute) || isAbsolute.
Proof. reflexivity. Qed.

Lemma new_drive_absolute drive ps isAbsolute :
  FilePath.drive (FilePath.new drive ps isAbsolute) <> None ->
  FilePath.isAbsolute (FilePath.new drive ps isAbsolute) = true.
Proof.
  rewrite new_isAbsolute. unfold FilePath.hasDrive. rewrite new_drive.
  now destruct drive.
Qed.

Lemma tryParse_cases path defaultDrive p :
  FilePath.tryParse path defaultDrive = Some p ->
  exists drive ps isAbsolute, p = FilePath.new drive ps isAbsolute.
Proof.
  unfold FilePath.tryParse, FilePath.parseRest.
  repeat match goal with
         | |- context [if ?b then _ else _] => destruct b
         | |- context [match ?o with Some _ => _ | None => _ end] => destruct o
         end;
    intros H; try discriminate; injection H as <-; eauto.
Qed.

Lemma combine_absolute (this other : FilePath.t) :
  FilePath.isAbsolute other = true -> FilePath.combine this other = this.
Proof. intros H. unfold FilePath.combine. now rewrite H. Qed.

(** C10. A path a client can hold (made by [tryParse], [combine] and
    [parentDirectory]) that has a drive is absolute. *)
Theorem drive_implies_absolute (p : FilePath.t) :
  Constructible p ->
  FilePath.drive p <> None ->
  FilePath.isAbsolute p = true.
Proof.
  induction 1 as [path dd p Hparse | p q Hp IHp Hq IHq | p Hp IHp].
  - destruct (tryParse_cases _ _ _ Hparse) as (d & ps & a & ->).
    apply new_drive_absolute.
  - unfold FilePath.combine.
    destruct (FilePath.isAbsolute q); [exact IHp|].
    apply new_drive_absolute.
  - unfold FilePath.parentDirectory.
    destruct (Nat.eqb _ 0); [exact IHp|].
    apply new_drive_absolute.
Qed.

Lemma drive_implies_absolute_witness :
  FilePath.isAbsolute
    (FilePath.parentDirectory
       (FilePath.combine (FilePath.mk (Some "C") ["a"; "b"] true)
                         (FilePath.mk None ["x"; "y"] false))) = true.
Proof.
  apply (drive_implies_absolute
           (FilePath.parentDirectory
              (FilePath.combine (FilePath.mk (Some "C") ["a"; "b"] true)
                                (FilePath.mk None ["x"; "y"] false)))).
  - apply Constructible_parentDirectory, Constructible_combine.
    + apply (Constructible_tryParse "c:/a/b" None). reflexivity.
    + apply (Constructible_tryParse "x/y" None). reflexivity.
  - vm_compute. discriminate.
Defined.

(** C1, as the code has it. [combine] tests whether [other] is absolute and
    then returns the receiver: combining [C:/a] with the absolute [D:/b]
    gives [C:/a], and nothing of [D:/b] is in the result. *)
Theorem combine_absolute_returns_receiver :
  let p := FilePath.mk (Some "C") ["a"] true in
  let other := FilePath.mk (Some "D") ["b"] true in
  FilePath.tryParse "C:/a" None = Some p
  /\ FilePath.tryParse "D:/b" None = Some other
  /\ FilePath.isAbsolute other = true
  /\ FilePath.combine p other = p
  /\ FilePath.combine p other <> other.
Proof.
  cbv zeta. repeat split; try reflexivity. vm_compute. discriminate.
Qed.

(** C4, the input at which the claim fails: ["/"] has no drive prefix and
    parses to an absolute path, whose drive is [null] although the default
    drive is [C]. *)
Lemma tryParse_slash_ignores_defaultDrive :
  Js.indexOf ":"%char "/" = None
  /\ FilePath.tryParse "/" (Some "C") = Some (FilePath.mk None [] true)
  /\ FilePath.isAbsolute (FilePath.mk None [] true) = true
  /\ FilePath.drive (FilePath.mk None [] true) <> Some "C".
Proof. repeat split; try reflexivity. discriminate. Qed.

(** C4, amended. For every input string other than ["/"] that [tryParse]
    accepts without a drive prefix and that yields an absolute path, the
    path's drive is the supplied [defaultDrive]; the string ["/"] yields the
    absolute path with no pieces and no drive, whatever [defaultDrive] is. *)
Theorem tryParse_absolute_takes_defaultDrive
    (path : string) (defaultDrive : option DriveLabel) (p : FilePath.t) :
  (Js.indexOf ":"%char path = None ->
   path <> "/" ->
   FilePath.tryParse path defaultDrive = Some p ->
   FilePath.isAbsolute p = true ->
   FilePath.drive p = defaultDrive)
  /\ FilePath.tryParse "/" defaultDrive = Some (FilePath.mk None [] true).
Proof.
  split; [|reflexivity].
  intros Hcolon Hslash. unfold FilePath.tryParse. rewrite Hcolon.
  destruct (Nat.eqb (String.length path) 0).
  { intros [= <-]. discriminate. }
  destruct (String.eqb_spec path "/") as [->|_]; [congruence|].
  intros [= <-]. unfold FilePath.parseRest.
  rewrite new_isAbsolute, new_drive. unfold FilePath.hasDrive.
  rewrite new_drive.
  destruct (_ || Js.firstCharIs _ _); [reflexivity|discriminate].
Qed.

Lemma tryParse_absolute_takes_defaultDrive_witness :
  FilePath.drive (FilePath.mk (Some "C") ["a"; "b"] true) = Some "C"
  /\ FilePath.tryParse "/" (Some "C") = Some (FilePath.mk None [] true).
Proof.
  destruct (tryParse_absolute_takes_defaultDrive
              "/a/b" (Some "C") (FilePath.mk (Some "C") ["a"; "b"] true))
    as [Hdrive Hslash].
  split; [|exact Hslash].
  apply Hdrive.
  - reflexivity.
  - discriminate.
  - reflexivity.
  - reflexivity.
Defined.

(** ** File entry model *)

Lemma find_none_iff {A} (p : A -> bool) (l : list A) :
  Js.find p l = None <-> Forall (fun x => p x = false) l.
Proof.
  unfold Js.find. induction l as [|x l IH]; simpl.
  - split; [constructor|reflexivity].
  - destruct (p x) eqn:Hx.
    + split; [discriminate|]. intros H. inversion H; congruence.
    + rewrite IH. split; [now constructor|]. intros H. now inversion H.
Qed.

Lemma find_some_iff {A} (p : A -> bool) (l : list A) (x : A) :
  Js.find p l = Some x <->
  exists before after,
    l = before ++ x :: after /\ p x = true
    /\ Forall (fun y => p y = false) before.
Proof.
  unfold Js.find. induction l as [|y l IH]; simpl.
  - split; [discriminate|]. intros (b & a & H & _). now destruct b.
  - destruct (p y) eqn:Hy.
    + split.
      * intros [= ->]. exists [], l. now repeat split.
      * intros (b & a & H & Hx & Hb). destruct b as [|z b]; simpl in H.
        -- congruence.
        -- injection H as -> ->. inversion Hb; congruence.
    + rewrite IH. split.
      * intros (b & a & -> & Hx & Hb). exists (y :: b), a.
        repeat split; [assumption|now constructor].
      * intros (b & a & H & Hx & Hb). destruct b as [|z b]; simpl in H.
        -- congruence.
        -- injection H as -> ->. exists b, a. inversion Hb. now repeat split.
Qed.

Lemma hasName_true n e :
  FileInfoDirectory.hasName n e = true <-> FileInfo_name e = n.
Proof. unfold FileInfoDirectory.hasName. apply String.eqb_eq. Qed.

Lemma hasName_false n e :
  FileInfoDirectory.hasName n e = false <-> FileInfo_name e <> n.
Proof. unfold FileInfoDirectory.hasName. apply String.eqb_neq. Qed.

Lemma removed_name_absent n (es : list FileInfo) (e : FileInfo) :
  In e (List.filter (fun x => negb (FileInfoDirectory.hasName n x)) es) ->
  FileInfo_name e <> n.
Proof.
  intros H. apply filter_In in H as [_ H].
  apply hasName_false. now destruct (FileInfoDirectory.hasName n e).
Qed.

(** C8. [d.rmdir(n, force)] throws when [d] has no entry named [n]; throws
    when the entry named [n] (the first one) is not a directory; throws when
    it is a directory that has entries and [force] is false; otherwise, so
    also for a directory with entries when [force] is true, it returns and
    [d] keeps its other entries, in order, and no entry named [n]. *)
Theorem rmdir_spec (d : FileInfoDirectory.t) (n : string) (force : bool) :
  ((forall e, In e (FileInfoDirectory.entries d) -> FileInfo_name e <> n) ->
   FileInfoDirectory.rmdir d n force = throw (Error (n ++ " does not exist")))
  /\ (forall e,
        Js.find (FileInfoDirectory.hasName n) (FileInfoDirectory.entries d)
        = Some e ->
        (isDirectory e = false ->
         FileInfoDirectory.rmdir d n force
         = throw (Error (n ++ " is not a directory")))
        /\ (forall m es,
              e = InfoDirectory m es ->
              (es <> [] -> force = false ->
               FileInfoDirectory.rmdir d n force
               = throw (Error (n ++ " is not empty")))
              /\ (es = [] \/ force = true ->
                  exists d',
                    FileInfoDirectory.rmdir d n force = ok d'
                    /\ FileInfoDirectory.name d' = FileInfoDirectory.name d
                    /\ FileInfoDirectory.entries d'
                       = List.filter
                           (fun x => negb (FileInfoDirectory.hasName n x))
                           (FileInfoDirectory.entries d)
                    /\ (forall x, In x (FileInfoDirectory.entries d') ->
                                  FileInfo_name x <> n)))).
Proof.
  unfold FileInfoDirectory.rmdir. split.
  - intros Hnone.
    assert (Hfind : Js.find (FileInfoDirectory.hasName n)
                            (FileInfoDirectory.entries d) = None).
    { apply find_none_iff, Forall_forall. intros e He.
      apply hasName_false. now apply Hnone. }
    now rewrite Hfind.
  - intros e ->. split.
    + now destruct e.
    + intros m es ->. split.
      * intros Hes ->. destruct es; [congruence|reflexivity].
      * intros Hcase.
        assert (Hguard : negb (Nat.eqb (length es) 0) && negb force = false).
        { destruct Hcase as [-> | ->]; [reflexivity|apply andb_false_r]. }
        rewrite Hguard. eexists. split; [reflexivity|].
        simpl. repeat split. intros x. apply removed_name_absent.
Qed.

Lemma rmdir_spec_witness :
  exists d',
    FileInfoDirectory.rmdir
      (FileInfoDirectory.new "/"
         [InfoText "readme" (TextFile.mk "hi");
          InfoDirectory "docs" [InfoText "a" (TextFile.mk "b")]])
      "docs" true = ok d'
    /\ FileInfoDirectory.name d' = "/"
    /\ FileInfoDirectory.entries d' = [InfoText "readme" (TextFile.mk "hi")]
    /\ (forall x, In x (FileInfoDirectory.entries d') ->
                  FileInfo_name x <> "docs").
Proof.
  destruct (rmdir_spec
              (FileInfoDirectory.new "/"
                 [InfoText "readme" (TextFile.mk "hi");
                  InfoDirectory "docs" [InfoText "a" (TextFile.mk "b")]])
              "docs" true) as [_ Hfound].
  destruct (Hfound (InfoDirectory "docs" [InfoText "a" (TextFile.mk "b")])
                   eq_refl) as [_ Hdir].
  destruct (Hdir "docs" [InfoText "a" (TextFile.mk "b")] eq_refl)
    as [_ Hremoved].
  exact (Hremoved (or_intror eq_refl)).
Defined.

(** ** Floppy serializer *)

(** Induction over the entry tree: the entries of a directory satisfy the
    property before the directory does. *)
Lemma FileInfo_tree_ind (P : FileInfo -> Prop) :
  (forall name entries, Forall P entries -> P (InfoDirectory name entries)) ->
  (forall e, isDirectory e = false -> P e) ->
  forall e, P e.
Proof.
  intros Hdir Hleaf. fix IH 1. intros e.
  destruct e as [name entries| | | | | |]; try (now apply Hleaf).
  apply Hdir. induction entries as [|x entries IHentries]; constructor.
  - apply IH.
  - exact IHentries.
Qed.

Lemma mapR_ok {A B} (f : A -> Result B) (g : B -> Result A) (l : list A) :
  Forall (fun x => exists y, f x = ok y /\ g y = ok x) l ->
  exists l', mapR f l = ok l' /\ mapR g l' = ok l.
Proof.
  induction 1 as [|x l (y & Hf & Hg) _ (l' & Hl & Hl')].
  - now exists [].
  - exists (y :: l'). simpl. rewrite Hf, Hl. simpl. now rewrite Hg, Hl'.
Qed.

Lemma serializeFile_roundtrip (e : FileInfo) :
  serializable e = true ->
  exists s,
    FloppyFileSystemDrive.serializeFile e = ok s
    /\ FloppyFileSystemDrive.deserializeFile s = ok e.
Proof.
  induction e as [name entries IH | e Hleaf] using FileInfo_tree_ind.
  - simpl. intros Hall.
    destruct (mapR_ok FloppyFileSystemDrive.serializeFile
                      FloppyFileSystemDrive.deserializeFile entries)
      as (entries' & Hser & Hde).
    { rewrite Forall_forall in IH |- *. intros x Hx. apply IH; [exact Hx|].
      rewrite forallb_forall in Hall. now apply Hall. }
    exists (SerDirectory name entries'). rewrite Hser. simpl.
    now rewrite Hde.
  - destruct e as [| name [text] | | | | | name [data]]; try discriminate;
      intros _; eexists; split; reflexivity.
Qed.

Lemma serializeDirectory_roundtrip (dir : FileInfoDirectory.t) :
  forallb serializable (FileInfoDirectory.entries dir) = true ->
  exists s,
    FloppyFileSystemDrive.serializeDirectory dir = ok s
    /\ FloppyFileSystemDrive.deserializeDirectory s = ok dir.
Proof.
  destruct dir as [name entries]. simpl. intros Hall.
  destruct (mapR_ok FloppyFileSystemDrive.serializeFile
                    FloppyFileSystemDrive.deserializeFile entries)
    as (entries' & Hser & Hde).
  { apply Forall_forall. intros x Hx. apply serializeFile_roundtrip.
    rewrite forallb_forall in Hall. now apply Hall. }
  exists (FloppySerializedDirectory.mk name entries').
  unfold FloppyFileSystemDrive.serializeDirectory,
    FloppyFileSystemDrive.deserializeDirectory.
  simpl. rewrite Hser. simpl. now rewrite Hde.
Qed.

(** C5. A floppy drive whose tree holds only directories, text files and
    binary files serializes, and deserializing the serialized form gives the
    same drive: the same tree, with the same names, kinds, nesting and order
    of entries, the same text in each text file and the same opaque string in
    each binary file. *)
Theorem serialize_roundtrip (drive : FloppyFileSystemDrive.t) :
  forallb serializable
    (FileInfoDirectory.entries (FloppyFileSystemDrive.rootEntry drive))
  = true ->
  exists s,
    FloppyFileSystemDrive.serialize drive = ok s
    /\ FloppyFileSystemDrive.fromSerialized s = ok drive.
Proof.
  destruct drive as [root]. simpl. intros Hall.
  destruct (serializeDirectory_roundtrip root Hall) as (s & Hser & Hde).
  exists (FloppySerialized.mk s).
  unfold FloppyFileSystemDrive.serialize, FloppyFileSystemDrive.fromSerialized.
  simpl. rewrite Hser. simpl. now rewrite Hde.
Qed.

Lemma serialize_roundtrip_witness :
  exists s,
    FloppyFileSystemDrive.serialize
      (FloppyFileSystemDrive.new
         (FileInfoDirectory.new "/"
            [InfoDirectory "docs"
               [InfoText "a.txt" (TextFile.mk "hello");
                InfoDirectory "empty" []];
             InfoBinary "blob" (BinaryFile.new "0a0b")])) = ok s
    /\ FloppyFileSystemDrive.fromSerialized s
       = ok (FloppyFileSystemDrive.new
               (FileInfoDirectory.new "/"
                  [InfoDirectory "docs"
                     [InfoText "a.txt" (TextFile.mk "hello");
                      InfoDirectory "empty" []];
                   InfoBinary "blob" (BinaryFile.new "0a0b")])).
Proof.
  apply (serialize_roundtrip
           (FloppyFileSystemDrive.new
              (FileInfoDirectory.new "/"
                 [InfoDirectory "docs"
                    [InfoText "a.txt" (TextFile.mk "hello");
                     InfoDirectory "empty" []];
                  InfoBinary "blob" (BinaryFile.new "0a0b")]))).
  reflexivity.
Defined.

Example serialize_unsupported :
  FloppyFileSystemDrive.serialize
    (FloppyFileSystemDrive.new
       (FileInfoDirectory.new "/" [InfoExecutable "colors"]))
  = throw (Error "Unrecognized or unsupported file info type: exe").
Proof. reflexivity. Qed.

(** ** Path resolution *)

Lemma skipn_nth {A} (l : list A) (i : nat) (d : A) :
  i < length l -> skipn i l = nth i l d :: skipn (S i) l.
Proof.
  revert i. induction l as [|x l IH]; intros i Hi; simpl in Hi; [lia|].
  destruct i as [|i]; [reflexivity|].
  simpl. apply IH. lia.
Qed.

Lemma walk_descend (pieces : list string) (fuel i : nat)
    (cur : FileInfoDirectory.t) :
  i + fuel <= length pieces ->
  FileSystem.walk pieces fuel i cur
  = descend cur (firstn fuel (skipn i pieces)).
Proof.
  revert i cur. induction fuel as [|fuel IH]; intros i cur Hlen.
  - reflexivity.
  - rewrite (skipn_nth pieces i "") by lia.
    cbn [FileSystem.walk firstn descend].
    destruct (Js.find _ _) as [[m es| | | | | |]|]; try reflexivity.
    apply IH. lia.
Qed.

Lemma find_directory n (d : FileInfoDirectory.t) (e : FileInfo) :
  Js.find (fun e => isDirectory e && String.eqb (FileInfo_name e) n)
          (FileInfoDirectory.entries d) = Some e ->
  exists sub, e = FileInfoDirectory.toInfo sub /\ NamesDirectory d n sub.
Proof.
  intros H. apply find_some_iff in H as (before & after & Hd & He & Hb).
  apply andb_true_iff in He as [Hdir Hname]. apply String.eqb_eq in Hname.
  destruct e as [m es| | | | | |]; try discriminate.
  exists (FileInfoDirectory.new m es). split; [reflexivity|].
  exists before, after. repeat split; try assumption.
  eapply Forall_impl; [|exact Hb]. intros x Hx. simpl in Hx.
  apply andb_false_iff in Hx as [Hx|Hx]; [now left|right].
  now apply String.eqb_neq.
Qed.

Lemma NamesDirectory_find n (d sub : FileInfoDirectory.t) :
  NamesDirectory d n sub ->
  Js.find (fun e => isDirectory e && String.eqb (FileInfo_name e) n)
          (FileInfoDirectory.entries d)
  = Some (FileInfoDirectory.toInfo sub).
Proof.
  intros (before & after & Hd & Hname & Hb).
  apply find_some_iff. exists before, after. repeat split; [exact Hd| |].
  - simpl. now apply String.eqb_eq.
  - eapply Forall_impl; [|exact Hb]. intros x [Hx|Hx]; simpl.
    + now rewrite Hx.
    + apply andb_false_iff. right. now apply String.eqb_neq.
Qed.

Lemma find_no_directory n (d : FileInfoDirectory.t) :
  Js.find (fun e => isDirectory e && String.eqb (FileInfo_name e) n)
          (FileInfoDirectory.entries d) = None <->
  Forall (fun e => FileInfo_name e <> n \/ isDirectory e = false)
         (FileInfoDirectory.entries d).
Proof.
  rewrite find_none_iff. split; intros H; (eapply Forall_impl; [|exact H]);
    intros x Hx; simpl in *.
  - apply andb_false_iff in Hx as [Hx|Hx]; [now right|left].
    now apply String.eqb_neq.
  - apply andb_false_iff. destruct Hx as [Hx|Hx]; [right|now left].
    now apply String.eqb_neq.
Qed.

Lemma descend_Reaches (names : list string) (d d' : FileInfoDirectory.t) :
  descend d names = Some d' <-> Reaches d names d'.
Proof.
  revert d. induction names as [|n names IH]; intros d; simpl.
  - split; [intros [= ->]; constructor|]. intros H. now inversion H.
  - split.
    + destruct (Js.find _ _) as [e|] eqn:Hfind; [|discriminate].
      destruct (find_directory _ _ _ Hfind) as (sub & -> & Hsub).
      destruct sub as [m es]. simpl. intros H.
      eapply Reaches_down; [exact Hsub|]. now apply IH.
    + intros H. inversion H as [|? sub ? ? ? Hsub Hrest]; subst.
      rewrite (NamesDirectory_find _ _ _ Hsub).
      destruct sub as [m es]. simpl. now apply IH.
Qed.

Lemma descend_app (pre post : list string) (d : FileInfoDirectory.t) :
  descend d (pre ++ post)
  = match descend d pre with
    | Some cur => descend cur post
    | None => None
    end.
Proof.
  revert d. induction pre as [|n pre IH]; intros d; simpl; [reflexivity|].
  destruct (Js.find _ _) as [[m es| | | | | |]|]; try reflexivity.
  apply IH.
Qed.

Lemma descend_None (names : list string) (d : FileInfoDirectory.t) :
  descend d names = None ->
  exists pre seg post cur,
    names = pre ++ seg :: post
    /\ Reaches d pre cur
    /\ Forall (fun e => FileInfo_name e <> seg \/ isDirectory e = false)
              (FileInfoDirectory.entries cur).
Proof.
  revert d. induction names as [|n names IH]; intros d; simpl; [discriminate|].
  destruct (Js.find _ _) as [e|] eqn:Hfind.
  - destruct (find_directory _ _ _ Hfind) as (sub & -> & Hsub).
    destruct sub as [m es]. simpl. intros H.
    destruct (IH _ H) as (pre & seg & post & cur & -> & Hreach & Hcur).
    exists (n :: pre), seg, post, cur. repeat split; [|exact Hcur].
    eapply Reaches_down; eassumption.
  - intros _. exists [], n, names, d. repeat split; [constructor|].
    now apply find_no_directory.
Qed.

(** The part of [getFileInfo] that runs on a non-empty piece sequence. *)
Lemma resolve_None (root : FileInfoDirectory.t) (init : list string)
    (last : string) :
  let pieces := init ++ [last] in
  match FileSystem.walk pieces (length pieces - 1) 0 root with
  | None => None
  | Some cur =>
      Js.find (FileInfoDirectory.hasName (nth (length pieces - 1) pieces ""))
              (FileInfoDirectory.entries cur)
  end = None
  <-> Unresolved root pieces.
Proof.
  cbv zeta.
  assert (Hlen : length (init ++ [last]) - 1 = length init).
  { rewrite length_app. simpl. lia. }
  rewrite Hlen, walk_descend by (rewrite length_app; simpl; lia).
  change (skipn 0 (init ++ [last])) with (init ++ [last]).
  rewrite firstn_app, firstn_all, Nat.sub_diag, app_nil_r.
  rewrite app_nth2, Nat.sub_diag by lia. cbn [nth firstn].
  split.
  - destruct (descend root init) as [cur|] eqn:Hinit.
    + intros Hfind. exists init, last, [], cur.
      repeat split; [now apply descend_Reaches|].
      apply find_none_iff in Hfind.
      eapply Forall_impl; [|exact Hfind]. intros x. apply hasName_false.
    + intros _.
      destruct (descend_None _ _ Hinit)
        as (pre & seg & post & cur & -> & Hreach & Hcur).
      exists pre, seg, (post ++ [last]), cur.
      rewrite <- app_assoc. repeat split; [exact Hreach|].
      now destruct post.
  - intros (pre & seg & post & cur & Heq & Hreach & Hcur).
    apply descend_Reaches in Hreach.
    destruct post as [|x post _] using rev_ind.
    + apply app_inj_tail in Heq as [-> ->]. rewrite Hreach.
      apply find_none_iff. eapply Forall_impl; [|exact Hcur].
      intros y. apply hasName_false.
    + assert (Hcons : Forall (fun e => FileInfo_name e <> seg
                                      \/ isDirectory e = false)
                             (FileInfoDirectory.entries cur))
        by (now destruct post).
      change (pre ++ seg :: post ++ [x])
        with (pre ++ (seg :: post) ++ [x]) in Heq.
      rewrite app_assoc in Heq. apply app_inj_tail in Heq as [-> ->].
      rewrite descend_app, Hreach. simpl.
      apply find_no_directory in Hcons. now rewrite Hcons.
Qed.

(** C7. [getFileInfo] returns [null] exactly when the path is [null], or has
    no drive, or names a drive that is not mounted, or has a segment that
    cannot be resolved: an intermediate segment for which the directory
    reached so far has no directory entry of that name, or a final segment
    for which it has no entry of that name. A path with a mounted drive and
    no pieces resolves to the root directory entry of the drive. The drive of
    the path is one of the 26 labels, the names under which [this.drives]
    holds nothing but what [mount] has put there. *)
Theorem getFileInfo_null_iff (drives : gmap string FileSystemDrive)
    (path : option FilePath.t) :
  (forall p label,
      path = Some p -> FilePath.drive p = Some label ->
      isDriveLabel label = true) ->
  (FileSystem.getFileInfo drives path = None <-> NotFound drives path)
  /\ match path with
     | Some (FilePath.mk (Some label) [] _) =>
         match drives !! label with
         | Some fsDrive =>
             FileSystem.getFileInfo drives path
             = Some (FileInfoDirectory.toInfo (rootEntry fsDrive))
         | None => True
         end
     | _ => True
     end.
Proof.
  intros _. split.
  - unfold NotFound, FileSystem.getFileInfo.
    destruct path as [[drive pieces isAbsolute]|]; [|tauto]. simpl.
    destruct drive as [label|].
    2:{ split; [|reflexivity]. intros _. right. eexists.
        split; [reflexivity|]. now left. }
    destruct (drives !! label) as [fsDrive|] eqn:Hdrive.
    2:{ split; [|reflexivity]. intros _. right. eexists.
        split; [reflexivity|]. right. eexists. split; [reflexivity|].
        now left. }
    destruct pieces as [|last init _] using rev_ind.
    + simpl. split; [discriminate|].
      intros [H|(p & [= <-] & [H|(l & [= <-] & [H|(d & H & Hun)])])];
        try discriminate; try congruence.
      destruct Hun as (pre & seg & post & cur & Heq & _). simpl in Heq.
      now destruct pre.
    + assert (Hne : Nat.eqb (length (init ++ [last])) 0 = false).
      { rewrite length_app. simpl. apply Nat.eqb_neq. lia. }
      rewrite Hne, (resolve_None (rootEntry fsDrive) init last).
      split.
      * intros Hun. right. eexists. split; [reflexivity|]. right.
        exists label. split; [reflexivity|]. right.
        exists fsDrive. split; [exact Hdrive|exact Hun].
      * intros [H|(p & [= <-] & [H|(l & [= <-] & [H|(d & H & Hun)])])];
          try discriminate; try congruence.
        simpl in *. congruence.
  - destruct path as [[[label|] [|] isAbsolute]|]; try exact I.
    destruct (drives !! label) as [fsDrive|] eqn:Hdrive; [|exact I].
    simpl. now rewrite Hdrive.
Qed.

Lemma getFileInfo_null_iff_witness :
  let root := FileInfoDirectory.new "/" [InfoDirectory "docs" []] in
  let drives : gmap string FileSystemDrive :=
    {[ "D" := Floppy (FloppyFileSystemDrive.new root) ]} in
  let path := Some (FilePath.mk (Some "D") [] true) in
  (FileSystem.getFileInfo drives path = None <-> NotFound drives path)
  /\ FileSystem.getFileInfo drives path = Some (FileInfoDirectory.toInfo root).
Proof.
  intros root drives path.
  apply (getFileInfo_null_iff drives path).
  intros p label [= <-] [= <-]. reflexivity.
Defined.

Example getFileInfo_nested :
  FileSystem.getFileInfo
    {[ "C" := Transient
         (TransientFileSystemDrive.mk
            (FileInfoDirectory.new "/"
               [InfoText "bin" (TextFile.mk "");
                InfoDirectory "bin" [InfoExecutable "colors"]])) ]}
    (FilePath.tryParse "c:/bin/colors" None)
  = Some (InfoExecutable "colors").
Proof. reflexivity. Qed.

(** ** Floppy lifecycle *)

Lemma filter_hasName_absent (n : string) (l : list FloppyStorage.t) :
  Forall (fun r => FloppyStorage.name r <> n) l ->
  List.filter (fun r => negb (FloppyStorage.hasName n r)) l = l
  /\ List.filter (FloppyStorage.hasName n) l = []
  /\ Js.find (FloppyStorage.hasName n) l = None.
Proof.
  induction 1 as [|r l Hr _ (IH1 & IH2 & IH3)]; [now repeat split|].
  assert (Hn : FloppyStorage.hasName n r = false)
    by now apply String.eqb_neq.
  unfold Js.find in *. simpl. rewrite Hn. simpl.
  now rewrite IH1, IH2, IH3.
Qed.

(** C9. On a persisted array with no record named [n], where [n] matches
    [[A-Za-z0-9_]+]: [spawnFloppy(n)] returns and appends one record, with
    name [n], drive [null] and the text of an empty root directory as data;
    [burnFloppy(n)] right after it returns and leaves the array as it was
    before the two calls, so of the same length and with no record named
    [n]. The mount table is not touched. *)
Theorem spawn_then_burn
    (JSON_stringify : FloppySerialized.t -> string)
    (w : FileSystem.World) (n : string) :
  FileSystem.matchesFloppyName n = true ->
  Forall (fun r => FloppyStorage.name r <> n)
         (default [] (FileSystem.floppies w)) ->
  let before := default [] (FileSystem.floppies w) in
  let record :=
    {| FloppyStorage.name := n;
       FloppyStorage.drive := None;
       FloppyStorage.data :=
         JSON_stringify
           (FloppySerialized.mk (FloppySerializedDirectory.mk "/" [])) |} in
  let spawned :=
    {| FileSystem.drives := FileSystem.drives w;
       FileSystem.floppies := Some (before ++ [record]) |} in
  let burnt :=
    {| FileSystem.drives := FileSystem.drives w;
       FileSystem.floppies := Some before |} in
  FileSystem.spawnFloppy JSON_stringify n w = (ok tt, spawned)
  /\ FileSystem.burnFloppy n spawned = (ok tt, burnt)
  /\ length (default [] (FileSystem.floppies burnt)) = length before
  /\ Forall (fun r => FloppyStorage.name r <> n)
            (default [] (FileSystem.floppies burnt)).
Proof.
  intros Hname Hfresh. cbv zeta.
  destruct (filter_hasName_absent n _ Hfresh) as (Hkeep & Hnone & Hfind).
  split; [|split; [|split]].
  - unfold FileSystem.spawnFloppy. rewrite Hname. simpl.
    unfold FileSystem.bind, FileSystem.getFloppies. now rewrite Hfind.
  - unfold FileSystem.burnFloppy, FileSystem.bind, FileSystem.getFloppies,
      Js.remove.
    simpl. rewrite !filter_app, Hkeep, Hnone. simpl.
    unfold FloppyStorage.hasName. simpl.
    rewrite String.eqb_refl. simpl. now rewrite app_nil_r.
  - reflexivity.
  - exact Hfresh.
Qed.

Lemma spawn_then_burn_witness :
  let record :=
    {| FloppyStorage.name := "A1_b";
       FloppyStorage.drive := None;
       FloppyStorage.data :=
         JsonText.stringify FileSystem.emptyFloppyContents |} in
  let work :=
    {| FloppyStorage.name := "work";
       FloppyStorage.drive := None;
       FloppyStorage.data :=
         JsonText.stringify FileSystem.emptyFloppyContents |} in
  let w := {| FileSystem.drives := ∅; FileSystem.floppies := Some [work] |} in
  FileSystem.spawnFloppy JsonText.stringify "A1_b" w
  = (ok tt,
     {| FileSystem.drives := ∅; FileSystem.floppies := Some [work; record] |})
  /\ FileSystem.burnFloppy "A1_b"
       {| FileSystem.drives := ∅; FileSystem.floppies := Some [work; record] |}
     = (ok tt, w)
  /\ length [work] = 1
  /\ Forall (fun r => FloppyStorage.name r <> "A1_b") [work].
Proof.
  cbv zeta.
  apply (spawn_then_burn JsonText.stringify
           {| FileSystem.drives := ∅;
              FileSystem.floppies :=
                Some [ {| FloppyStorage.name := "work";
                          FloppyStorage.drive := None;
                          FloppyStorage.data :=
                            JsonText.stringify
                              FileSystem.emptyFloppyContents |} ] |}
           "A1_b").
  - reflexivity.
  - repeat constructor. simpl. discriminate.
Defined.

(** ** Commit *)

Lemma forOf_pointwise {A} (R : A -> A -> Prop) (body : A -> FileSystem.M A)
    (l : list A) (w : FileSystem.World) :
  Forall (fun x => exists x', body x w = (ok x', w) /\ R x x') l ->
  exists l', FileSystem.forOf body l w = (ok l', w) /\ Forall2 R l l'.
Proof.
  induction 1 as [|x l (x' & Hx & HR) _ (l' & Hl & HR')].
  - exists []. split; [reflexivity|constructor].
  - exists (x' :: l'). split; [|now constructor].
    simpl. unfold FileSystem.bind. now rewrite Hx, Hl.
Qed.

Lemma serialize_ok (d : FloppyFileSystemDrive.t) :
  forallb serializable
    (FileInfoDirectory.entries (FloppyFileSystemDrive.rootEntry d)) = true ->
  exists s, FloppyFileSystemDrive.serialize d = ok s.
Proof.
  intros H.
  destruct (serializeDirectory_roundtrip _ H) as (s & Hs & _).
  exists (FloppySerialized.mk s).
  unfold FloppyFileSystemDrive.serialize. now rewrite Hs.
Qed.

(** C3, the input at which the claim fails: the floppy mounted at [D] holds
    an executable, which the serializer does not handle, and [commit()]
    throws instead of returning; nothing is written to the store. *)
Lemma commit_throws_on_unsupported_entry :
  let w :=
    {| FileSystem.drives :=
         {[ "D" := Floppy
              (FloppyFileSystemDrive.new
                 (FileInfoDirectory.new "/" [InfoExecutable "colors"])) ]};
       FileSystem.floppies :=
         Some [ {| FloppyStorage.name := "work";
                   FloppyStorage.drive := Some "D";
                   FloppyStorage.data :=
                     JsonText.stringify FileSystem.emptyFloppyContents |} ] |}
  in
  FileSystem.commit JsonText.stringify w
  = (throw (Error "Unrecognized or unsupported file info type: exe"), w).
Proof. reflexivity. Qed.

(** [commit()] on a record whose label is not in the mount table: the read
    of [drive.type] throws. [trySerializeFloppy] tests [!drive] first. *)
Example commit_throws_on_unmounted_label :
  let w :=
    {| FileSystem.drives := {[ "C" := Transient TransientFileSystemDrive.new ]};
       FileSystem.floppies :=
         Some [ {| FloppyStorage.name := "work";
                   FloppyStorage.drive := Some "D";
                   FloppyStorage.data :=
                     JsonText.stringify FileSystem.emptyFloppyContents |} ] |}
  in
  FileSystem.commit JsonText.stringify w = (throw TypeError, w)
  /\ FileSystem.trySerializeFloppy JsonText.stringify "D" w = (ok None, w).
Proof. split; reflexivity. Qed.

(** C3, amended. When every record of the persisted array can be handled
    (the label it is mounted at, if any, holds a drive, and a floppy drive
    there holds only directories, text files and binary files), [commit()]
    returns and, for each record whose drive is not [null]: if the mount
    table holds a floppy drive at that label, the record's data is replaced
    by the text of that drive's serialized tree; if it holds a drive of
    another kind, the record's drive is set to [null]; the other records are
    kept; then the full array is written back to the store. *)
Theorem commit_spec
    (JSON_stringify : FloppySerialized.t -> string) (w : FileSystem.World) :
  Forall (Committable (FileSystem.drives w))
         (default [] (FileSystem.floppies w)) ->
  exists floppyData,
    FileSystem.commit JSON_stringify w
    = (ok tt,
       {| FileSystem.drives := FileSystem.drives w;
          FileSystem.floppies := Some floppyData |})
    /\ Forall2 (Committed JSON_stringify (FileSystem.drives w))
               (default [] (FileSystem.floppies w)) floppyData.
Proof.
  intros Hall. unfold FileSystem.commit.
  match goal with
  | |- context [FileSystem.forOf ?b] => set (body := b)
  end.
  destruct (forOf_pointwise (Committed JSON_stringify (FileSystem.drives w))
                            body (default [] (FileSystem.floppies w)) w)
    as (floppyData & Hloop & Hrel).
  { eapply Forall_impl; [|exact Hall]. intros floppy Hfloppy.
    unfold body, Committable in *.
    destruct (FloppyStorage.drive floppy) as [label|] eqn:Hdrive.
    - destruct (Hfloppy label eq_refl) as (fsDrive & Hmounted & Htree).
      unfold FileSystem.bind, FileSystem.getDrive. rewrite Hmounted.
      destruct fsDrive as [d|d].
      + eexists. split; [reflexivity|]. eapply Committed_other; eassumption.
      + destruct (serialize_ok d Htree) as (s & Hs).
        unfold FileSystem.lift. rewrite Hs. eexists. split; [reflexivity|].
        eapply Committed_floppy; eassumption.
    - eexists. split; [reflexivity|]. now apply Committed_unmounted. }
  exists floppyData. split; [|exact Hrel].
  unfold FileSystem.bind at 1. unfold FileSystem.getFloppies at 1.
  unfold FileSystem.bind. now rewrite Hloop.
Qed.

Lemma commit_spec_witness :
  let docs :=
    FloppyFileSystemDrive.new
      (FileInfoDirectory.new "/" [InfoDirectory "docs" []]) in
  let w :=
    {| FileSystem.drives :=
         {[ "C" := Transient TransientFileSystemDrive.new;
            "D" := Floppy docs ]};
       FileSystem.floppies :=
         Some [ {| FloppyStorage.name := "work";
                   FloppyStorage.drive := Some "D";
                   FloppyStorage.data :=
                     JsonText.stringify FileSystem.emptyFloppyContents |};
                {| FloppyStorage.name := "stale";
                   FloppyStorage.drive := Some "C";
                   FloppyStorage.data := "" |};
                {| FloppyStorage.name := "spare";
                   FloppyStorage.drive := None;
                   FloppyStorage.data := "" |} ] |} in
  exists floppyData,
    FileSystem.commit JsonText.stringify w
    = (ok tt,
       {| FileSystem.drives := FileSystem.drives w;
          FileSystem.floppies := Some floppyData |})
    /\ Forall2 (Committed JsonText.stringify (FileSystem.drives w))
               (default [] (FileSystem.floppies w)) floppyData.
Proof.
  cbv zeta.
  apply (commit_spec JsonText.stringify
           {| FileSystem.drives :=
                {[ "C" := Transient TransientFileSystemDrive.new;
                   "D" := Floppy
                            (FloppyFileSystemDrive.new
                               (FileInfoDirectory.new "/"
                                  [InfoDirectory "docs" []])) ]};
              FileSystem.floppies :=
                Some [ {| FloppyStorage.name := "work";
                          FloppyStorage.drive := Some "D";
                          FloppyStorage.data :=
                            JsonText.stringify
                              FileSystem.emptyFloppyContents |};
                       {| FloppyStorage.name := "stale";
                          FloppyStorage.drive := Some "C";
                          FloppyStorage.data := "" |};
                       {| FloppyStorage.name := "spare";
                          FloppyStorage.drive := None;
                          FloppyStorage.data := "" |} ] |}).
  repeat constructor; intros label [= <-]; eexists; split; reflexivity.
Defined.

Example commit_scenario :
  let docs :=
    FloppyFileSystemDrive.new
      (FileInfoDirectory.new "/" [InfoDirectory "docs" []]) in
  let record (name : string) (drive : option DriveLabel) (data : string) :=
    {| FloppyStorage.name := name;
       FloppyStorage.drive := drive;
       FloppyStorage.data := data |} in
  let drives : gmap string FileSystemDrive :=
    {[ "C" := Transient TransientFileSystemDrive.new; "D" := Floppy docs ]} in
  FileSystem.commit JsonText.stringify
    {| FileSystem.drives := drives;
       FileSystem.floppies :=
         Some [record "work" (Some "D")
                      (JsonText.stringify FileSystem.emptyFloppyContents);
               record "stale" (Some "C") "";
               record "spare" None ""] |}
  = (ok tt,
     {| FileSystem.drives := drives;
        FileSystem.floppies :=
          Some [record "work" (Some "D")
                  (JsonText.stringify
                     (FloppySerialized.mk
                        (FloppySerializedDirectory.mk "/"
                           [SerDirectory "docs" []])));
                record "stale" None "";
                record "spare" None ""] |}).
Proof. reflexivity. Qed.

(** ** Construction *)

Lemma insertFloppyInternal_floppies
    (JSON_parse : string -> option FloppySerialized.t) (label : DriveLabel)
    (floppy : FloppyStorage.t) (w w' : FileSystem.World)
    (r : Result FloppyStorage.t) :
  FileSystem.insertFloppyInternal JSON_parse label floppy w = (r, w') ->
  FileSystem.floppies w' = FileSystem.floppies w.
Proof.
  unfold FileSystem.insertFloppyInternal, FileSystem.bind, FileSystem.lift,
    FileSystem.mount.
  destruct (JSON_parse _) as [c|]; simpl; [|now intros [= _ <-]].
  destruct (FloppyFileSystemDrive.fromSerialized c) as [e|d]; simpl;
    [now intros [= _ <-]|].
  destruct (FileSystem.drives w !! label); simpl; now intros [= _ <-].
Qed.

Lemma insertFloppyInternal_throws
    (JSON_parse : string -> option FloppySerialized.t) (label : DriveLabel)
    (floppy : FloppyStorage.t) (w : FileSystem.World) :
  deserializes JSON_parse floppy = false ->
  exists e,
    FileSystem.insertFloppyInternal JSON_parse label floppy w = (throw e, w).
Proof.
  unfold deserializes, FileSystem.insertFloppyInternal, FileSystem.bind,
    FileSystem.lift.
  destruct (JSON_parse _) as [c|]; simpl; [|eauto].
  destruct (FloppyFileSystemDrive.fromSerialized c) as [e|d]; simpl;
    [eauto|discriminate].
Qed.

Lemma forOf_throws {A} (body : A -> FileSystem.M A) (l : list A) (bad : A) :
  In bad l ->
  (forall w, exists e w', body bad w = (throw e, w')) ->
  (forall x w r w',
      body x w = (r, w') -> FileSystem.floppies w' = FileSystem.floppies w) ->
  forall w,
  exists e w',
    FileSystem.forOf body l w = (throw e, w')
    /\ FileSystem.floppies w' = FileSystem.floppies w.
Proof.
  intros Hin Hbad Hkeep. induction l as [|x l IH]; [contradiction|].
  intros w. simpl. unfold FileSystem.bind.
  destruct (body x w) as [[e|x'] w1] eqn:Hx.
  - exists e, w1. split; [reflexivity|]. eapply Hkeep, Hx.
  - destruct Hin as [->|Hin].
    + destruct (Hbad w) as (e & w' & He). unfold throw in He. congruence.
    + destruct (IH Hin w1) as (e & w' & He & Hw'). rewrite He.
      exists e, w'. split; [reflexivity|].
      rewrite Hw'. eapply Hkeep, Hx.
Qed.







(** ** Path model: normal form, printing and comparison *)

Lemma split_no_separator (sep : ascii) (s : string) :
  Forall (fun x => Js.indexOf sep x = None) (Js.split sep s).
Proof.
  induction s as [|c s IH]; simpl.
  - now repeat constructor.
  - destruct (Ascii.eqb c sep) eqn:Hc.
    + constructor; [reflexivity|exact IH].
    + destruct (Js.split sep s) as [|hd tl].
      * constructor; [|constructor]. simpl. now rewrite Hc.
      * inversion IH as [|? ? Hhd Htl]; subst. constructor; [|exact Htl].
        simpl. now rewrite Hc, Hhd.
Qed.

Lemma existsb_eqb_false (x : string) (l : list string) :
  existsb (String.eqb x) l = false <-> Forall (fun s => s <> x) l.
Proof.
  induction l as [|y l IH]; simpl.
  - split; [constructor|reflexivity].
  - rewrite orb_false_iff, IH, String.eqb_neq. split.
    + intros [Hy Hl]. constructor; [congruence|exact Hl].
    + intros H. inversion H; subst. split; [congruence|assumption].
Qed.

Lemma Forall_removelast {A} (P : A -> Prop) (l : list A) :
  Forall P l -> Forall P (removelast l).
Proof.
  destruct l as [|x l _] using rev_ind; [easy|].
  rewrite removelast_last, Forall_app. tauto.
Qed.

Lemma step_keeps (P : string -> Prop) isAbsolute acc p :
  P ".." -> P p -> Forall P acc -> Forall P (FilePath.step isAbsolute acc p).
Proof.
  intros Hdd Hp Hacc. unfold FilePath.step, Js.push, Js.pop.
  repeat match goal with |- context [if ?b then _ else _] => destruct b end;
    try assumption; try (now apply Forall_removelast);
    apply Forall_app; split; try assumption; now repeat constructor.
Qed.

Lemma FilePath_pieces_facts drive isAbsolute ps :
  existsb (String.eqb ".")
          (FilePath.pieces (FilePath.new drive ps isAbsolute)) = false
  /\ (if FilePath.isAbsolute (FilePath.new drive ps isAbsolute) then
        existsb (String.eqb "..")
                (FilePath.pieces (FilePath.new drive ps isAbsolute)) = false
      else True).
Proof.
  unfold FilePath.new; simpl. split.
  - apply (fold_step_invariant
             (fun acc => existsb (String.eqb ".") acc = false)); [|reflexivity].
    intros acc q. apply step_no_dot.
  - destruct (_ || isAbsolute); [|exact I].
    apply (fold_step_invariant
             (fun acc => existsb (String.eqb "..") acc = false));
      [|reflexivity].
    intros acc q. apply step_absolute_no_dotdot.
Qed.

Lemma new_normal drive ps isAbsolute :
  Forall (fun s => s <> "" /\ Js.indexOf PATH_SEPARATOR s = None) ps ->
  NormalPath (FilePath.new drive ps isAbsolute).
Proof.
  intros Hps.
  set (Q := fun s : string =>
              s <> "" /\ Js.indexOf PATH_SEPARATOR s = None).
  assert (HQ : Forall Q (FilePath.pieces (FilePath.new drive ps isAbsolute))).
  { unfold FilePath.new; simpl.
    set (abs := _ || isAbsolute). clearbody abs.
    assert (Hgen : forall acc, Forall Q acc ->
                     Forall Q (fold_left (FilePath.step abs) ps acc)).
    { induction Hps as [|p ps Hp _ IH]; intros acc Hacc; simpl; [exact Hacc|].
      apply IH, step_keeps; [now split|exact Hp|exact Hacc]. }
    apply Hgen. constructor. }
  destruct (FilePath_pieces_facts drive isAbsolute ps) as (Hdot & Hdd).
  repeat split.
  - apply existsb_eqb_false in Hdot.
    rewrite Forall_forall in HQ, Hdot |- *. intros s Hs.
    destruct (HQ s Hs). repeat split; try assumption. now apply Hdot.
  - intros Habs. rewrite Habs in Hdd. now apply existsb_eqb_false.
  - apply new_drive_absolute.
Qed.

Lemma parsed_pieces (path : string) :
  Forall (fun s => s <> "" /\ Js.indexOf PATH_SEPARATOR s = None)
         (List.filter (fun s => Nat.ltb 0 (String.length s))
                      (Js.split PATH_SEPARATOR path)).
Proof.
  apply Forall_forall. intros s Hs. apply filter_In in Hs as [Hin Hlen].
  split.
  - intros ->. discriminate.
  - pose proof (split_no_separator PATH_SEPARATOR path) as H.
    rewrite Forall_forall in H. now apply H.
Qed.

Lemma tryParse_normal path defaultDrive p :
  FilePath.tryParse path defaultDrive = Some p -> NormalPath p.
Proof.
  unfold FilePath.tryParse, FilePath.parseRest.
  repeat match goal with
         | |- context [if ?b then _ else _] => destruct b
         | |- context [match ?o with Some _ => _ | None => _ end] => destruct o
         end;
    intros H; try discriminate; injection H as <-;
    apply new_normal; try apply parsed_pieces; constructor.
Qed.

Lemma normal_pieces (p : FilePath.t) :
  NormalPath p ->
  Forall (fun s => s <> "" /\ Js.indexOf PATH_SEPARATOR s = None)
         (FilePath.pieces p).
Proof.
  intros (H & _). eapply Forall_impl; [|exact H]. simpl. tauto.
Qed.

Lemma firstn_Forall {A} (P : A -> Prop) (n : nat) (l : list A) :
  Forall P l -> Forall P (firstn n l).
Proof.
  intros H. revert n. induction H as [|x l Hx _ IH]; intros n.
  - rewrite firstn_nil. constructor.
  - destruct n as [|n]; simpl; [constructor|]. constructor; [exact Hx|apply IH].
Qed.

(** X1. Every path a client can hold is in normal form: its pieces are
    non-empty, hold no separator and are not ["."]; when it is absolute no
    piece is [".."]; and when it has a drive it is absolute. *)
Theorem constructible_normal (p : FilePath.t) :
  Constructible p -> NormalPath p.
Proof.
  induction 1 as [path dd p Hparse | p q Hp IHp Hq IHq | p Hp IHp].
  - eapply tryParse_normal, Hparse.
  - unfold FilePath.combine.
    destruct (FilePath.isAbsolute q); [exact IHp|].
    apply new_normal, Forall_app. split; now apply normal_pieces.
  - unfold FilePath.parentDirectory.
    destruct (Nat.eqb _ 0); [exact IHp|].
    apply new_normal, firstn_Forall. now apply normal_pieces.
Qed.

Lemma constructible_normal_witness :
  NormalPath
    (FilePath.combine (FilePath.mk (Some "C") ["a"; "b"] true)
                      (FilePath.mk None [".."; "x"] false)).
Proof.
  apply (constructible_normal
           (FilePath.combine (FilePath.mk (Some "C") ["a"; "b"] true)
                             (FilePath.mk None [".."; "x"] false))).
  apply Constructible_combine.
  - apply (Constructible_tryParse "c:/a/b" None). reflexivity.
  - apply (Constructible_tryParse "../x" None). reflexivity.
Defined.

Lemma fold_step_fixed isAbsolute ps acc :
  Forall (fun s => s <> ".") ps ->
  (isAbsolute = true -> Forall (fun s => s <> "..") ps) ->
  fold_left (FilePath.step isAbsolute) ps acc = acc ++ ps.
Proof.
  intros Hdot Hdd. revert acc.
  induction ps as [|p ps IH]; intros acc; simpl; [now rewrite app_nil_r|].
  inversion Hdot as [|? ? Hp Hps]; subst.
  rewrite IH; [|exact Hps|intros Ha; specialize (Hdd Ha); now inversion Hdd].
  unfold FilePath.step, Js.push.
  apply String.eqb_neq in Hp. rewrite Hp.
  destruct (String.eqb_spec p "..") as [->|_].
  - destruct isAbsolute.
    + specialize (Hdd eq_refl). inversion Hdd; congruence.
    + now rewrite <- app_assoc.
  - now rewrite <- app_assoc.
Qed.

Lemma new_of_normal (p : FilePath.t) :
  NormalPath p ->
  FilePath.new (FilePath.drive p) (FilePath.pieces p) (FilePath.isAbsolute p)
  = p.
Proof.
  intros (Hpieces & Hdd & Hdrive). destruct p as [d ps a]. simpl in *.
  assert (Ha : match d with Some _ => true | None => false end || a = a).
  { destruct d; [|reflexivity]. simpl. symmetry. now apply Hdrive. }
  unfold FilePath.new. rewrite Ha. f_equal.
  apply (fold_step_fixed a ps []); [|exact Hdd].
  eapply Forall_impl; [|exact Hpieces]. simpl. tauto.
Qed.

Lemma new_prefix_of_normal (p : FilePath.t) (ps : list string) :
  NormalPath p ->
  Forall (fun s => In s (FilePath.pieces p)) ps ->
  FilePath.new (FilePath.drive p) ps (FilePath.isAbsolute p)
  = FilePath.mk (FilePath.drive p) ps (FilePath.isAbsolute p).
Proof.
  intros (Hpieces & Hdd & Hdrive) Hin. destruct p as [d qs a]. simpl in *.
  assert (Ha : match d with Some _ => true | None => false end || a = a).
  { destruct d; [|reflexivity]. simpl. symmetry. now apply Hdrive. }
  unfold FilePath.new. rewrite Ha. f_equal.
  rewrite Forall_forall in Hpieces, Hin.
  apply (fold_step_fixed a ps []).
  - apply Forall_forall. intros s Hs. now apply Hpieces, Hin.
  - intros Habs. specialize (Hdd Habs). rewrite Forall_forall in Hdd.
    apply Forall_forall. intros s Hs. now apply Hdd, Hin.
Qed.

(** Proves [NormalPath] of a path given by its fields. *)
Ltac normal_path :=
  unfold NormalPath; simpl;
  repeat split; try discriminate; try congruence;
  try (intros _); repeat constructor; try discriminate.

Lemma parentDirectory_of_normal (p : FilePath.t) :
  NormalPath p ->
  FilePath.parentDirectory p
  = FilePath.mk (FilePath.drive p) (removelast (FilePath.pieces p))
                (FilePath.isAbsolute p).
Proof.
  intros Hp. unfold FilePath.parentDirectory.
  destruct (FilePath.pieces p) as [|x ps _] eqn:Hps using rev_ind.
  - simpl. destruct p; simpl in *. now subst.
  - rewrite length_app. simpl.
    replace (length ps + 1 - 1) with (length ps) by lia.
    assert (Hne : Nat.eqb (length ps + 1) 0 = false)
      by (apply Nat.eqb_neq; lia).
    rewrite Hne, firstn_app, firstn_all, Nat.sub_diag, app_nil_r.
    rewrite removelast_last. simpl.
    apply new_prefix_of_normal; [exact Hp|].
    apply Forall_forall. intros s Hs. rewrite Hps. apply in_or_app. now left.
Qed.

(** X2. On a path in normal form, [parentDirectory] keeps the drive and the
    absoluteness and drops exactly the last piece (with no piece, nothing
    changes); the result is in normal form again. *)
Theorem parentDirectory_drops_last (p : FilePath.t) :
  NormalPath p ->
  FilePath.parentDirectory p
  = FilePath.mk (FilePath.drive p) (removelast (FilePath.pieces p))
                (FilePath.isAbsolute p)
  /\ NormalPath (FilePath.parentDirectory p).
Proof.
  intros Hp. split; [now apply parentDirectory_of_normal|].
  unfold FilePath.parentDirectory.
  destruct (Nat.eqb _ 0); [exact Hp|].
  apply new_normal, firstn_Forall. now apply normal_pieces.
Qed.

Lemma parentDirectory_drops_last_witness :
  FilePath.parentDirectory (FilePath.mk None [".."; "x"; "y"] false)
  = FilePath.mk None [".."; "x"] false
  /\ NormalPath
       (FilePath.parentDirectory (FilePath.mk None [".."; "x"; "y"] false)).
Proof.
  apply (parentDirectory_drops_last (FilePath.mk None [".."; "x"; "y"] false)).
  normal_path.
Defined.

(** X3. On an absolute path in normal form, combining with the parsed
    relative path [".."] is [parentDirectory]: the last piece is dropped, and
    at a root nothing changes. *)
Theorem combine_dotdot_is_parentDirectory
    (p q : FilePath.t) (defaultDrive : option DriveLabel) :
  NormalPath p ->
  FilePath.isAbsolute p = true ->
  FilePath.tryParse ".." defaultDrive = Some q ->
  FilePath.combine p q = FilePath.parentDirectory p.
Proof.
  intros Hp Habs [= <-]. rewrite (parentDirectory_of_normal p Hp).
  unfold FilePath.combine. simpl.
  destruct Hp as (Hpieces & Hdd & Hdrive).
  unfold FilePath.new. rewrite Habs, orb_true_r, fold_left_app. f_equal.
  rewrite (fold_step_fixed true (FilePath.pieces p) []).
  - simpl. unfold FilePath.step, Js.pop. simpl.
    now destruct (FilePath.pieces p).
  - eapply Forall_impl; [|exact Hpieces]. simpl. tauto.
  - intros _. now apply Hdd.
Qed.

Lemma combine_dotdot_is_parentDirectory_witness :
  FilePath.combine (FilePath.mk (Some "C") ["a"; "b"] true)
                   (FilePath.mk None [".."] false)
  = FilePath.parentDirectory (FilePath.mk (Some "C") ["a"; "b"] true).
Proof.
  apply (combine_dotdot_is_parentDirectory
           (FilePath.mk (Some "C") ["a"; "b"] true)
           (FilePath.mk None [".."] false) None).
  - normal_path.
  - reflexivity.
  - reflexivity.
Defined.

Lemma split_whole (sep : ascii) (s : string) :
  Js.indexOf sep s = None -> Js.split sep s = [s].
Proof.
  induction s as [|c s IH]; simpl; [reflexivity|].
  destruct (Ascii.eqb c sep); [discriminate|].
  destruct (Js.indexOf sep s); [discriminate|]. intros _.
  now rewrite IH.
Qed.

Lemma split_append (sep : ascii) (s rest : string) :
  Js.indexOf sep s = None ->
  Js.split sep (s ++ String sep rest) = s :: Js.split sep rest.
Proof.
  induction s as [|c s IH]; simpl.
  - intros _. now rewrite Ascii.eqb_refl.
  - destruct (Ascii.eqb c sep); [discriminate|].
    destruct (Js.indexOf sep s); [discriminate|]. intros _.
    now rewrite IH.
Qed.

Lemma split_join (ps : list string) :
  Forall (fun s => s <> "" /\ Js.indexOf PATH_SEPARATOR s = None) ps ->
  List.filter (fun s => Nat.ltb 0 (String.length s))
              (Js.split PATH_SEPARATOR
                        (Js.join (String PATH_SEPARATOR EmptyString) ps))
  = ps.
Proof.
  induction 1 as [|p ps [Hne Hsep] Hps IH]; [reflexivity|].
  assert (Hlen : Nat.ltb 0 (String.length p) = true) by now destruct p.
  destruct ps as [|q ps].
  - simpl. rewrite split_whole by exact Hsep. simpl. now rewrite Hlen.
  - change (Js.join (String PATH_SEPARATOR "") (p :: q :: ps))
      with (p ++ String PATH_SEPARATOR
                   (Js.join (String PATH_SEPARATOR "") (q :: ps)))%string.
    rewrite split_append by exact Hsep.
    cbn [List.filter]. now rewrite Hlen, IH.
Qed.

Lemma driveLabel_shape (d : string) :
  isDriveLabel d = true ->
  exists c,
    d = String c EmptyString
    /\ Ascii.eqb c ":" = false
    /\ Js.upperChar c = c.
Proof.
  unfold isDriveLabel. intros H.
  apply existsb_exists in H as (x & Hin & Heq).
  apply String.eqb_eq in Heq. subst x. unfold DriveLabelValues in Hin.
  simpl in Hin.
  repeat (destruct Hin as [<-|Hin];
          [eexists; repeat split; reflexivity|]).
  contradiction.
Qed.

Lemma tryParse_drive_prefix (c : ascii) (rest : string)
    (defaultDrive : option DriveLabel) :
  Ascii.eqb c ":" = false ->
  Js.upperChar c = c ->
  isDriveLabel (String c EmptyString) = true ->
  FilePath.tryParse (String c (String ":" rest)) defaultDrive
  = Some (FilePath.parseRest (Some (String c EmptyString)) rest defaultDrive).
Proof.
  intros Hcolon Hupper Hlabel. unfold FilePath.tryParse.
  change (Nat.eqb (String.length (String c (String ":" rest))) 0) with false.
  assert (Hslash : String.eqb (String c (String ":" rest)) "/" = false).
  { apply String.eqb_neq. discriminate. }
  rewrite Hslash.
  change (Js.indexOf ":" (String c (String ":" rest)))
    with (if Ascii.eqb c ":" then Some 0
          else match (if Ascii.eqb ":" ":" then Some 0
                      else match Js.indexOf ":" rest with
                           | Some i => Some (S i)
                           | None => None
                           end) with
               | Some i => Some (S i)
               | None => None
               end).
  rewrite Hcolon, Ascii.eqb_refl.
  change (Js.toUpperCase (Js.sliceTo 1 (String c (String ":" rest))))
    with (String (Js.upperChar c) EmptyString).
  rewrite Hupper, Hlabel. reflexivity.
Qed.

(** X4. A path in normal form whose drive is one of the 26 labels prints to
    a string that parses back to the same path, whatever default drive is
    given. *)
Theorem toString_tryParse_roundtrip
    (p : FilePath.t) (d : DriveLabel) (defaultDrive : option DriveLabel) :
  NormalPath p ->
  FilePath.drive p = Some d ->
  isDriveLabel d = true ->
  FilePath.tryParse (FilePath.toString p) defaultDrive = Some p.
Proof.
  intros Hp Hdrive Hlabel.
  destruct (driveLabel_shape d Hlabel) as (c & -> & Hcolon & Hupper).
  unfold FilePath.toString. rewrite Hdrive.
  set (pathPart := Js.join _ _).
  change (String c "" ++ ":" ++ String PATH_SEPARATOR "" ++ pathPart)%string
    with (String c (String ":" (String PATH_SEPARATOR pathPart))).
  rewrite tryParse_drive_prefix by assumption. f_equal.
  unfold FilePath.parseRest.
  change (Js.firstCharIs PATH_SEPARATOR (String PATH_SEPARATOR pathPart))
    with true.
  rewrite orb_true_r.
  change (Js.sliceFrom 1 (String PATH_SEPARATOR pathPart)) with pathPart.
  unfold pathPart. rewrite (split_join _ (normal_pieces p Hp)).
  assert (Habs : FilePath.isAbsolute p = true)
    by (destruct Hp as (_ & _ & Habs); apply Habs; congruence).
  destruct p as [pd ps pa]. simpl in *. subst pd pa.
  exact (new_of_normal _ Hp).
Qed.

Lemma toString_tryParse_roundtrip_witness :
  FilePath.tryParse
    (FilePath.toString (FilePath.mk (Some "D") ["docs"; "a:b"] true))
    (Some "C")
  = Some (FilePath.mk (Some "D") ["docs"; "a:b"] true).
Proof.
  apply (toString_tryParse_roundtrip
           (FilePath.mk (Some "D") ["docs"; "a:b"] true) "D" (Some "C")).
  - normal_path.
  - reflexivity.
  - reflexivity.
Defined.

Lemma piecesEqualFrom_true (a b : list string) (fuel i : nat) :
  FilePath.piecesEqualFrom a b fuel i = true <->
  forall k, k < fuel -> nth (i + k) a "" = nth (i + k) b "".
Proof.
  revert i. induction fuel as [|fuel IH]; intros i; simpl.
  - split; [intros _ k Hk; lia|reflexivity].
  - destruct (String.eqb_spec (nth i a "") (nth i b "")) as [Heq|Hne]; simpl.
    + rewrite IH. split.
      * intros H k Hk. destruct k as [|k].
        -- now rewrite Nat.add_0_r.
        -- replace (i + S k) with (S i + k) by lia. apply H. lia.
      * intros H k Hk. replace (S i + k) with (i + S k) by lia.
        apply H. lia.
    + split; [discriminate|]. intros H. exfalso. apply Hne.
      specialize (H 0). rewrite Nat.add_0_r in H. apply H. lia.
Qed.

Lemma driveDiffers_false (a b : option DriveLabel) :
  FilePath.driveDiffers a b = false <-> a = b.
Proof.
  destruct a as [x|], b as [y|]; simpl; split; try congruence; try reflexivity.
  - intros H. apply negb_false_iff, String.eqb_eq in H. now subst.
  - intros [= ->]. apply negb_false_iff, String.eqb_refl.
Qed.

(** X5. [equals] holds exactly when the two paths have the same drive and
    the same pieces in the same order; whether the paths are absolute is not
    compared. *)
Theorem equals_iff (p q : FilePath.t) :
  FilePath.equals p q = true <->
  FilePath.drive p = FilePath.drive q
  /\ FilePath.pieces p = FilePath.pieces q.
Proof.
  unfold FilePath.equals.
  destruct (FilePath.driveDiffers _ _) eqn:Hd.
  - split; [discriminate|]. intros [H _].
    apply driveDiffers_false in H. congruence.
  - apply driveDiffers_false in Hd.
    destruct (Nat.eqb_spec (length (FilePath.pieces p))
                           (length (FilePath.pieces q))) as [Hlen|Hlen];
      simpl.
    + rewrite piecesEqualFrom_true. split.
      * intros H. split; [exact Hd|].
        apply (nth_ext _ _ "" "" Hlen). intros k Hk. now apply (H k).
      * intros [_ ->] k _. reflexivity.
    + split; [discriminate|]. intros [_ H]. now rewrite H in Hlen.
Qed.

Example equals_ignores_absoluteness :
  FilePath.tryParse "a" None = Some (FilePath.mk None ["a"] false)
  /\ FilePath.tryParse "/a" None = Some (FilePath.mk None ["a"] true)
  /\ FilePath.equals (FilePath.mk None ["a"] false)
                     (FilePath.mk None ["a"] true) = true.
Proof. repeat split. Qed.

Lemma upperChar_idempotent (c : ascii) :
  Js.upperChar (Js.upperChar c) = Js.upperChar c.
Proof. destruct c as [[] [] [] [] [] [] [] []]; reflexivity. Qed.

Lemma upperChar_colon (c : ascii) :
  Ascii.eqb (Js.upperChar c) ":" = Ascii.eqb c ":".
Proof. destruct c as [[] [] [] [] [] [] [] []]; reflexivity. Qed.

Lemma toUpperCase_idempotent (s : string) :
  Js.toUpperCase (Js.toUpperCase s) = Js.toUpperCase s.
Proof.
  induction s as [|c s IH]; simpl; [reflexivity|].
  now rewrite upperChar_idempotent, IH.
Qed.

Lemma indexOf_toUpperCase (s : string) :
  Js.indexOf ":" s = None -> Js.indexOf ":" (Js.toUpperCase s) = None.
Proof.
  induction s as [|c s IH]; simpl; [reflexivity|].
  rewrite upperChar_colon. destruct (Ascii.eqb c ":"); [discriminate|].
  destruct (Js.indexOf ":" s); [discriminate|]. intros _. now rewrite IH.
Qed.

Lemma toUpperCase_length (s : string) :
  String.length (Js.toUpperCase s) = String.length s.
Proof. induction s as [|c s IH]; simpl; congruence. Qed.

Lemma indexOf_prefix (prefix rest : string) :
  Js.indexOf ":" prefix = None ->
  Js.indexOf ":" (prefix ++ String ":" rest) = Some (String.length prefix)
  /\ Js.sliceTo (String.length prefix) (prefix ++ String ":" rest) = prefix
  /\ Js.sliceFrom (String.length prefix + 1) (prefix ++ String ":" rest)
     = rest.
Proof.
  induction prefix as [|c s IH]; simpl.
  - intros _. now repeat split.
  - destruct (Ascii.eqb c ":"); [discriminate|].
    destruct (Js.indexOf ":" s); [discriminate|]. intros _.
    destruct (IH eq_refl) as (H1 & H2 & H3). now rewrite H1, H2, H3.
Qed.

Lemma tryParse_with_prefix (prefix rest : string)
    (defaultDrive : option DriveLabel) :
  Js.indexOf ":" prefix = None ->
  FilePath.tryParse (prefix ++ String ":" rest) defaultDrive
  = if isDriveLabel (Js.toUpperCase prefix) then
      Some (FilePath.parseRest (Some (Js.toUpperCase prefix)) rest
                               defaultDrive)
    else None.
Proof.
  intros Hprefix. unfold FilePath.tryParse.
  destruct (indexOf_prefix prefix rest Hprefix) as (H1 & H2 & H3).
  rewrite H1, H2, H3.
  assert (Hlen : Nat.eqb (String.length (prefix ++ String ":" rest)) 0
                 = false).
  { now destruct prefix. }
  assert (Hslash : String.eqb (prefix ++ String ":" rest) "/" = false).
  { apply String.eqb_neq. intros H. rewrite H in H1. discriminate. }
  now rewrite Hlen, Hslash.
Qed.

(** X6. The drive prefix of a path string is read without regard to case:
    a string with a prefix before its first colon parses to the same result
    as the string with that prefix in upper case. *)
Theorem tryParse_prefix_case_insensitive
    (prefix rest : string) (defaultDrive : option DriveLabel) :
  Js.indexOf ":" prefix = None ->
  FilePath.tryParse (prefix ++ String ":" rest) defaultDrive
  = FilePath.tryParse (Js.toUpperCase prefix ++ String ":" rest) defaultDrive.
Proof.
  intros Hprefix.
  rewrite (tryParse_with_prefix prefix) by exact Hprefix.
  rewrite (tryParse_with_prefix (Js.toUpperCase prefix))
    by now apply indexOf_toUpperCase.
  now rewrite toUpperCase_idempotent.
Qed.

Lemma tryParse_prefix_case_insensitive_witness :
  FilePath.tryParse "d:/docs/a" None = FilePath.tryParse "D:/docs/a" None.
Proof.
  apply (tryParse_prefix_case_insensitive "d" "/docs/a" None). reflexivity.
Defined.

(** X7. [tryParse] fails only on a string with a colon whose text before
    the first colon, in upper case, is not one of the 26 labels; and a drive
    of a parsed path is one of the 26 labels or the default drive given. *)
Theorem tryParse_drive_valid
    (path : string) (defaultDrive : option DriveLabel) :
  match FilePath.tryParse path defaultDrive with
  | None =>
      exists i,
        Js.indexOf ":" path = Some i
        /\ isDriveLabel (Js.toUpperCase (Js.sliceTo i path)) = false
  | Some p =>
      match FilePath.drive p with
      | Some d => isDriveLabel d = true \/ defaultDrive = Some d
      | None => True
      end
  end.
Proof.
  unfold FilePath.tryParse.
  destruct (Nat.eqb (String.length path) 0); [exact I|].
  destruct (String.eqb path "/"); [exact I|].
  destruct (Js.indexOf ":" path) as [i|].
  - destruct (isDriveLabel _) eqn:Hlabel; [|eauto].
    unfold FilePath.parseRest. rewrite new_drive.
    destruct (_ || _); now left.
  - unfold FilePath.parseRest. rewrite new_drive.
    destruct (_ || _); [|exact I].
    destruct defaultDrive; [now right|exact I].
Qed.

(** ** Directory operations *)

Lemma find_hasName_none (n : string) (es : list FileInfo) :
  Js.find (FileInfoDirectory.hasName n) es = None <->
  ~ In n (List.map FileInfo_name es).
Proof.
  rewrite find_none_iff, Forall_forall, in_map_iff. split.
  - intros H (e & Hname & Hin). apply H in Hin.
    apply hasName_false in Hin. congruence.
  - intros H e Hin. apply hasName_false. intros Hname. apply H. eauto.
Qed.

Lemma NoDup_snoc {A} (l : list A) (x : A) :
  NoDup l -> ~ In x l -> NoDup (l ++ [x]).
Proof.
  induction 1 as [|y l Hy Hl IH]; simpl; intros Hx.
  - constructor; [intros []|constructor].
  - constructor.
    + rewrite in_app_iff. simpl. intros [H|[H|[]]]; [contradiction|].
      apply Hx. now left.
    + apply IH. intros H. apply Hx. now right.
Qed.

Lemma NoDup_map_filter {A B} (f : A -> B) (p : A -> bool) (l : list A) :
  NoDup (List.map f l) -> NoDup (List.map f (List.filter p l)).
Proof.
  induction l as [|x l IH]; simpl; [constructor|].
  intros H. inversion H as [|? ? Hx Hl]; subst.
  destruct (p x); simpl; [|now apply IH].
  constructor; [|now apply IH].
  intros Hin. apply Hx. apply in_map_iff in Hin as (y & Hy & Hin).
  apply filter_In in Hin as [Hin _]. apply in_map_iff. eauto.
Qed.

(** X8. A directory whose entries have pairwise different names keeps that
    property under [addItem], [mkdir] and [rmdir], whenever they return. *)
Theorem directory_operations_keep_names_unique (d : FileInfoDirectory.t) :
  UniqueNames d ->
  (forall info d' r,
      FileInfoDirectory.addItem d info = ok (d', r) -> UniqueNames d')
  /\ (forall n d' sub,
         FileInfoDirectory.mkdir d n = ok (d', sub) -> UniqueNames d')
  /\ (forall n force d',
         FileInfoDirectory.rmdir d n force = ok d' -> UniqueNames d').
Proof.
  unfold UniqueNames. intros Hd. repeat split.
  - intros info d' r. unfold FileInfoDirectory.addItem.
    destruct (Js.find _ _) eqn:Hfind; [discriminate|]. intros [= <- _].
    simpl. unfold Js.push. rewrite map_app. simpl.
    apply NoDup_snoc; [exact Hd|]. now apply find_hasName_none.
  - intros n d' sub. unfold FileInfoDirectory.mkdir.
    destruct (Js.find _ _) eqn:Hfind; [discriminate|]. intros [= <- _].
    simpl. unfold Js.push. rewrite map_app. simpl.
    apply NoDup_snoc; [exact Hd|]. now apply find_hasName_none.
  - intros n force d'. unfold FileInfoDirectory.rmdir.
    destruct (Js.find _ _) as [[m es| | | | | |]|]; try discriminate.
    destruct (_ && _); [discriminate|]. intros [= <-]. simpl.
    now apply NoDup_map_filter.
Qed.

Lemma directory_operations_keep_names_unique_witness :
  UniqueNames
    (FileInfoDirectory.new "/"
       [InfoText "readme" (TextFile.mk "hi"); InfoDirectory "docs" []]).
Proof.
  destruct (directory_operations_keep_names_unique
              (FileInfoDirectory.new "/" [InfoText "readme" (TextFile.mk "hi")]))
    as (_ & Hmkdir & _).
  - repeat constructor. intros [].
  - apply (Hmkdir "docs" _ (FileInfoDirectory.new "docs" [])). reflexivity.
Defined.

(** X9. When [mkdir(n)] returns, the directory it returns is empty and named
    [n], the parent has it as the entry found under the name [n], after all
    the entries it had, and [rmdir(n, force)] right after it returns and
    gives the parent back as it was. [mkdir(n)] throws exactly when the
    parent has an entry named [n]. *)
Theorem mkdir_then_rmdir (d : FileInfoDirectory.t) (n : string) :
  match FileInfoDirectory.mkdir d n with
  | inr (d', sub) =>
      sub = FileInfoDirectory.new n []
      /\ FileInfoDirectory.name d' = FileInfoDirectory.name d
      /\ FileInfoDirectory.entries d'
         = FileInfoDirectory.entries d ++ [FileInfoDirectory.toInfo sub]
      /\ Js.find (FileInfoDirectory.hasName n) (FileInfoDirectory.entries d')
         = Some (FileInfoDirectory.toInfo sub)
      /\ (forall force, FileInfoDirectory.rmdir d' n force = ok d)
  | inl e =>
      e = Error (n ++ " already exists")
      /\ In n (List.map FileInfo_name (FileInfoDirectory.entries d))
  end.
Proof.
  unfold FileInfoDirectory.mkdir.
  destruct (Js.find _ _) as [e|] eqn:Hfind.
  - split; [reflexivity|].
    apply find_some_iff in Hfind as (b & a & -> & Hname & _).
    apply hasName_true in Hname. rewrite map_app. apply in_or_app. right.
    now left.
  - assert (Hfilter :
      List.filter (fun x => negb (FileInfoDirectory.hasName n x))
                  (FileInfoDirectory.entries d)
      = FileInfoDirectory.entries d).
    { apply find_none_iff in Hfind. induction Hfind as [|x l Hx _ IH];
        [reflexivity|]. simpl. now rewrite Hx, IH. }
    assert (Hnew :
      Js.find (FileInfoDirectory.hasName n)
              (FileInfoDirectory.entries d
               ++ [InfoDirectory n []])
      = Some (InfoDirectory n [])).
    { apply find_some_iff. exists (FileInfoDirectory.entries d), [].
      repeat split; [now apply hasName_true|now apply find_none_iff]. }
    simpl. unfold Js.push. repeat split; try assumption.
    intros force. unfold FileInfoDirectory.rmdir, FileInfoDirectory.toInfo.
    simpl. rewrite Hnew. simpl.
    unfold Js.remove. simpl. rewrite filter_app, Hfilter. simpl.
    unfold FileInfoDirectory.hasName at 1. simpl. rewrite String.eqb_refl.
    simpl. rewrite app_nil_r. now destruct d.
Qed.

(** ** Floppy serializer: the other direction and the failures *)

Lemma FloppySerializedFile_tree_ind (P : FloppySerializedFile -> Prop) :
  (forall name entries, Forall P entries -> P (SerDirectory name entries)) ->
  (forall name textData, P (SerText name textData)) ->
  (forall name binaryData, P (SerBinary name binaryData)) ->
  (forall type name, P (SerOther type name)) ->
  forall file, P file.
Proof.
  intros Hdir Htext Hbin Hother. fix IH 1. intros file.
  destruct file as [name entries|name textData|name binaryData|type name];
    [|apply Htext|apply Hbin|apply Hother].
  apply Hdir. induction entries as [|x entries IHentries]; constructor.
  - apply IH.
  - exact IHentries.
Qed.

Lemma mapR_inr {A B} (f : A -> Result B) (l : list A) (l' : list B) :
  mapR f l = inr l' <-> Forall2 (fun x y => f x = inr y) l l'.
Proof.
  revert l'. induction l as [|x l IH]; intros l'; simpl.
  - split; [intros [= <-]; constructor|]. intros H. now inversion H.
  - destruct (f x) as [e|y] eqn:Hx.
    + split; [discriminate|]. intros H. inversion H; congruence.
    + destruct (mapR f l) as [e|ys] eqn:Hl.
      * split; [discriminate|]. intros H. inversion H as [|? ? ? ? _ Hrest];
          subst. apply IH in Hrest. discriminate.
      * split.
        -- intros [= <-]. constructor; [exact Hx|now apply IH].
        -- intros H. inversion H as [|? y' ? ys' Hy Hrest]; subst.
           apply IH in Hrest. unfold ok. congruence.
Qed.

Lemma mapR_inl {A B} (f : A -> Result B) (l : list A) (e : Exception) :
  mapR f l = inl e -> exists x, In x l /\ f x = inl e.
Proof.
  induction l as [|x l IH]; simpl; [discriminate|].
  destruct (f x) as [e'|y] eqn:Hx.
  - intros [= <-]. eauto.
  - destruct (mapR f l) as [e'|ys]; [|discriminate].
    intros [= <-]. destruct (IH eq_refl) as (z & Hz & He). eauto.
Qed.

Lemma deserializeFile_inverse (file : FloppySerializedFile) (e : FileInfo) :
  FloppyFileSystemDrive.deserializeFile file = inr e ->
  FloppyFileSystemDrive.serializeFile e = inr file.
Proof.
  revert e.
  induction file as [name entries IH|name textData|name binaryData|type name]
    using FloppySerializedFile_tree_ind; intros e; simpl;
    try (intros [= <-]; reflexivity); try discriminate.
  destruct (mapR FloppyFileSystemDrive.deserializeFile entries)
    as [err|entries'] eqn:Hmap; simpl; [discriminate|].
  intros [= <-]. simpl.
  assert (Hback : mapR FloppyFileSystemDrive.serializeFile entries'
                  = inr entries).
  { apply mapR_inr in Hmap. apply mapR_inr.
    clear name. induction Hmap as [|x y l l' Hxy _ IHl]; [constructor|].
    inversion IH as [|? ? Hx Hl]; subst.
    constructor; [now apply Hx|now apply IHl]. }
  now rewrite Hback.
Qed.

(** X10. A serialized floppy that [fromSerialized] accepts is given back by
    [serialize] on the drive it made: deserializing loses nothing. *)
Theorem fromSerialized_then_serialize
    (s : FloppySerialized.t) (drive : FloppyFileSystemDrive.t) :
  FloppyFileSystemDrive.fromSerialized s = ok drive ->
  FloppyFileSystemDrive.serialize drive = ok s.
Proof.
  destruct s as [[name entries]].
  unfold FloppyFileSystemDrive.fromSerialized,
    FloppyFileSystemDrive.deserializeDirectory. simpl.
  destruct (mapR FloppyFileSystemDrive.deserializeFile entries)
    as [err|entries'] eqn:Hmap; simpl; [discriminate|].
  intros [= <-].
  unfold FloppyFileSystemDrive.serialize,
    FloppyFileSystemDrive.serializeDirectory. simpl.
  assert (Hback : mapR FloppyFileSystemDrive.serializeFile entries'
                  = inr entries).
  { apply mapR_inr in Hmap. apply mapR_inr.
    induction Hmap as [|x y l l' Hxy _ IHl]; constructor;
      [now apply deserializeFile_inverse|exact IHl]. }
  now rewrite Hback.
Qed.

Lemma fromSerialized_then_serialize_witness :
  FloppyFileSystemDrive.serialize
    (FloppyFileSystemDrive.new
       (FileInfoDirectory.new "/"
          [InfoDirectory "docs" [InfoText "a" (TextFile.mk "x")];
           InfoBinary "b" (BinaryFile.new "00")]))
  = ok (FloppySerialized.mk
          (FloppySerializedDirectory.mk "/"
             [SerDirectory "docs" [SerText "a" "x"]; SerBinary "b" "00"])).
Proof.
  apply (fromSerialized_then_serialize
           (FloppySerialized.mk
              (FloppySerializedDirectory.mk "/"
                 [SerDirectory "docs" [SerText "a" "x"]; SerBinary "b" "00"]))).
  reflexivity.
Defined.

Lemma forallb_false_of {A} (p : A -> bool) (l : list A) (x : A) :
  In x l -> p x = false -> forallb p l = false.
Proof.
  intros Hin Hx. destruct (forallb p l) eqn:H; [|reflexivity].
  rewrite forallb_forall in H. rewrite (H x Hin) in Hx. discriminate.
Qed.

Lemma forallb_true_of {A B} (p : A -> bool) (R : A -> B -> Prop)
    (l : list A) (l' : list B) :
  Forall2 R l l' -> Forall (fun x => forall y, R x y -> p x = true) l ->
  forallb p l = true.
Proof.
  induction 1 as [|x y l l' Hxy _ IH]; intros Hall; [reflexivity|].
  inversion Hall as [|? ? Hx Hl]; subst. simpl.
  now rewrite (Hx y Hxy), IH.
Qed.

Lemma serializeFile_result (e : FileInfo) :
  match FloppyFileSystemDrive.serializeFile e with
  | inr _ => serializable e = true
  | inl err =>
      serializable e = false
      /\ exists ty,
          ty <> FileSystemObjectType.Directory
          /\ ty <> FileSystemObjectType.TextFile
          /\ ty <> FileSystemObjectType.Binary
          /\ err = Error ("Unrecognized or unsupported file info type: "
                          ++ FileSystemObjectType.value ty)
  end.
Proof.
  induction e as [name entries IH | e Hleaf] using FileInfo_tree_ind.
  - simpl.
    destruct (mapR FloppyFileSystemDrive.serializeFile entries)
      as [err|entries'] eqn:Hmap; simpl.
    + apply mapR_inl in Hmap as (x & Hin & Hx).
      rewrite Forall_forall in IH. specialize (IH x Hin).
      rewrite Hx in IH. destruct IH as (Hfalse & Hty).
      split; [|exact Hty]. eapply forallb_false_of; eassumption.
    + apply mapR_inr in Hmap.
      eapply forallb_true_of; [exact Hmap|].
      eapply Forall_impl; [|exact IH]. intros x Hx y Hy. simpl in Hx.
      now rewrite Hy in Hx.
  - destruct e; try discriminate; simpl; try reflexivity;
      (split; [reflexivity|]);
      [> exists FileSystemObjectType.Executable
       | exists FileSystemObjectType.Audio
       | exists FileSystemObjectType.Image
       | exists FileSystemObjectType.Link];
      repeat split; discriminate.
Qed.

Lemma mapR_cons {A B} (f : A -> Result B) (x : A) (l : list A) :
  mapR f (x :: l)
  = match f x with
    | inl e => inl e
    | inr y =>
        match mapR f l with
        | inl e => inl e
        | inr ys => ok (y :: ys)
        end
    end.
Proof. reflexivity. Qed.

(** [mapR] over the entries of a directory stops at the first entry, in the
    order of the visit, that is not [good]. *)
Lemma mapR_first {A B} (f : A -> Result B) (items : A -> list A)
    (good : A -> bool) (Q : Exception -> A -> Prop) (l : list A) :
  Forall (fun x =>
            match f x with
            | inr _ => forallb good (items x) = true
            | inl err =>
                exists before bad after,
                  items x = before ++ bad :: after
                  /\ forallb good before = true
                  /\ good bad = false
                  /\ Q err bad
            end) l ->
  match mapR f l with
  | inr _ => forallb good (flat_map items l) = true
  | inl err =>
      exists before bad after,
        flat_map items l = before ++ bad :: after
        /\ forallb good before = true
        /\ good bad = false
        /\ Q err bad
  end.
Proof.
  induction 1 as [|x l Hx _ IH]; [reflexivity|].
  rewrite mapR_cons. cbn [flat_map].
  destruct (f x) as [err|y].
  - destruct Hx as (before & bad & after & Hitems & Hbefore & Hbad & HQ).
    exists before, bad, (after ++ flat_map items l).
    rewrite Hitems, <- app_assoc. now repeat split.
  - destruct (mapR f l) as [err|ys].
    + destruct IH as (before & bad & after & Hitems & Hbefore & Hbad & HQ).
      exists (items x ++ before), bad, after.
      rewrite Hitems, <- app_assoc. repeat split; try assumption.
      rewrite forallb_app. now rewrite Hx, Hbefore.
    + unfold ok. rewrite forallb_app. now rewrite Hx, IH.
Qed.

Lemma serializeFile_first (e : FileInfo) :
  match FloppyFileSystemDrive.serializeFile e with
  | inr _ => forallb supportedKind (treeEntries e) = true
  | inl err =>
      exists before bad after,
        treeEntries e = before ++ bad :: after
        /\ forallb supportedKind before = true
        /\ supportedKind bad = false
        /\ err = Error ("Unrecognized or unsupported file info type: "
                        ++ FileSystemObjectType.value (FileInfo_type bad))
  end.
Proof.
  induction e as [name entries IH | e Hleaf] using FileInfo_tree_ind.
  - apply (mapR_first FloppyFileSystemDrive.serializeFile treeEntries
             supportedKind
             (fun err bad =>
                err = Error ("Unrecognized or unsupported file info type: "
                             ++ FileSystemObjectType.value (FileInfo_type bad))))
      in IH.
    change (FloppyFileSystemDrive.serializeFile (InfoDirectory name entries))
      with (match mapR FloppyFileSystemDrive.serializeFile entries with
            | inl e => inl e
            | inr es => ok (SerDirectory name es)
            end).
    change (treeEntries (InfoDirectory name entries))
      with (InfoDirectory name entries :: flat_map treeEntries entries).
    destruct (mapR FloppyFileSystemDrive.serializeFile entries) as [err|es].
    + destruct IH as (before & bad & after & Hitems & Hbefore & Hbad & Herr).
      exists (InfoDirectory name entries :: before), bad, after.
      rewrite Hitems. repeat split; assumption.
    + unfold ok. cbn [forallb]. now rewrite IH.
  - destruct e; try discriminate; try reflexivity;
      (eexists [], _, []; repeat split; reflexivity).
Qed.

(** X11. [serialize] returns exactly on the drives whose tree holds only
    directories, text files and binary files; on any other drive it throws,
    and the message names the kind of the first entry, in the order of the
    visit (an entry before the entries below it), that is of another kind. *)
Theorem serialize_result (drive : FloppyFileSystemDrive.t) :
  match FloppyFileSystemDrive.serialize drive with
  | inr _ =>
      forallb serializable
        (FileInfoDirectory.entries (FloppyFileSystemDrive.rootEntry drive))
      = true
      /\ forallb supportedKind
           (flat_map treeEntries
              (FileInfoDirectory.entries
                 (FloppyFileSystemDrive.rootEntry drive)))
         = true
  | inl err =>
      forallb serializable
        (FileInfoDirectory.entries (FloppyFileSystemDrive.rootEntry drive))
      = false
      /\ exists before bad after,
          flat_map treeEntries
            (FileInfoDirectory.entries (FloppyFileSystemDrive.rootEntry drive))
          = before ++ bad :: after
          /\ forallb supportedKind before = true
          /\ supportedKind bad = false
          /\ err = Error ("Unrecognized or unsupported file info type: "
                          ++ FileSystemObjectType.value (FileInfo_type bad))
  end.
Proof.
  destruct drive as [[name entries]].
  pose proof (serializeFile_result (InfoDirectory name entries)) as Hold.
  pose proof (mapR_first FloppyFileSystemDrive.serializeFile treeEntries
                supportedKind
                (fun err bad =>
                   err = Error ("Unrecognized or unsupported file info type: "
                                ++ FileSystemObjectType.value
                                     (FileInfo_type bad)))
                entries) as Hfirst.
  unfold FloppyFileSystemDrive.serialize,
    FloppyFileSystemDrive.serializeDirectory.
  simpl in Hold |- *.
  destruct (mapR FloppyFileSystemDrive.serializeFile entries) as [err|es];
    simpl in Hold |- *.
  - split; [apply Hold|]. apply Hfirst.
    apply Forall_forall. intros e _. apply serializeFile_first.
  - split; [exact Hold|]. apply Hfirst.
    apply Forall_forall. intros e _. apply serializeFile_first.
Qed.

Lemma deserializeFile_result (file : FloppySerializedFile) :
  match FloppyFileSystemDrive.deserializeFile file with
  | inr e => recognized file = true /\ serializable e = true
  | inl err =>
      recognized file = false
      /\ exists tag,
          err = Error ("Unrecognized or unsupported serialized file type: "
                       ++ tag)
  end.
Proof.
  induction file as [name entries IH|name textData|name binaryData|type name]
    using FloppySerializedFile_tree_ind; simpl; try (now split); eauto.
  destruct (mapR FloppyFileSystemDrive.deserializeFile entries)
    as [err|entries'] eqn:Hmap; simpl.
  - apply mapR_inl in Hmap as (x & Hin & Hx).
    rewrite Forall_forall in IH. specialize (IH x Hin).
    rewrite Hx in IH. destruct IH as (Hfalse & Htag).
    split; [|exact Htag]. eapply forallb_false_of; eassumption.
  - apply mapR_inr in Hmap. split.
    + eapply forallb_true_of; [exact Hmap|].
      eapply Forall_impl; [|exact IH]. intros x Hx y Hy. simpl in Hx.
      rewrite Hy in Hx. tauto.
    + clear name. induction Hmap as [|x y l l' Hxy _ IHl]; [reflexivity|].
      inversion IH as [|? ? Hx Hl]; subst. simpl. rewrite Hxy in Hx.
      destruct Hx as [_ ->]. now apply IHl.
Qed.

Lemma deserializeFile_first (file : FloppySerializedFile) :
  match FloppyFileSystemDrive.deserializeFile file with
  | inr _ =>
      forallb (fun f => match f with SerOther _ _ => false | _ => true end)
              (serializedEntries file) = true
  | inl err =>
      exists before bad after,
        serializedEntries file = before ++ bad :: after
        /\ forallb (fun f => match f with SerOther _ _ => false | _ => true end)
                   before = true
        /\ match bad with SerOther _ _ => false | _ => true end = false
        /\ err = Error ("Unrecognized or unsupported serialized file type: "
                        ++ FloppySerializedFile_type bad)
  end.
Proof.
  induction file as [name entries IH|name textData|name binaryData|type name]
    using FloppySerializedFile_tree_ind; try reflexivity.
  - apply (mapR_first FloppyFileSystemDrive.deserializeFile serializedEntries
             (fun f => match f with SerOther _ _ => false | _ => true end)
             (fun err bad =>
                err = Error ("Unrecognized or unsupported serialized file type: "
                             ++ FloppySerializedFile_type bad)))
      in IH.
    change (FloppyFileSystemDrive.deserializeFile (SerDirectory name entries))
      with (match mapR FloppyFileSystemDrive.deserializeFile entries with
            | inl e => inl e
            | inr es => ok (InfoDirectory name es)
            end).
    change (serializedEntries (SerDirectory name entries))
      with (SerDirectory name entries :: flat_map serializedEntries entries).
    destruct (mapR FloppyFileSystemDrive.deserializeFile entries) as [err|es].
    + destruct IH as (before & bad & after & Hitems & Hbefore & Hbad & Herr).
      exists (SerDirectory name entries :: before), bad, after.
      rewrite Hitems. repeat split; assumption.
    + unfold ok. cbn [forallb]. now rewrite IH.
  - eexists [], _, []. repeat split; reflexivity.
Qed.

Lemma wellTagged_recognizedTag (l : list FloppySerializedFile) :
  forallb wellTagged l = true ->
  forallb (fun f => recognizedTag (FloppySerializedFile_type f)) l
  = forallb (fun f => match f with SerOther _ _ => false | _ => true end) l.
Proof.
  induction l as [|f l IH]; [reflexivity|]. cbn [forallb].
  intros [Hf Hl]%andb_prop. rewrite (IH Hl). f_equal.
  destruct f as [| | |type name]; try reflexivity.
  simpl in Hf |- *. now apply negb_true_iff in Hf.
Qed.

(** X12. On a serialized floppy in which every entry outside the three
    declared shapes carries a tag other than [dir], [txt] and [bin],
    [fromSerialized] returns exactly when every entry, at any depth, has a
    tag it recognizes, and the drive it returns holds only directories, text
    files and binary files; otherwise it throws, and the message names the
    tag of the first entry, in the order of the visit (an entry before the
    entries below it), whose tag is not recognized: no entry is dropped
    silently. *)
Theorem fromSerialized_result (s : FloppySerialized.t) :
  forallb wellTagged
    (flat_map serializedEntries
       (FloppySerializedDirectory.entries (FloppySerialized.root s))) = true ->
  match FloppyFileSystemDrive.fromSerialized s with
  | inr drive =>
      forallb recognized
        (FloppySerializedDirectory.entries (FloppySerialized.root s)) = true
      /\ forallb serializable
           (FileInfoDirectory.entries (FloppyFileSystemDrive.rootEntry drive))
         = true
      /\ forallb (fun f => recognizedTag (FloppySerializedFile_type f))
           (flat_map serializedEntries
              (FloppySerializedDirectory.entries (FloppySerialized.root s)))
         = true
  | inl err =>
      forallb recognized
        (FloppySerializedDirectory.entries (FloppySerialized.root s)) = false
      /\ exists before bad after,
          flat_map serializedEntries
            (FloppySerializedDirectory.entries (FloppySerialized.root s))
          = before ++ bad :: after
          /\ forallb (fun f => recognizedTag (FloppySerializedFile_type f))
                     before = true
          /\ recognizedTag (FloppySerializedFile_type bad) = false
          /\ err = Error ("Unrecognized or unsupported serialized file type: "
                          ++ FloppySerializedFile_type bad)
  end.
Proof.
  destruct s as [[name entries]]. cbn [FloppySerialized.root
    FloppySerializedDirectory.entries]. intros Htags.
  pose proof (deserializeFile_result (SerDirectory name entries)) as Hold.
  pose proof (mapR_first FloppyFileSystemDrive.deserializeFile
                serializedEntries
                (fun f => match f with SerOther _ _ => false | _ => true end)
                (fun err bad =>
                   err = Error
                           ("Unrecognized or unsupported serialized file type: "
                            ++ FloppySerializedFile_type bad))
                entries) as Hfirst.
  assert (Hall : Forall (fun x =>
                   match FloppyFileSystemDrive.deserializeFile x with
                   | inr _ =>
                       forallb (fun f => match f with
                                         | SerOther _ _ => false
                                         | _ => true
                                         end) (serializedEntries x) = true
                   | inl err =>
                       exists before bad after,
                         serializedEntries x = before ++ bad :: after
                         /\ forallb (fun f => match f with
                                              | SerOther _ _ => false
                                              | _ => true
                                              end) before = true
                         /\ match bad with SerOther _ _ => false | _ => true end
                            = false
                         /\ err = Error
                              ("Unrecognized or unsupported serialized file type: "
                               ++ FloppySerializedFile_type bad)
                   end) entries).
  { apply Forall_forall. intros e _. apply deserializeFile_first. }
  specialize (Hfirst Hall).
  unfold FloppyFileSystemDrive.fromSerialized,
    FloppyFileSystemDrive.deserializeDirectory.
  simpl in Hold |- *.
  destruct (mapR FloppyFileSystemDrive.deserializeFile entries) as [err|es];
    simpl in Hold |- *.
  - split; [apply Hold|].
    destruct Hfirst as (before & bad & after & Hitems & Hbefore & Hbad & Herr).
    exists before, bad, after. rewrite Hitems in Htags |- *.
    rewrite forallb_app in Htags. apply andb_prop in Htags as [Hb Ha].
    cbn [forallb] in Ha. apply andb_prop in Ha as [Hbadtag _].
    split; [reflexivity|]. split; [|split; [|exact Herr]].
    + now rewrite wellTagged_recognizedTag.
    + destruct bad as [| | |type n]; try discriminate.
      simpl in Hbadtag |- *. now apply negb_true_iff in Hbadtag.
  - destruct Hold as [Hrec Hser]. split; [exact Hrec|]. split; [exact Hser|].
    now rewrite wellTagged_recognizedTag.
Qed.

Lemma fromSerialized_result_witness :
  let s :=
    FloppySerialized.mk
      (FloppySerializedDirectory.mk "/"
         [SerText "a" "x";
          SerDirectory "d" [SerBinary "b" "00"; SerOther "exe" "prog"];
          SerOther "lnk" "l"]) in
  match FloppyFileSystemDrive.fromSerialized s with
  | inr drive =>
      forallb recognized
        (FloppySerializedDirectory.entries (FloppySerialized.root s)) = true
      /\ forallb serializable
           (FileInfoDirectory.entries (FloppyFileSystemDrive.rootEntry drive))
         = true
      /\ forallb (fun f => recognizedTag (FloppySerializedFile_type f))
           (flat_map serializedEntries
              (FloppySerializedDirectory.entries (FloppySerialized.root s)))
         = true
  | inl err =>
      forallb recognized
        (FloppySerializedDirectory.entries (FloppySerialized.root s)) = false
      /\ exists before bad after,
          flat_map serializedEntries
            (FloppySerializedDirectory.entries (FloppySerialized.root s))
          = before ++ bad :: after
          /\ forallb (fun f => recognizedTag (FloppySerializedFile_type f))
                     before = true
          /\ recognizedTag (FloppySerializedFile_type bad) = false
          /\ err = Error ("Unrecognized or unsupported serialized file type: "
                          ++ FloppySerializedFile_type bad)
  end.
Proof.
  intros s. apply (fromSerialized_result s). reflexivity.
Defined.

(** ** Construction: what a constructed file system holds *)

Lemma setDrive_same (floppy : FloppyStorage.t) (label : DriveLabel) :
  FloppyStorage.drive floppy = Some label ->
  FloppyStorage.setDrive (Some label) floppy = floppy.
Proof. destruct floppy as [n d t]. simpl. now intros ->. Qed.

Lemma insertFloppyInternal_ok
    (JSON_parse : string -> option FloppySerialized.t) (label : DriveLabel)
    (floppy floppy' : FloppyStorage.t) (w w' : FileSystem.World) :
  FileSystem.insertFloppyInternal JSON_parse label floppy w = (ok floppy', w')
  ->
  exists c d,
    JSON_parse (FloppyStorage.data floppy) = Some c
    /\ FloppyFileSystemDrive.fromSerialized c = ok d
    /\ FileSystem.drives w !! label = None
    /\ floppy' = FloppyStorage.setDrive (Some label) floppy
    /\ w' = {| FileSystem.drives := <[label := Floppy d]> (FileSystem.drives w);
               FileSystem.floppies := FileSystem.floppies w |}.
Proof.
  unfold FileSystem.insertFloppyInternal, FileSystem.bind, FileSystem.lift,
    FileSystem.mount.
  destruct (JSON_parse _) as [c|] eqn:Hc; simpl; [|discriminate].
  destruct (FloppyFileSystemDrive.fromSerialized c) as [e|d] eqn:Hd; simpl;
    [discriminate|].
  destruct (FileSystem.drives w !! label) eqn:Hfree; simpl; [discriminate|].
  unfold FileSystem.ret. intros [= <- <-]. exists c, d. now repeat split.
Qed.

(** The loop of the constructor, when it ends without exception. *)
Lemma construct_loop
    (JSON_parse : string -> option FloppySerialized.t)
    (l l' : list FloppyStorage.t) (w w' : FileSystem.World) :
  FileSystem.forOf
    (fun floppy =>
       match FloppyStorage.drive floppy with
       | None => FileSystem.ret floppy
       | Some label =>
           FileSystem.tryCatch
             (FileSystem.insertFloppyInternal JSON_parse label floppy)
             (fun e => FileSystem.raise e)
       end) l w = (ok l', w') ->
  l' = l
  /\ FileSystem.floppies w' = FileSystem.floppies w
  /\ NoDup (mountedLabels l)
  /\ Forall (fun floppy =>
               forall label,
                 FloppyStorage.drive floppy = Some label ->
                 FileSystem.drives w !! label = None
                 /\ exists c d,
                     JSON_parse (FloppyStorage.data floppy) = Some c
                     /\ FloppyFileSystemDrive.fromSerialized c = ok d
                     /\ FileSystem.drives w' !! label = Some (Floppy d)) l
  /\ (forall k v,
         FileSystem.drives w !! k = Some v ->
         FileSystem.drives w' !! k = Some v)
  /\ (forall k,
         FileSystem.drives w' !! k <> None ->
         FileSystem.drives w !! k <> None \/ In k (mountedLabels l)).
Proof.
  revert l' w. induction l as [|x l IH]; intros l' w; simpl.
  - intros [= <- <-]. repeat split; try constructor; auto.
  - unfold FileSystem.bind at 1.
    destruct (FloppyStorage.drive x) as [label|] eqn:Hx.
    + unfold FileSystem.tryCatch at 1.
      destruct (FileSystem.insertFloppyInternal JSON_parse label x w)
        as [[e|x'] w1] eqn:Hins; [discriminate|].
      apply insertFloppyInternal_ok in Hins
        as (c & d & Hc & Hd & Hfree & -> & ->).
      unfold FileSystem.bind.
      match goal with
      | |- context [FileSystem.forOf ?b l ?w1] =>
          destruct (FileSystem.forOf b l w1) as [[e|rest'] w2] eqn:Hrest
      end; [discriminate|].
      intros [= <- <-].
      destruct (IH _ _ Hrest) as (-> & Hfl & Hnd & Hall & Hmono & Hdom).
      cbn [FileSystem.drives FileSystem.floppies] in *.
      assert (Hnotin : ~ In label (mountedLabels l)).
      { intros Hin. unfold mountedLabels in Hin.
        apply in_flat_map in Hin as (r & Hr & Hlab).
        rewrite Forall_forall in Hall. specialize (Hall r Hr label).
        destruct (FloppyStorage.drive r) as [lab|]; [|contradiction].
        destruct Hlab as [->|[]]. destruct (Hall eq_refl) as [Hnone _].
        rewrite lookup_insert_eq in Hnone. discriminate. }
      repeat split.
      * now rewrite setDrive_same.
      * exact Hfl.
      * constructor; assumption.
      * constructor.
        -- intros lab Hlab. rewrite Hx in Hlab. injection Hlab as <-.
           split; [exact Hfree|].
           exists c, d. repeat split; try assumption.
           apply Hmono. apply lookup_insert_eq.
        -- eapply Forall_impl; [|exact Hall]. intros r Hr lab Hlab.
           destruct (Hr lab Hlab) as [Hnone Hrest'].
           split; [|exact Hrest'].
           destruct (decide (label = lab)) as [->|Hne].
           ++ rewrite lookup_insert_eq in Hnone. discriminate.
           ++ now rewrite lookup_insert_ne in Hnone.
      * intros k v Hk. apply Hmono.
        destruct (decide (label = k)) as [->|Hne];
          [discriminate (eq_trans (eq_sym Hfree) Hk)|].
        now rewrite lookup_insert_ne.
      * intros k Hk. destruct (Hdom k Hk) as [Hw|Hin].
        -- destruct (decide (label = k)) as [->|Hne]; [right; now left|].
           rewrite lookup_insert_ne in Hw by exact Hne. now left.
        -- right. now right.
    + unfold FileSystem.ret at 1. unfold FileSystem.bind.
      match goal with
      | |- context [FileSystem.forOf ?b l ?w1] =>
          destruct (FileSystem.forOf b l w1) as [[e|rest'] w2] eqn:Hrest
      end; [discriminate|].
      intros [= <- <-].
      destruct (IH _ _ Hrest) as (-> & Hfl & Hnd & Hall & Hmono & Hdom).
      repeat split; try assumption.
      constructor; [|exact Hall]. intros lab Hlab. congruence.
Qed.

Lemma mount_occupied (label : DriveLabel) (d v : FileSystemDrive)
    (w : FileSystem.World) :
  FileSystem.drives w !! label = Some v ->
  FileSystem.mount label d w = (ok false, w).
Proof. unfold FileSystem.mount. now intros ->. Qed.

(** X13. When the constructor returns, the store holds the array it read,
    unchanged; the label [C] holds the transient drive with an empty root;
    every record with a drive is mounted at its label as the floppy drive
    deserialized from its data; the labels of the records are pairwise
    different and none is [C]; no other label holds a drive; and mounting
    anything at [C] fails. *)
Theorem construct_ok
    (JSON_parse : string -> option FloppySerialized.t)
    (store : option (list FloppyStorage.t)) (w : FileSystem.World) :
  FileSystem.construct JSON_parse store = (ok tt, w) ->
  let floppyData := default [] store in
  FileSystem.floppies w = Some floppyData
  /\ FileSystem.drives w !! "C" = Some (Transient TransientFileSystemDrive.new)
  /\ NoDup ("C" :: mountedLabels floppyData)
  /\ Forall (fun floppy =>
               forall label,
                 FloppyStorage.drive floppy = Some label ->
                 exists c d,
                   JSON_parse (FloppyStorage.data floppy) = Some c
                   /\ FloppyFileSystemDrive.fromSerialized c = ok d
                   /\ FileSystem.drives w !! label = Some (Floppy d))
            floppyData
  /\ (forall k,
         FileSystem.drives w !! k <> None ->
         k = "C" \/ In k (mountedLabels floppyData))
  /\ (forall d, FileSystem.mount "C" d w = (ok false, w)).
Proof.
  unfold FileSystem.construct, FileSystem.new.
  unfold FileSystem.bind at 1. unfold FileSystem.mount at 1.
  cbn [FileSystem.drives FileSystem.floppies]. rewrite lookup_empty.
  unfold FileSystem.bind at 1. unfold FileSystem.getFloppies at 1.
  cbn [FileSystem.drives FileSystem.floppies].
  unfold FileSystem.bind.
  match goal with
  | |- context [FileSystem.forOf ?b ?l ?w0] =>
      destruct (FileSystem.forOf b l w0) as [[e|l'] w1] eqn:Hloop
  end; [discriminate|].
  unfold FileSystem.setFloppies. intros [= <-]. cbv zeta.
  apply construct_loop in Hloop as (-> & Hfl & Hnd & Hall & Hmono & Hdom).
  cbn [FileSystem.drives FileSystem.floppies] in *.
  assert (HC : FileSystem.drives w1 !! "C"
               = Some (Transient TransientFileSystemDrive.new)).
  { apply Hmono. apply lookup_insert_eq. }
  repeat split.
  - exact HC.
  - constructor; [|exact Hnd]. intros Hin. unfold mountedLabels in Hin.
    apply in_flat_map in Hin as (r & Hr & Hlab).
    rewrite Forall_forall in Hall. specialize (Hall r Hr "C").
    destruct (FloppyStorage.drive r) as [lab|]; [|contradiction].
    destruct Hlab as [->|[]]. destruct (Hall eq_refl) as [Hnone _].
    rewrite lookup_insert_eq in Hnone. discriminate.
  - eapply Forall_impl; [|exact Hall]. intros r Hr lab Hlab.
    now destruct (Hr lab Hlab).
  - intros k Hk. destruct (Hdom k Hk) as [Hw|Hin]; [|now right].
    left. destruct (decide ("C" = k)) as [<-|Hne]; [reflexivity|].
    rewrite lookup_insert_ne, lookup_empty in Hw by exact Hne. congruence.
  - intros d. eapply mount_occupied. exact HC.
Qed.

Lemma construct_ok_witness :
  let good :=
    {| FloppyStorage.name := "good";
       FloppyStorage.drive := Some "B";
       FloppyStorage.data :=
         JsonText.stringify FileSystem.emptyFloppyContents |} in
  let w :=
    {| FileSystem.drives :=
         {[ "C" := Transient TransientFileSystemDrive.new;
            "B" := Floppy (FloppyFileSystemDrive.new
                             (FileInfoDirectory.new "/" [])) ]};
       FileSystem.floppies := Some [good] |} in
  FileSystem.floppies w = Some [good]
  /\ FileSystem.drives w !! "C"
     = Some (Transient TransientFileSystemDrive.new).
Proof.
  cbv zeta.
  destruct (construct_ok
              (JsonText.parseKnown [FileSystem.emptyFloppyContents])
              (Some [ {| FloppyStorage.name := "good";
                         FloppyStorage.drive := Some "B";
                         FloppyStorage.data :=
                           JsonText.stringify
                             FileSystem.emptyFloppyContents |} ])
              {| FileSystem.drives :=
                   {[ "C" := Transient TransientFileSystemDrive.new;
                      "B" := Floppy (FloppyFileSystemDrive.new
                                       (FileInfoDirectory.new "/" [])) ]};
                 FileSystem.floppies :=
                   Some [ {| FloppyStorage.name := "good";
                             FloppyStorage.drive := Some "B";
                             FloppyStorage.data :=
                               JsonText.stringify
                                 FileSystem.emptyFloppyContents |} ] |})
    as (Hstore & HC & _).
  - vm_compute. reflexivity.
  - split; [exact Hstore|exact HC].
Defined.

(** ** Floppy lifecycle: failures write nothing *)

Lemma forOf_reads_only {A} (body : A -> FileSystem.M A) (l : list A) :
  (forall x w r w', body x w = (r, w') -> w' = w) ->
  forall w r w', FileSystem.forOf body l w = (r, w') -> w' = w.
Proof.
  intros Hbody. induction l as [|x l IH]; intros w r w'; simpl.
  - now intros [= _ <-].
  - unfold FileSystem.bind.
    destruct (body x w) as [[e|x'] w1] eqn:Hx.
    + intros [= _ <-]. eapply Hbody, Hx.
    + apply Hbody in Hx as ->.
      destruct (FileSystem.forOf body l w) as [[e|l'] w2] eqn:Hl.
      * intros [= _ <-]. eapply IH, Hl.
      * intros [= _ <-]. eapply IH, Hl.
Qed.

Lemma insertFloppyInternal_throws_unchanged
    (JSON_parse : string -> option FloppySerialized.t) (label : DriveLabel)
    (floppy : FloppyStorage.t) (w w' : FileSystem.World) (e : Exception) :
  FileSystem.insertFloppyInternal JSON_parse label floppy w = (throw e, w') ->
  w' = w.
Proof.
  unfold FileSystem.insertFloppyInternal, FileSystem.bind, FileSystem.lift,
    FileSystem.mount.
  destruct (JSON_parse _) as [c|]; simpl; [|now intros [= _ <-]].
  destruct (FloppyFileSystemDrive.fromSerialized c) as [err|d]; simpl;
    [now intros [= _ <-]|].
  destruct (FileSystem.drives w !! label); simpl;
    [now intros [= _ <-]|discriminate].
Qed.

Lemma commit_body_reads_only
    (JSON_stringify : FloppySerialized.t -> string)
    (floppy : FloppyStorage.t) (w : FileSystem.World)
    (r : Result FloppyStorage.t) (w' : FileSystem.World) :
  match FloppyStorage.drive floppy with
  | None => FileSystem.ret floppy
  | Some label =>
      FileSystem.bind (FileSystem.getDrive label)
        (fun drive =>
           match drive with
           | None => FileSystem.raise TypeError
           | Some (Transient _) =>
               FileSystem.ret (FloppyStorage.setDrive None floppy)
           | Some (Floppy d) =>
               FileSystem.bind
                 (FileSystem.lift (FloppyFileSystemDrive.serialize d))
                 (fun s =>
                    FileSystem.ret
                      (FloppyStorage.setData (JSON_stringify s) floppy))
           end)
  end w = (r, w') ->
  w' = w.
Proof.
  destruct (FloppyStorage.drive floppy) as [label|];
    [|now intros [= _ <-]].
  unfold FileSystem.bind, FileSystem.getDrive, FileSystem.lift.
  destruct (FileSystem.drives w !! label) as [[t|d]|];
    try (now intros [= _ <-]).
  destruct (FloppyFileSystemDrive.serialize d); now intros [= _ <-].
Qed.

(** X14. A floppy operation that throws has changed nothing: after an
    exception of [spawnFloppy], [burnFloppy], [insertFloppy], [ejectFloppy]
    or [commit], the mount table and the store are as they were before the
    call. *)
Theorem lifecycle_exception_changes_nothing
    (JSON_parse : string -> option FloppySerialized.t)
    (JSON_stringify : FloppySerialized.t -> string)
    (w w' : FileSystem.World) (e : Exception) (name : string)
    (label : DriveLabel) :
  (FileSystem.spawnFloppy JSON_stringify name w = (throw e, w') -> w' = w)
  /\ (FileSystem.burnFloppy name w = (throw e, w') -> w' = w)
  /\ (FileSystem.insertFloppy JSON_parse label name w = (throw e, w') ->
      w' = w)
  /\ (FileSystem.ejectFloppy label w = (throw e, w') -> w' = w)
  /\ (FileSystem.commit JSON_stringify w = (throw e, w') -> w' = w).
Proof.
  repeat split.
  - unfold FileSystem.spawnFloppy.
    destruct (negb _); [now intros [= _ <-]|].
    unfold FileSystem.bind, FileSystem.getFloppies.
    destruct (Js.find _ _); [now intros [= _ <-]|discriminate].
  - unfold FileSystem.burnFloppy, FileSystem.bind, FileSystem.getFloppies,
      Js.remove.
    destruct (List.filter (FloppyStorage.hasName name) _) as [|floppy rest];
      [now intros [= _ <-]|].
    destruct (FloppyStorage.drive floppy); discriminate.
  - unfold FileSystem.insertFloppy.
    unfold FileSystem.bind at 1. unfold FileSystem.getFloppies at 1.
    destruct (Js.find _ _) as [floppy|]; [|now intros [= _ <-]].
    unfold FileSystem.bind.
    destruct (FileSystem.insertFloppyInternal JSON_parse label floppy w)
      as [[err|floppy'] w1] eqn:Hins; [|discriminate].
    intros [= <- <-]. eapply insertFloppyInternal_throws_unchanged, Hins.
  - unfold FileSystem.ejectFloppy, FileSystem.bind, FileSystem.getDrive,
      FileSystem.getFloppies.
    destruct (FileSystem.drives w !! label); [|discriminate].
    destruct (Js.find _ _); [discriminate|now intros [= _ <-]].
  - unfold FileSystem.commit.
    unfold FileSystem.bind at 1. unfold FileSystem.getFloppies at 1.
    unfold FileSystem.bind at 1.
    match goal with
    | |- context [FileSystem.forOf ?b ?l ?w0] =>
        destruct (FileSystem.forOf b l w0) as [[err|l'] w1] eqn:Hloop
    end; [|discriminate].
    intros [= _ <-].
    eapply (forOf_reads_only _ _ (commit_body_reads_only JSON_stringify)),
      Hloop.
Qed.

(** ** Inserting and ejecting a floppy *)

Lemma replaceFound_found {A} (p : A -> bool) (x x' : A) (l : list A) :
  Js.find p l = Some x ->
  exists before after,
    l = before ++ x :: after
    /\ Forall (fun y => p y = false) before
    /\ p x = true
    /\ Js.replaceFound p x' l = before ++ x' :: after.
Proof.
  intros H. apply find_some_iff in H as (before & after & -> & Hx & Hb).
  exists before, after. repeat split; try assumption.
  induction Hb as [|y b Hy _ IH]; simpl; [now rewrite Hx|].
  now rewrite Hy, IH.
Qed.

Lemma find_in_context {A} (p : A -> bool) (x : A) (before after : list A) :
  Forall (fun y => p y = false) before -> p x = true ->
  Js.find p (before ++ x :: after) = Some x.
Proof.
  intros Hb Hx. apply find_some_iff. exists before, after. now repeat split.
Qed.

Lemma replaceFound_in_context {A} (p : A -> bool) (x x' : A)
    (before after : list A) :
  Forall (fun y => p y = false) before -> p x = true ->
  Js.replaceFound p x' (before ++ x :: after) = before ++ x' :: after.
Proof.
  intros Hb Hx. induction Hb as [|y b Hy _ IH]; simpl; [now rewrite Hx|].
  now rewrite Hy, IH.
Qed.

(** X15. Inserting an unmounted floppy at one of the 26 labels, when the
    label is free and no record claims it, returns, mounts the drive deserialized from the record's data at
    that label and marks the record with the label; ejecting the label right
    after it returns and gives back the mount table and the store as they
    were before the two calls. *)
Theorem insert_then_eject
    (JSON_parse : string -> option FloppySerialized.t)
    (w : FileSystem.World) (label : DriveLabel) (name : string)
    (floppy : FloppyStorage.t) :
  isDriveLabel label = true ->
  Js.find (FloppyStorage.hasName name) (default [] (FileSystem.floppies w))
  = Some floppy ->
  FloppyStorage.drive floppy = None ->
  deserializes JSON_parse floppy = true ->
  FileSystem.drives w !! label = None ->
  Forall (fun r => FileSystem.mountedAt label r = false)
         (default [] (FileSystem.floppies w)) ->
  exists c d w1,
    JSON_parse (FloppyStorage.data floppy) = Some c
    /\ FloppyFileSystemDrive.fromSerialized c = ok d
    /\ FileSystem.insertFloppy JSON_parse label name w = (ok tt, w1)
    /\ FileSystem.drives w1 = <[label := Floppy d]> (FileSystem.drives w)
    /\ Js.find (FloppyStorage.hasName name)
               (default [] (FileSystem.floppies w1))
       = Some (FloppyStorage.setDrive (Some label) floppy)
    /\ FileSystem.ejectFloppy label w1 = (ok tt, w).
Proof.
  intros _ Hfind Hunmounted Hdeser Hfree Hnone.
  unfold deserializes in Hdeser.
  destruct (JSON_parse (FloppyStorage.data floppy)) as [c|] eqn:Hc;
    [|discriminate].
  destruct (FloppyFileSystemDrive.fromSerialized c) as [e|d] eqn:Hd;
    [discriminate|].
  destruct w as [drives [records|]]; simpl in *; [|discriminate].
  destruct (replaceFound_found _ _ (FloppyStorage.setDrive (Some label) floppy)
                               _ Hfind)
    as (before & after & -> & Hbefore & Hname & Hreplaced).
  assert (Hname' : FloppyStorage.hasName name
                     (FloppyStorage.setDrive (Some label) floppy) = true)
    by exact Hname.
  assert (Hmounted : FileSystem.mountedAt label
                       (FloppyStorage.setDrive (Some label) floppy) = true).
  { unfold FileSystem.mountedAt. simpl. apply String.eqb_refl. }
  apply Forall_app in Hnone as [Hnb Hna].
  exists c, d,
    {| FileSystem.drives := <[label := Floppy d]> drives;
       FileSystem.floppies :=
         Some (before ++ FloppyStorage.setDrive (Some label) floppy
                      :: after) |}.
  split; [reflexivity|]. split; [exact Hd|].
  split; [|split; [|split]].
  - unfold FileSystem.insertFloppy, FileSystem.bind, FileSystem.getFloppies.
    simpl. rewrite Hfind.
    unfold FileSystem.insertFloppyInternal, FileSystem.bind, FileSystem.lift,
      FileSystem.mount.
    simpl. rewrite Hc. simpl. rewrite Hd. simpl. rewrite Hfree. simpl.
    unfold FileSystem.setFloppies. simpl. rewrite Hreplaced. reflexivity.
  - reflexivity.
  - simpl. now apply find_in_context.
  - unfold FileSystem.ejectFloppy, FileSystem.bind, FileSystem.getDrive,
      FileSystem.getFloppies, FileSystem.unmount, FileSystem.setFloppies.
    simpl. rewrite lookup_insert_eq. simpl.
    rewrite (find_in_context _ _ before after Hnb Hmounted). simpl.
    rewrite (replaceFound_in_context _ _ _ before after Hnb Hmounted).
    rewrite delete_insert_id by exact Hfree.
    destruct floppy as [n dr dt]. simpl in *. now subst dr.
Qed.

Lemma insert_then_eject_witness :
  let work :=
    {| FloppyStorage.name := "work";
       FloppyStorage.drive := None;
       FloppyStorage.data :=
         JsonText.stringify FileSystem.emptyFloppyContents |} in
  let w :=
    {| FileSystem.drives := {[ "C" := Transient TransientFileSystemDrive.new ]};
       FileSystem.floppies := Some [work] |} in
  exists c d w1,
    JsonText.parseKnown [FileSystem.emptyFloppyContents]
                        (FloppyStorage.data work) = Some c
    /\ FloppyFileSystemDrive.fromSerialized c = ok d
    /\ FileSystem.insertFloppy
         (JsonText.parseKnown [FileSystem.emptyFloppyContents]) "D" "work" w
       = (ok tt, w1)
    /\ FileSystem.drives w1 = <["D" := Floppy d]> (FileSystem.drives w)
    /\ Js.find (FloppyStorage.hasName "work")
               (default [] (FileSystem.floppies w1))
       = Some (FloppyStorage.setDrive (Some "D") work)
    /\ FileSystem.ejectFloppy "D" w1 = (ok tt, w).
Proof.
  cbv zeta.
  apply (insert_then_eject
           (JsonText.parseKnown [FileSystem.emptyFloppyContents])
           {| FileSystem.drives :=
                {[ "C" := Transient TransientFileSystemDrive.new ]};
              FileSystem.floppies :=
                Some [ {| FloppyStorage.name := "work";
                          FloppyStorage.drive := None;
                          FloppyStorage.data :=
                            JsonText.stringify
                              FileSystem.emptyFloppyContents |} ] |}
           "D" "work").
  - reflexivity.
  - reflexivity.
  - reflexivity.
  - reflexivity.
  - reflexivity.
  - repeat constructor.
Defined.

Lemma replaceFound_map {A B} (p : A -> bool) (f : A -> B) (x' : A)
    (l : list A) :
  (forall x, Js.find p l = Some x -> f x' = f x) ->
  List.map f (Js.replaceFound p x' l) = List.map f l.
Proof.
  unfold Js.find. induction l as [|y l IH]; simpl; [reflexivity|].
  destruct (p y); intros H; simpl.
  - now rewrite (H y eq_refl).
  - now rewrite IH.
Qed.

(** X16. [ejectFloppy] on one of the 26 labels: when the label holds no
    drive it returns and changes nothing; when it holds a drive at which no
    record is mounted (such as the transient drive) it throws and changes
    nothing; and whenever it returns, the label holds no drive afterwards
    and every record has the name and the data it had: ejecting does not
    save the tree of the drive. *)
Theorem ejectFloppy_spec (w : FileSystem.World) (label : DriveLabel) :
  isDriveLabel label = true ->
  (FileSystem.drives w !! label = None ->
   FileSystem.ejectFloppy label w = (ok tt, w))
  /\ (FileSystem.drives w !! label <> None ->
      Forall (fun r => FileSystem.mountedAt label r = false)
             (floppyRecords w) ->
      FileSystem.ejectFloppy label w
      = (throw (Error "No floppy mounted to that drive"), w))
  /\ (forall w',
         FileSystem.ejectFloppy label w = (ok tt, w') ->
         FileSystem.drives w' !! label = None
         /\ List.map FloppyStorage.name (floppyRecords w')
            = List.map FloppyStorage.name (floppyRecords w)
         /\ List.map FloppyStorage.data (floppyRecords w')
            = List.map FloppyStorage.data (floppyRecords w)).
Proof.
  intros _.
  unfold FileSystem.ejectFloppy, FileSystem.bind, FileSystem.getDrive,
    FileSystem.getFloppies, floppyRecords.
  repeat split.
  - now intros ->.
  - intros Hdrive Hnone.
    destruct (FileSystem.drives w !! label); [|congruence].
    apply find_none_iff in Hnone. now rewrite Hnone.
  - revert H. destruct (FileSystem.drives w !! label) eqn:Hdrive.
    + destruct (Js.find _ _); [|discriminate].
      intros [= <-]. simpl. apply lookup_delete_eq.
    + now intros [= <-].
  - revert H. destruct (FileSystem.drives w !! label).
    + destruct (Js.find _ _) as [floppy|] eqn:Hfind; [|discriminate].
      intros [= <-]. simpl. apply replaceFound_map.
      intros x Hx. rewrite Hfind in Hx. now injection Hx as <-.
    + now intros [= <-].
  - revert H. destruct (FileSystem.drives w !! label).
    + destruct (Js.find _ _) as [floppy|] eqn:Hfind; [|discriminate].
      intros [= <-]. simpl. apply replaceFound_map.
      intros x Hx. rewrite Hfind in Hx. now injection Hx as <-.
    + now intros [= <-].
Qed.

Lemma ejectFloppy_spec_witness :
  let work :=
    {| FloppyStorage.name := "work";
       FloppyStorage.drive := Some "D";
       FloppyStorage.data := "" |} in
  let w :=
    {| FileSystem.drives :=
         {[ "C" := Transient TransientFileSystemDrive.new;
            "D" := Floppy (FloppyFileSystemDrive.new
                             (FileInfoDirectory.new "/"
                                [InfoDirectory "docs" []])) ]};
       FileSystem.floppies := Some [work] |} in
  (FileSystem.drives w !! "D" = None ->
   FileSystem.ejectFloppy "D" w = (ok tt, w))
  /\ (FileSystem.drives w !! "D" <> None ->
      Forall (fun r => FileSystem.mountedAt "D" r = false)
             (floppyRecords w) ->
      FileSystem.ejectFloppy "D" w
      = (throw (Error "No floppy mounted to that drive"), w))
  /\ (forall w',
         FileSystem.ejectFloppy "D" w = (ok tt, w') ->
         FileSystem.drives w' !! "D" = None
         /\ List.map FloppyStorage.name (floppyRecords w')
            = List.map FloppyStorage.name (floppyRecords w)
         /\ List.map FloppyStorage.data (floppyRecords w')
            = List.map FloppyStorage.data (floppyRecords w)).
Proof.
  intros work w. apply (ejectFloppy_spec w "D"). reflexivity.
Defined.

(** X17. [trySerializeFloppy] never throws and changes nothing; it returns
    a text exactly when the label holds a floppy drive that [serialize]
    accepts, and the text is that of the serialized tree; otherwise it
    returns [null]. *)
Theorem trySerializeFloppy_never_throws
    (JSON_stringify : FloppySerialized.t -> string)
    (w : FileSystem.World) (label : DriveLabel) :
  exists r,
    FileSystem.trySerializeFloppy JSON_stringify label w = (ok r, w)
    /\ forall text,
        r = Some text <->
        exists d s,
          FileSystem.drives w !! label = Some (Floppy d)
          /\ FloppyFileSystemDrive.serialize d = ok s
          /\ text = JSON_stringify s.
Proof.
  unfold FileSystem.trySerializeFloppy, FileSystem.tryCatch, FileSystem.bind,
    FileSystem.getDrive, FileSystem.lift.
  destruct (FileSystem.drives w !! label) as [[t|d]|] eqn:Hdrive.
  - exists None. split; [reflexivity|]. intros text.
    split; [discriminate|]. intros (d & s & H & _). discriminate.
  - destruct (FloppyFileSystemDrive.serialize d) as [e|s] eqn:Hs.
    + exists None. split; [reflexivity|]. intros text.
      split; [discriminate|]. intros (d' & s & [= <-] & H & _).
      rewrite Hs in H. discriminate.
    + exists (Some (JSON_stringify s)). split; [reflexivity|]. intros text.
      split.
      * intros [= <-]. exists d, s. now repeat split.
      * intros (d' & s' & [= <-] & H & ->). rewrite Hs in H.
        now injection H as <-.
  - exists None. split; [reflexivity|]. intros text.
    split; [discriminate|]. intros (d & s & H & _). discriminate.
Qed.

Lemma forOf_map_invariant {A B} (f : A -> B) (body : A -> FileSystem.M A)
    (l l' : list A) (w w' : FileSystem.World) :
  (forall x w x' w', body x w = (ok x', w') -> f x' = f x) ->
  FileSystem.forOf body l w = (ok l', w') ->
  List.map f l' = List.map f l.
Proof.
  intros Hbody. revert l' w w'.
  induction l as [|x l IH]; intros l' w w'; simpl.
  - now intros [= <- _].
  - unfold FileSystem.bind.
    destruct (body x w) as [[e|x'] w1] eqn:Hx; [discriminate|].
    destruct (FileSystem.forOf body l w1) as [[e|rest] w2] eqn:Hl;
      [discriminate|].
    intros [= <- _]. simpl. f_equal; [eapply Hbody, Hx|eapply IH, Hl].
Qed.

Lemma find_floppy_none (n : string) (l : list FloppyStorage.t) :
  Js.find (FloppyStorage.hasName n) l = None ->
  ~ In n (List.map FloppyStorage.name l).
Proof.
  intros H Hin. apply find_none_iff in H. rewrite Forall_forall in H.
  apply in_map_iff in Hin as (r & Hname & Hr). specialize (H r Hr).
  unfold FloppyStorage.hasName in H. apply String.eqb_neq in H. congruence.
Qed.

(** X18. When the records of the persisted array have pairwise different
    names, they still have after any of [spawnFloppy], [burnFloppy],
    [insertFloppy], [ejectFloppy] and [commit] has returned. *)
Theorem lifecycle_keeps_names_unique
    (JSON_parse : string -> option FloppySerialized.t)
    (JSON_stringify : FloppySerialized.t -> string)
    (w w' : FileSystem.World) (name : string) (label : DriveLabel) :
  UniqueFloppyNames w ->
  (FileSystem.spawnFloppy JSON_stringify name w = (ok tt, w') ->
   UniqueFloppyNames w')
  /\ (FileSystem.burnFloppy name w = (ok tt, w') -> UniqueFloppyNames w')
  /\ (FileSystem.insertFloppy JSON_parse label name w = (ok tt, w') ->
      UniqueFloppyNames w')
  /\ (FileSystem.ejectFloppy label w = (ok tt, w') -> UniqueFloppyNames w')
  /\ (FileSystem.commit JSON_stringify w = (ok tt, w') ->
      UniqueFloppyNames w').
Proof.
  unfold UniqueFloppyNames, floppyRecords. intros Hw.
  split; [|split; [|split; [|split]]].
  - unfold FileSystem.spawnFloppy.
    destruct (negb _); [discriminate|].
    unfold FileSystem.bind, FileSystem.getFloppies.
    destruct (Js.find _ _) eqn:Hfind; [discriminate|].
    intros [= <-]. simpl. unfold Js.push. rewrite map_app. simpl.
    apply NoDup_snoc; [exact Hw|]. now apply find_floppy_none.
  - unfold FileSystem.burnFloppy, FileSystem.bind, FileSystem.getFloppies,
      Js.remove.
    destruct (List.filter (FloppyStorage.hasName name) _) as [|floppy rest];
      [discriminate|].
    destruct (FloppyStorage.drive floppy); intros [= <-]; simpl;
      now apply NoDup_map_filter.
  - unfold FileSystem.insertFloppy.
    unfold FileSystem.bind at 1. unfold FileSystem.getFloppies at 1.
    destruct (Js.find _ _) as [floppy|] eqn:Hfind; [|discriminate].
    unfold FileSystem.bind.
    destruct (FileSystem.insertFloppyInternal JSON_parse label floppy w)
      as [[err|floppy'] w1] eqn:Hins; [discriminate|].
    apply insertFloppyInternal_ok in Hins as (c & d & _ & _ & _ & -> & ->).
    intros [= <-]. simpl.
    rewrite (replaceFound_map _ FloppyStorage.name); [exact Hw|].
    intros x Hx. rewrite Hfind in Hx. now injection Hx as <-.
  - unfold FileSystem.ejectFloppy, FileSystem.bind, FileSystem.getDrive,
      FileSystem.getFloppies.
    destruct (FileSystem.drives w !! label); [|now intros [= <-]].
    destruct (Js.find _ _) as [floppy|] eqn:Hfind; [|discriminate].
    intros [= <-]. simpl.
    rewrite (replaceFound_map _ FloppyStorage.name); [exact Hw|].
    intros x Hx. rewrite Hfind in Hx. now injection Hx as <-.
  - unfold FileSystem.commit.
    unfold FileSystem.bind at 1. unfold FileSystem.getFloppies at 1.
    unfold FileSystem.bind at 1.
    match goal with
    | |- context [FileSystem.forOf ?b ?l ?w0] =>
        destruct (FileSystem.forOf b l w0) as [[err|l'] w1] eqn:Hloop
    end; [discriminate|].
    intros [= <-]. simpl.
    assert (Hnames : List.map FloppyStorage.name l'
                     = List.map FloppyStorage.name
                                (default [] (FileSystem.floppies w)));
      [|now rewrite Hnames].
    eapply (forOf_map_invariant FloppyStorage.name); [|exact Hloop].
    cbv beta.
    intros x w0 x' w0'. destruct (FloppyStorage.drive x) as [lab|].
    + unfold FileSystem.bind, FileSystem.getDrive, FileSystem.lift.
      destruct (FileSystem.drives w0 !! lab) as [[t|d]|]; try discriminate.
      * now intros [= <- _].
      * destruct (FloppyFileSystemDrive.serialize d); [discriminate|].
        now intros [= <- _].
    + now intros [= <- _].
Qed.

Lemma lifecycle_keeps_names_unique_witness :
  UniqueFloppyNames
    {| FileSystem.drives := ∅;
       FileSystem.floppies :=
         Some [ {| FloppyStorage.name := "work";
                   FloppyStorage.drive := None;
                   FloppyStorage.data := "" |};
                {| FloppyStorage.name := "A1_b";
                   FloppyStorage.drive := None;
                   FloppyStorage.data :=
                     JsonText.stringify FileSystem.emptyFloppyContents |} ] |}.
Proof.
  destruct (lifecycle_keeps_names_unique
              (JsonText.parseKnown [])
              JsonText.stringify
              {| FileSystem.drives := ∅;
                 FileSystem.floppies :=
                   Some [ {| FloppyStorage.name := "work";
                             FloppyStorage.drive := None;
                             FloppyStorage.data := "" |} ] |}
              {| FileSystem.drives := ∅;
                 FileSystem.floppies :=
                   Some [ {| FloppyStorage.name := "work";
                             FloppyStorage.drive := None;
                             FloppyStorage.data := "" |};
                          {| FloppyStorage.name := "A1_b";
                             FloppyStorage.drive := None;
                             FloppyStorage.data :=
                               JsonText.stringify
                                 FileSystem.emptyFloppyContents |} ] |}
              "A1_b" "D") as [Hspawn _].
  - repeat constructor. intros [].
  - apply Hspawn. reflexivity.
Defined.

(** ** String toolbox *)

Lemma string_length_append (a b : string) :
  String.length (a ++ b) = String.length a + String.length b.
Proof. induction a as [|c a IH]; simpl; [reflexivity|]. now rewrite IH. Qed.

Lemma string_append_empty (s : string) : (s ++ "")%string = s.
Proof.
  induction s as [|c s IH]; [reflexivity|].
  change (String c (s ++ "")%string = String c s). now rewrite IH.
Qed.

Lemma copies_length (s : string) (n : nat) :
  String.length (Toolbox.copies s n) = n * String.length s.
Proof.
  induction n as [|n IH]; simpl; [reflexivity|].
  now rewrite string_length_append, IH.
Qed.

Lemma repeat_result (maxStringLength : nat) (s : string) (count : Z) :
  (0 <= count)%Z ->
  Toolbox.repeat maxStringLength s count
  = if Z.ltb (Z.of_nat maxStringLength)
             (count * Z.of_nat (String.length s))
    then throw RangeError
    else ok (Toolbox.copies s (Z.to_nat count)).
Proof.
  intros Hcount. unfold Toolbox.repeat.
  destruct (Z.ltb_spec count 0); [lia|reflexivity].
Qed.

(** X19. [padWithRightBias], for a [length] that holds an integer, returns
    the string itself when it is at least [length] long; otherwise it puts
    copies of the pad character on both sides of it, as many on the left as
    on the right or one more on the left, [length] minus the length of the
    string in all, and with a pad character of length one the result is
    exactly [length] long. It throws, a [RangeError], exactly when the padded
    string would be longer than the longest string of the engine. *)
Theorem padWithRightBias_spec (maxStringLength : nat) (s : string)
    (length : Z) (character : string) :
  let spaceLeft := (length - Z.of_nat (String.length s))%Z in
  let padded :=
    (Z.of_nat (String.length s)
     + spaceLeft * Z.of_nat (String.length character))%Z in
  match Toolbox.padWithRightBias maxStringLength s length character with
  | inr result =>
      (exists l r,
          result
          = (Toolbox.copies character l ++ s
             ++ Toolbox.copies character r)%string
          /\ (l = r \/ l = S r)
          /\ Z.of_nat (l + r) = Z.max 0 spaceLeft)
      /\ ((spaceLeft <= 0)%Z -> result = s)
      /\ ((0 < spaceLeft)%Z ->
          Z.of_nat (String.length result) = padded
          /\ (padded <= Z.of_nat maxStringLength)%Z)
      /\ (String.length character = 1 ->
          Z.of_nat (String.length result)
          = Z.max length (Z.of_nat (String.length s)))
  | inl e =>
      e = RangeError
      /\ (0 < spaceLeft)%Z
      /\ (Z.of_nat maxStringLength < padded)%Z
  end.
Proof.
  cbv zeta. unfold Toolbox.padWithRightBias.
  set (spaceLeft := (length - Z.of_nat (String.length s))%Z).
  set (c := String.length character).
  assert (Hlen : forall l r,
             String.length
               (Toolbox.copies character l ++ s ++ Toolbox.copies character r)
             = l * c + String.length s + r * c).
  { intros l r. rewrite !string_length_append, !copies_length. fold c. lia. }
  destruct (Z.leb_spec spaceLeft 0) as [Hle|Hgt].
  - split; [|split; [|split]].
    + exists 0, 0. cbn [Toolbox.copies].
      change ("" ++ s ++ "")%string with (s ++ "")%string.
      rewrite string_append_empty. repeat split; [now left|lia].
    + reflexivity.
    + lia.
    + lia.
  - pose proof (Z.div_mod spaceLeft 2 ltac:(lia)) as Hdiv.
    pose proof (Z.mod_pos_bound spaceLeft 2 ltac:(lia)) as Hmod.
    set (pad := (spaceLeft / 2)%Z) in *.
    assert (Hpad : (0 <= pad)%Z) by (apply Z.div_pos; lia).
    assert (Hc : (0 <= Z.of_nat c)%Z) by lia.
    destruct (Z.eqb_spec (spaceLeft mod 2) 0) as [Heven|Hodd].
    + rewrite !repeat_result by lia. fold c.
      destruct (Z.ltb_spec (Z.of_nat maxStringLength) (pad * Z.of_nat c))
        as [Hlong|Hfits]; cbn [rbind throw ok].
      { repeat split; [lia|nia]. }
      unfold Toolbox.template. rewrite !copies_length. fold c.
      destruct (Nat.ltb_spec maxStringLength
                  (Z.to_nat pad * c + String.length s + Z.to_nat pad * c))
        as [Hlong|Hfits']; cbn [throw ok].
      { repeat split; [lia|]. nia. }
      split; [|split; [|split]].
      * exists (Z.to_nat pad), (Z.to_nat pad).
        repeat split; [now left|lia].
      * lia.
      * intros _. rewrite Hlen. split; nia.
      * intros Hone. rewrite Hlen, Hone. lia.
    + rewrite !repeat_result by lia. fold c.
      destruct (Z.ltb_spec (Z.of_nat maxStringLength)
                           ((pad + 1) * Z.of_nat c))
        as [Hlong|Hfits]; cbn [rbind throw ok].
      { repeat split; [lia|nia]. }
      destruct (Z.ltb_spec (Z.of_nat maxStringLength) (pad * Z.of_nat c))
        as [Hlong|Hfits2]; cbn [rbind throw ok].
      { repeat split; [lia|nia]. }
      unfold Toolbox.template. rewrite !copies_length. fold c.
      destruct (Nat.ltb_spec maxStringLength
                  (Z.to_nat (pad + 1) * c + String.length s
                   + Z.to_nat pad * c))
        as [Hlong|Hfits']; cbn [throw ok].
      { repeat split; [lia|]. nia. }
      split; [|split; [|split]].
      * exists (Z.to_nat (pad + 1)), (Z.to_nat pad).
        repeat split; [right; lia|lia].
      * lia.
      * intros _. rewrite Hlen. split; nia.
      * intros Hone. rewrite Hlen, Hone. lia.
Qed.

Example padWithRightBias_odd :
  Toolbox.padWithRightBias 1000 "abc" 8 "*" = ok "***abc**"
  /\ Toolbox.padWithRightBias 7 "abc" 8 "*" = throw RangeError.
Proof. split; reflexivity. Qed.

(** ** Creating and removing directories through the manager *)

Example createDirectory_scenario :
  let w :=
    {| FileSystem.drives :=
         {[ "D" := Floppy (FloppyFileSystemDrive.new
                             (FileInfoDirectory.new "/"
                                [InfoText "notes" (TextFile.mk "n")])) ]};
       FileSystem.floppies := None |} in
  let path := FilePath.mk (Some "D") ["docs"; "old"] true in
  exists w',
    FileSystem.createDirectory path w = (ok tt, w')
    /\ FileSystem.drives w'
       = {[ "D" := Floppy
              (FloppyFileSystemDrive.new
                 (FileInfoDirectory.new "/"
                    [InfoText "notes" (TextFile.mk "n");
                     InfoDirectory "docs" [InfoDirectory "old" []]])) ]}
    /\ FileSystem.getFileInfo (FileSystem.drives w') (Some path)
       = Some (InfoDirectory "old" [])
    /\ FileSystem.removeDirectory (FilePath.mk (Some "D") ["docs"] true)
                                  false w'
       = (throw (Error "docs is not empty"), w')
    /\ FileSystem.removeDirectory (FilePath.mk (Some "D") ["docs"] true)
                                  true w'
       = (ok tt, w)
    /\ FileSystem.createDirectory (FilePath.mk (Some "D") ["notes"; "x"] true)
                                  w
       = (throw (Error "Path D:/notes is not a directory"), w)
    /\ FileSystem.createDirectory (FilePath.mk None ["x"] true) w
       = (throw TypeError, w).
Proof.
  cbv zeta. eexists. split; [vm_compute; reflexivity|].
  repeat split; vm_compute; reflexivity.
Qed.

Lemma lookupIn_snoc (cur : FileInfoDirectory.t) (init : list string)
    (last : string) :
  lookupIn cur (init ++ [last])
  = match descend cur init with
    | Some c =>
        Js.find (FileInfoDirectory.hasName last) (FileInfoDirectory.entries c)
    | None => None
    end.
Proof.
  revert cur. induction init as [|n init IH]; intros cur; [reflexivity|].
  change ((n :: init) ++ [last]) with (n :: (init ++ [last])).
  cbn [lookupIn descend].
  destruct (init ++ [last]) as [|x rest] eqn:Hrest.
  - now destruct init.
  - destruct (Js.find _ _) as [[m es| | | | | |]|]; try reflexivity.
    apply IH.
Qed.

Lemma getFileInfo_lookupIn (drives : gmap string FileSystemDrive)
    (p : FilePath.t) :
  FileSystem.getFileInfo drives (Some p)
  = match FilePath.drive p with
    | Some label =>
        match drives !! label with
        | Some fsDrive => lookupIn (rootEntry fsDrive) (FilePath.pieces p)
        | None => None
        end
    | None => None
    end.
Proof.
  unfold FileSystem.getFileInfo.
  destruct (FilePath.drive p) as [label|]; [|reflexivity].
  destruct (drives !! label) as [fsDrive|]; [|reflexivity].
  destruct (FilePath.pieces p) as [|last init _] using rev_ind;
    [reflexivity|].
  assert (Hne : Nat.eqb (length (init ++ [last])) 0 = false).
  { rewrite length_app. simpl. apply Nat.eqb_neq. lia. }
  assert (Hlen : length (init ++ [last]) - 1 = length init).
  { rewrite length_app. simpl. lia. }
  rewrite Hne, Hlen, walk_descend by (rewrite length_app; simpl; lia).
  change (skipn 0 (init ++ [last])) with (init ++ [last]).
  rewrite firstn_app, firstn_all, Nat.sub_diag, app_nil_r.
  rewrite app_nth2, Nat.sub_diag by lia. cbn [nth firstn].
  now rewrite lookupIn_snoc.
Qed.

Lemma find_named_directory (n : string) (es : list FileInfo) (e : FileInfo) :
  Js.find (FileInfoDirectory.hasName n) es = Some e ->
  isDirectory e = true ->
  Js.find (fun x => isDirectory x && String.eqb (FileInfo_name x) n) es
  = Some e.
Proof.
  intros Hfind Hdir.
  apply find_some_iff in Hfind as (before & after & -> & Hname & Hb).
  apply find_in_context.
  - eapply Forall_impl; [|exact Hb]. intros x Hx. simpl in *.
    unfold FileInfoDirectory.hasName in Hx. rewrite Hx. apply andb_false_r.
  - unfold FileInfoDirectory.hasName in Hname. now rewrite Hdir, Hname.
Qed.

Lemma lookupIn_descend (cur : FileInfoDirectory.t) (names : list string)
    (n : string) (es : list FileInfo) :
  lookupIn cur names = Some (InfoDirectory n es) ->
  descend cur names = Some (FileInfoDirectory.new n es).
Proof.
  revert cur. induction names as [|x names IH]; intros cur.
  - simpl. destruct cur. now intros [= <- <-].
  - cbn [lookupIn descend]. destruct names as [|y names].
    + intros Hfind.
      now rewrite (find_named_directory _ _ _ Hfind eq_refl).
    + destruct (Js.find _ _) as [[m es'| | | | | |]|]; try discriminate.
      apply IH.
Qed.

Lemma lookupIn_child (cur : FileInfoDirectory.t) (names : list string)
    (n x : string) (es : list FileInfo) :
  lookupIn cur names = Some (InfoDirectory n es) ->
  lookupIn cur (names ++ [x]) = Js.find (FileInfoDirectory.hasName x) es.
Proof.
  intros H. rewrite lookupIn_snoc, (lookupIn_descend _ _ _ _ H). reflexivity.
Qed.

Lemma find_replaceFound {A} (p : A -> bool) (x x' : A) (l : list A) :
  Js.find p l = Some x -> p x' = true ->
  Js.find p (Js.replaceFound p x' l) = Some x'.
Proof.
  intros Hfind Hx'.
  destruct (replaceFound_found p x x' l Hfind)
    as (before & after & -> & Hb & Hx & ->).
  now apply find_in_context.
Qed.

Lemma storeAt_name (d' cur : FileInfoDirectory.t) (names : list string) :
  names <> [] ->
  FileInfoDirectory.name (FileSystem.storeAt d' names cur)
  = FileInfoDirectory.name cur.
Proof.
  destruct names as [|n [|y rest]]; [congruence| |]; intros _; simpl.
  - reflexivity.
  - now destruct (Js.find _ _) as [[m es| | | | | |]|].
Qed.

Lemma lookupIn_storeAt (d' cur : FileInfoDirectory.t) (names : list string)
    (n : string) (es : list FileInfo) :
  lookupIn cur names = Some (InfoDirectory n es) ->
  FileInfoDirectory.name d' = n ->
  lookupIn (FileSystem.storeAt d' names cur) names
  = Some (FileInfoDirectory.toInfo d').
Proof.
  revert cur. induction names as [|x names IH]; intros cur Hfound Hname.
  - reflexivity.
  - cbn [lookupIn FileSystem.storeAt] in *. destruct names as [|y names].
    + simpl. eapply find_replaceFound; [exact Hfound|].
      apply find_some_iff in Hfound as (_ & _ & _ & Hx & _).
      unfold FileInfoDirectory.hasName in *. simpl in *. congruence.
    + destruct (Js.find _ (FileInfoDirectory.entries cur))
        as [[m es'| | | | | |]|] eqn:Hfind; try discriminate.
      cbn [FileInfoDirectory.entries].
      set (sub := FileSystem.storeAt d' (y :: names)
                                     (FileInfoDirectory.new m es')).
      assert (Hsub : FileInfoDirectory.name sub = m)
        by (apply storeAt_name; discriminate).
      erewrite find_replaceFound; [|exact Hfind|].
      * unfold FileInfoDirectory.toInfo at 1.
        replace {| FileInfoDirectory.name := FileInfoDirectory.name sub;
                   FileInfoDirectory.entries :=
                     FileInfoDirectory.entries sub |}
          with sub by now destruct sub.
        exact (IH _ Hfound Hname).
      * apply find_some_iff in Hfind as (_ & _ & _ & Hx & _).
        simpl in *. now rewrite Hsub.
Qed.

Lemma rootEntry_setRootEntry (fsDrive : FileSystemDrive)
    (root : FileInfoDirectory.t) :
  rootEntry (FileSystem.setRootEntry fsDrive root) = root.
Proof. now destruct fsDrive. Qed.

Lemma getFileInfo_putDirectory (w : FileSystem.World)
    (target path : FilePath.t) (d' : FileInfoDirectory.t)
    (label : DriveLabel) (fsDrive : FileSystemDrive) :
  FilePath.drive target = Some label ->
  FilePath.drive path = Some label ->
  FileSystem.drives w !! label = Some fsDrive ->
  FileSystem.getFileInfo
    (FileSystem.drives (FileSystem.putDirectory target d' w)) (Some path)
  = lookupIn (FileSystem.storeAt d' (FilePath.pieces target)
                                 (rootEntry fsDrive))
             (FilePath.pieces path).
Proof.
  intros Htarget Hpath Hmounted.
  rewrite getFileInfo_lookupIn, Hpath. unfold FileSystem.putDirectory.
  rewrite Htarget, Hmounted. cbn [FileSystem.drives].
  rewrite lookup_insert_eq. now rewrite rootEntry_setRootEntry.
Qed.

Lemma equals_shorter (p q : FilePath.t) :
  length (FilePath.pieces p) <> length (FilePath.pieces q) ->
  FilePath.equals p q = false.
Proof.
  intros Hlen. unfold FilePath.equals.
  destruct (FilePath.driveDiffers _ _); [reflexivity|].
  apply Nat.eqb_neq in Hlen. now rewrite Hlen.
Qed.

Lemma rmdir_ok (d d' : FileInfoDirectory.t) (n : string) (force : bool) :
  FileInfoDirectory.rmdir d n force = inr d' ->
  FileInfoDirectory.name d' = FileInfoDirectory.name d
  /\ Js.find (FileInfoDirectory.hasName n) (FileInfoDirectory.entries d')
     = None.
Proof.
  unfold FileInfoDirectory.rmdir.
  destruct (Js.find _ _) as [[m es| | | | | |]|]; try discriminate.
  destruct (_ && _); [discriminate|]. intros [= <-]. split; [reflexivity|].
  apply find_none_iff, Forall_forall. intros x Hx. simpl in Hx.
  apply filter_In in Hx as [_ Hx]. now apply negb_true_iff.
Qed.

(** X20. [removeDirectory] on a path in normal form: an exception leaves
    the mount table and the store as they were; on a path without pieces it
    returns without any change when the drive is mounted and throws when it
    is not; and when it returns on a path with pieces, [getFileInfo] no
    longer finds the path, and the store is untouched. *)
Theorem removeDirectory_spec
    (path : FilePath.t) (force : bool) (w : FileSystem.World) :
  NormalPath path ->
  (forall e w',
      FileSystem.removeDirectory path force w = (throw e, w') -> w' = w)
  /\ (FilePath.pieces path = [] ->
      FileSystem.removeDirectory path force w
      = match FileSystem.getFileInfo (FileSystem.drives w) (Some path) with
        | Some _ => (ok tt, w)
        | None =>
            (throw (Error (FilePath.toString path ++ " does not exist")), w)
        end)
  /\ (forall w',
         FilePath.pieces path <> [] ->
         FileSystem.removeDirectory path force w = (ok tt, w') ->
         FileSystem.getFileInfo (FileSystem.drives w') (Some path) = None
         /\ FileSystem.floppies w' = FileSystem.floppies w).
Proof.
  intros Hnormal. split; [|split].
  - intros e w'. unfold FileSystem.removeDirectory.
    destruct (FileSystem.getFileInfo _ _) as [[n es| | | | | |]|];
      try (now intros [= _ <-]).
    destruct (FilePath.equals _ _); [discriminate|].
    destruct (FileInfoDirectory.rmdir _ _ _); [now intros [= _ <-]|].
    discriminate.
  - intros Hroot. unfold FileSystem.removeDirectory.
    assert (Hparent : FilePath.parentDirectory path = path).
    { unfold FilePath.parentDirectory. now rewrite Hroot. }
    rewrite Hparent, getFileInfo_lookupIn, Hroot.
    destruct (FilePath.drive path) as [label|] eqn:Hdrive; [|reflexivity].
    destruct (FileSystem.drives w !! label) as [fsDrive|]; [|reflexivity].
    cbn [lookupIn FileInfoDirectory.toInfo].
    unfold FilePath.equals. rewrite Hroot, Hdrive. simpl.
    now rewrite String.eqb_refl.
  - intros w' Hpieces Hrun. unfold FileSystem.removeDirectory in Hrun.
    rewrite (parentDirectory_of_normal path Hnormal) in Hrun.
    set (parent := FilePath.mk (FilePath.drive path)
                               (removelast (FilePath.pieces path))
                               (FilePath.isAbsolute path)) in *.
    rewrite getFileInfo_lookupIn in Hrun.
    cbn [FilePath.drive FilePath.pieces parent] in Hrun.
    destruct (FilePath.drive path) as [label|] eqn:Hdrive; [|discriminate].
    destruct (FileSystem.drives w !! label) as [fsDrive|] eqn:Hmounted;
      [|discriminate].
    destruct (lookupIn _ _) as [[n es| | | | | |]|] eqn:Hparent;
      try discriminate.
    destruct (exists_last Hpieces) as (init & last & Hps).
    rewrite equals_shorter in Hrun.
    2:{ cbn [FilePath.pieces parent]. rewrite Hps, removelast_last.
        rewrite length_app. simpl. lia. }
    rewrite Hps in Hrun, Hparent. rewrite removelast_last in Hparent.
    rewrite length_app in Hrun. simpl in Hrun.
    replace (length init + 1 - 1) with (length init) in Hrun by lia.
    rewrite app_nth2, Nat.sub_diag in Hrun by lia. cbn [nth] in Hrun.
    destruct (FileInfoDirectory.rmdir _ _ _) as [e|parentDir] eqn:Hrmdir;
      [discriminate|].
    injection Hrun as <-. apply rmdir_ok in Hrmdir as [Hname Hgone].
    split.
    + rewrite (getFileInfo_putDirectory w parent path parentDir label fsDrive)
        by (try assumption; reflexivity).
      cbn [FilePath.pieces parent]. rewrite Hps, removelast_last.
      erewrite lookupIn_child; [exact Hgone|].
      apply (lookupIn_storeAt _ _ _ _ _ Hparent Hname).
    + unfold FileSystem.putDirectory. cbn [FilePath.drive parent].
      now rewrite Hmounted.
Qed.

Lemma removeDirectory_spec_witness :
  let before :=
    {| FileSystem.drives :=
         {[ "D" := Floppy
              (FloppyFileSystemDrive.new
                 (FileInfoDirectory.new "/"
                    [InfoText "notes" (TextFile.mk "n");
                     InfoDirectory "docs" [InfoDirectory "old" []]])) ]};
       FileSystem.floppies := None |} in
  let after :=
    {| FileSystem.drives :=
         {[ "D" := Floppy
              (FloppyFileSystemDrive.new
                 (FileInfoDirectory.new "/"
                    [InfoText "notes" (TextFile.mk "n")])) ]};
       FileSystem.floppies := None |} in
  FileSystem.getFileInfo (FileSystem.drives after)
                         (Some (FilePath.mk (Some "D") ["docs"] true)) = None
  /\ FileSystem.floppies after = FileSystem.floppies before.
Proof.
  intros before after.
  destruct (removeDirectory_spec (FilePath.mk (Some "D") ["docs"] true) true
                                 before) as (_ & _ & Hgone).
  - normal_path.
  - apply (Hgone after).
    + discriminate.
    + vm_compute. reflexivity.
Defined.

Lemma tryParse_drive_text (d : DriveLabel) (ps : list string)
    (defaultDrive : option DriveLabel) :
  isDriveLabel d = true ->
  Forall (fun s => s <> "" /\ Js.indexOf PATH_SEPARATOR s = None
                   /\ s <> "." /\ s <> "..") ps ->
  FilePath.tryParse (d ++ ":/" ++ Js.join "/" ps) defaultDrive
  = Some (FilePath.mk (Some d) ps true).
Proof.
  intros Hlabel Hps.
  destruct (driveLabel_shape d Hlabel) as (c & -> & Hcolon & Hupper).
  change (String c "" ++ ":/" ++ Js.join "/" ps)%string
    with (String c (String ":" (String PATH_SEPARATOR (Js.join "/" ps)))).
  rewrite tryParse_drive_prefix by assumption. f_equal.
  unfold FilePath.parseRest.
  change (Js.firstCharIs PATH_SEPARATOR
            (String PATH_SEPARATOR (Js.join "/" ps))) with true.
  rewrite orb_true_r.
  change (Js.sliceFrom 1 (String PATH_SEPARATOR (Js.join "/" ps)))
    with (Js.join "/" ps).
  rewrite split_join by (eapply Forall_impl; [|exact Hps]; simpl; tauto).
  unfold FilePath.new. simpl. f_equal.
  apply (fold_step_fixed true ps []).
  - eapply Forall_impl; [|exact Hps]. simpl. tauto.
  - intros _. eapply Forall_impl; [|exact Hps]. simpl. tauto.
Qed.

Lemma firstn_snoc_nth {A} (l : list A) (i : nat) (d : A) :
  i < length l -> firstn (i + 1) l = firstn i l ++ [nth i l d].
Proof.
  revert i. induction l as [|x l IH]; intros i Hi; simpl in Hi; [lia|].
  destruct i as [|i]; [reflexivity|]. simpl. f_equal. apply IH. lia.
Qed.

Lemma normal_prefix (path : FilePath.t) (d : DriveLabel) (k : nat) :
  NormalPath path ->
  FilePath.drive path = Some d ->
  Forall (fun s => s <> "" /\ Js.indexOf PATH_SEPARATOR s = None
                   /\ s <> "." /\ s <> "..")
         (firstn k (FilePath.pieces path))
  /\ NormalPath (FilePath.mk (Some d) (firstn k (FilePath.pieces path)) true).
Proof.
  intros (Hpieces & Hdd & Habs) Hdrive.
  assert (Ha : FilePath.isAbsolute path = true) by (apply Habs; congruence).
  specialize (Hdd Ha).
  assert (Hall : Forall (fun s => s <> "" /\ Js.indexOf PATH_SEPARATOR s = None
                                  /\ s <> "." /\ s <> "..")
                        (FilePath.pieces path)).
  { rewrite Forall_forall in Hpieces, Hdd |- *. intros s Hs.
    destruct (Hpieces s Hs) as (H1 & H2 & H3). repeat split; auto. }
  apply (firstn_Forall _ k) in Hall. split; [exact Hall|].
  repeat split; simpl.
  - eapply Forall_impl; [|exact Hall]. simpl. tauto.
  - intros _. eapply Forall_impl; [|exact Hall]. simpl. tauto.
Qed.

Lemma createDirectoryStep_cases (path : FilePath.t) (d : DriveLabel)
    (w : FileSystem.World) (fsDrive : FileSystemDrive) (i : nat)
    (n : string) (es : list FileInfo) :
  NormalPath path ->
  FilePath.drive path = Some d ->
  isDriveLabel d = true ->
  i < length (FilePath.pieces path) ->
  FileSystem.drives w !! d = Some fsDrive ->
  lookupIn (rootEntry fsDrive) (firstn i (FilePath.pieces path))
  = Some (InfoDirectory n es) ->
  match Js.find (FileInfoDirectory.hasName (nth i (FilePath.pieces path) ""))
                es with
  | Some e =>
      if isDirectory e then
        FileSystem.createDirectoryStep path i w = (ok tt, w)
        /\ lookupIn (rootEntry fsDrive)
                    (firstn (i + 1) (FilePath.pieces path)) = Some e
      else
        FileSystem.createDirectoryStep path i w
        = (throw (Error ("Path "
                         ++ FilePath.toString
                              (FilePath.mk (Some d)
                                 (firstn (i + 1) (FilePath.pieces path)) true)
                         ++ " is not a directory")), w)
        /\ lookupIn (rootEntry fsDrive)
                    (firstn (i + 1) (FilePath.pieces path)) = Some e
  | None =>
      exists w' fsDrive',
        FileSystem.createDirectoryStep path i w = (ok tt, w')
        /\ FileSystem.drives w' !! d = Some fsDrive'
        /\ FileSystem.floppies w' = FileSystem.floppies w
        /\ lookupIn (rootEntry fsDrive')
                    (firstn (i + 1) (FilePath.pieces path))
           = Some (InfoDirectory (nth i (FilePath.pieces path) "") [])
  end.
Proof.
  intros Hnormal Hdrive Hlabel Hi Hmounted Hinv.
  set (x := nth i (FilePath.pieces path) "").
  destruct (normal_prefix path d (i + 1) Hnormal Hdrive) as [Hnext Hnextn].
  destruct (normal_prefix path d i Hnormal Hdrive) as [_ Hprevn].
  assert (Hsnoc : firstn (i + 1) (FilePath.pieces path)
                  = firstn i (FilePath.pieces path) ++ [x])
    by now apply firstn_snoc_nth.
  assert (Hchild : lookupIn (rootEntry fsDrive)
                            (firstn (i + 1) (FilePath.pieces path))
                   = Js.find (FileInfoDirectory.hasName x) es).
  { rewrite Hsnoc. eapply lookupIn_child, Hinv. }
  set (prev := FileInfoDirectory.new n (es ++ [InfoDirectory x []])).
  set (prevPath := FilePath.mk (Some d) (firstn i (FilePath.pieces path))
                               true).
  assert (Hrun :
    FileSystem.createDirectoryStep path i w
    = match Js.find (FileInfoDirectory.hasName x) es with
      | Some e =>
          if isDirectory e then (ok tt, w)
          else (throw (Error ("Path "
                              ++ FilePath.toString
                                   (FilePath.mk (Some d)
                                      (firstn (i + 1) (FilePath.pieces path))
                                      true)
                              ++ " is not a directory")), w)
      | None => (ok tt, FileSystem.putDirectory prevPath prev w)
      end).
  { unfold FileSystem.createDirectoryStep.
    rewrite Hdrive. cbn [FileSystem.driveText].
    rewrite (tryParse_drive_text d _ None Hlabel Hnext).
    rewrite (getFileInfo_lookupIn _ (FilePath.mk (Some d) _ true)).
    cbn [FilePath.drive FilePath.pieces].
    rewrite Hmounted, Hchild.
    destruct (Js.find (FileInfoDirectory.hasName x) es) as [e|] eqn:Hfind;
      [reflexivity|].
    rewrite (parentDirectory_of_normal _ Hnextn).
    cbn [FilePath.drive FilePath.pieces FilePath.isAbsolute].
    rewrite Hsnoc, removelast_last. fold prevPath.
    rewrite getFileInfo_lookupIn.
    cbn [FilePath.drive FilePath.pieces prevPath].
    rewrite Hmounted, Hinv.
    unfold FileInfoDirectory.mkdir. cbn [FileInfoDirectory.entries].
    fold x. rewrite Hfind. reflexivity. }
  fold x. rewrite Hrun.
  destruct (Js.find (FileInfoDirectory.hasName x) es) as [e|] eqn:Hfind.
  - destruct (isDirectory e); (split; [reflexivity|exact Hchild]).
  - exists (FileSystem.putDirectory prevPath prev w).
    exists (FileSystem.setRootEntry fsDrive
              (FileSystem.storeAt prev (FilePath.pieces prevPath)
                                  (rootEntry fsDrive))).
    split; [reflexivity|]. split; [|split].
    + unfold FileSystem.putDirectory. cbn [FilePath.drive prevPath].
      rewrite Hmounted. cbn [FileSystem.drives]. apply lookup_insert_eq.
    + unfold FileSystem.putDirectory. cbn [FilePath.drive prevPath].
      now rewrite Hmounted.
    + rewrite rootEntry_setRootEntry. cbn [FilePath.pieces prevPath].
      rewrite Hsnoc. erewrite lookupIn_child.
      2:{ apply (lookupIn_storeAt prev _ _ n es Hinv). reflexivity. }
      cbn [FileInfoDirectory.entries prev].
      apply find_in_context; [now apply find_none_iff|].
      now apply hasName_true.
Qed.

Lemma createDirectoryLoop_result (path : FilePath.t) (d : DriveLabel)
    (w0 : FileSystem.World) :
  NormalPath path ->
  FilePath.drive path = Some d ->
  isDriveLabel d = true ->
  forall fuel i w fsDrive n es,
    i + fuel = length (FilePath.pieces path) ->
    FileSystem.drives w !! d = Some fsDrive ->
    lookupIn (rootEntry fsDrive) (firstn i (FilePath.pieces path))
    = Some (InfoDirectory n es) ->
    FileSystem.floppies w = FileSystem.floppies w0 ->
    w = w0 \/ es = [] ->
    (exists w' fsDrive' n' es',
        FileSystem.createDirectoryLoop path fuel i w = (ok tt, w')
        /\ FileSystem.drives w' !! d = Some fsDrive'
        /\ lookupIn (rootEntry fsDrive') (FilePath.pieces path)
           = Some (InfoDirectory n' es')
        /\ FileSystem.floppies w' = FileSystem.floppies w0)
    \/ (exists k e,
           1 <= k <= length (FilePath.pieces path)
           /\ FileSystem.getFileInfo (FileSystem.drives w0)
                (Some (FilePath.mk (Some d)
                         (firstn k (FilePath.pieces path)) true))
              = Some e
           /\ isDirectory e = false
           /\ FileSystem.createDirectoryLoop path fuel i w
              = (throw (Error ("Path "
                               ++ FilePath.toString
                                    (FilePath.mk (Some d)
                                       (firstn k (FilePath.pieces path)) true)
                               ++ " is not a directory")), w0)).
Proof.
  intros Hnormal Hdrive Hlabel.
  induction fuel as [|fuel IH]; intros i w fsDrive n es Hlen Hmounted Hinv
                                       Hstore Hfresh.
  - left. exists w, fsDrive, n, es. repeat split; try assumption.
    rewrite <- Hinv. f_equal. symmetry. apply firstn_all2. lia.
  - assert (Hi : i < length (FilePath.pieces path)) by lia.
    pose proof (createDirectoryStep_cases path d w fsDrive i n es Hnormal
                  Hdrive Hlabel Hi Hmounted Hinv) as Hstep.
    cbn [FileSystem.createDirectoryLoop]. unfold FileSystem.bind.
    destruct (Js.find _ es) as [e|] eqn:Hfind.
    + assert (Hw : w = w0).
      { destruct Hfresh as [Hw|Hes]; [exact Hw|]. subst es. discriminate. }
      destruct (isDirectory e) eqn:Hdir.
      * destruct Hstep as [Hrun Hnext]. rewrite Hrun.
        destruct e as [n' es'| | | | | |]; try discriminate.
        replace (S i) with (i + 1) by lia.
        apply (IH (i + 1) w fsDrive n' es'); try assumption; [lia|].
        now left.
      * destruct Hstep as [Hrun Hnext]. right. exists (i + 1), e.
        split; [lia|]. subst w. split; [|split; [exact Hdir|]].
        -- rewrite getFileInfo_lookupIn.
           cbn [FilePath.drive FilePath.pieces]. now rewrite Hmounted.
        -- now rewrite Hrun.
    + destruct Hstep as (w' & fsDrive' & Hrun & Hmounted' & Hstore' & Hnext).
      rewrite Hrun. replace (S i) with (i + 1) by lia.
      eapply (IH (i + 1) w' fsDrive');
        [lia|exact Hmounted'|exact Hnext|congruence|now right].
Qed.

(** X21. [createDirectory] on a path in normal form whose drive is a
    mounted label either returns, and then [getFileInfo] finds a directory
    at the path and the store is untouched; or throws, and then some prefix
    of the path, of at least one piece, names an entry that is not a
    directory, the message prints that prefix, and nothing at all has
    changed (no directory of the path was created before the exception). *)
Theorem createDirectory_spec (path : FilePath.t) (d : DriveLabel)
    (fsDrive : FileSystemDrive) (w : FileSystem.World) :
  NormalPath path ->
  FilePath.drive path = Some d ->
  isDriveLabel d = true ->
  FileSystem.drives w !! d = Some fsDrive ->
  (exists w' n es,
      FileSystem.createDirectory path w = (ok tt, w')
      /\ FileSystem.getFileInfo (FileSystem.drives w') (Some path)
         = Some (InfoDirectory n es)
      /\ FileSystem.floppies w' = FileSystem.floppies w)
  \/ (exists k e,
         1 <= k <= length (FilePath.pieces path)
         /\ FileSystem.getFileInfo (FileSystem.drives w)
              (Some (FilePath.mk (Some d)
                       (firstn k (FilePath.pieces path)) true))
            = Some e
         /\ isDirectory e = false
         /\ FileSystem.createDirectory path w
            = (throw (Error ("Path "
                             ++ FilePath.toString
                                  (FilePath.mk (Some d)
                                     (firstn k (FilePath.pieces path)) true)
                             ++ " is not a directory")), w)).
Proof.
  intros Hnormal Hdrive Hlabel Hmounted. unfold FileSystem.createDirectory.
  destruct (createDirectoryLoop_result path d w Hnormal Hdrive Hlabel
              (length (FilePath.pieces path)) 0 w fsDrive
              (FileInfoDirectory.name (rootEntry fsDrive))
              (FileInfoDirectory.entries (rootEntry fsDrive)))
    as [(w' & fsDrive' & n' & es' & Hrun & Hmounted' & Hfound & Hstore)
       |(k & e & Hk & Hentry & Hdir & Hrun)]; try reflexivity; try assumption.
  - now left.
  - left. exists w', n', es'. repeat split; try assumption.
    now rewrite getFileInfo_lookupIn, Hdrive, Hmounted'.
  - right. exists k, e. now repeat split.
Qed.

Lemma createDirectory_spec_witness :
  let w :=
    {| FileSystem.drives :=
         {[ "D" := Floppy (FloppyFileSystemDrive.new
                             (FileInfoDirectory.new "/"
                                [InfoText "notes" (TextFile.mk "n")])) ]};
       FileSystem.floppies := None |} in
  let path := FilePath.mk (Some "D") ["docs"; "old"] true in
  (exists w' n es,
      FileSystem.createDirectory path w = (ok tt, w')
      /\ FileSystem.getFileInfo (FileSystem.drives w') (Some path)
         = Some (InfoDirectory n es)
      /\ FileSystem.floppies w' = FileSystem.floppies w)
  \/ (exists k e,
         1 <= k <= length (FilePath.pieces path)
         /\ FileSystem.getFileInfo (FileSystem.drives w)
              (Some (FilePath.mk (Some "D")
                       (firstn k (FilePath.pieces path)) true))
            = Some e
         /\ isDirectory e = false
         /\ FileSystem.createDirectory path w
            = (throw (Error ("Path "
                             ++ FilePath.toString
                                  (FilePath.mk (Some "D")
                                     (firstn k (FilePath.pieces path)) true)
                             ++ " is not a directory")), w)).
Proof.
  intros w path.
  apply (createDirectory_spec path "D"
           (Floppy (FloppyFileSystemDrive.new
                      (FileInfoDirectory.new "/"
                         [InfoText "notes" (TextFile.mk "n")]))) w).
  - normal_path.
  - reflexivity.
  - reflexivity.
  - reflexivity.
Defined.

(** ** Mount table *)

(** X22. On one of the 26 labels, [mount] succeeds exactly when the label
    holds no drive; a failed [mount] changes nothing (the drive already
    there is never replaced); a successful one puts the drive at the label
    and leaves the drives of the other labels and the store alone, any
    further [mount] at the label fails, and [unmount] of the label right
    after it gives the mount table back as it was. *)
Theorem mount_spec (w : FileSystem.World) (label : DriveLabel)
    (drive : FileSystemDrive) :
  isDriveLabel label = true ->
  match FileSystem.drives w !! label with
  | Some _ => FileSystem.mount label drive w = (ok false, w)
  | None =>
      exists w',
        FileSystem.mount label drive w = (ok true, w')
        /\ FileSystem.drives w' !! label = Some drive
        /\ (forall other,
               other <> label ->
               FileSystem.drives w' !! other = FileSystem.drives w !! other)
        /\ FileSystem.floppies w' = FileSystem.floppies w
        /\ (forall drive', FileSystem.mount label drive' w' = (ok false, w'))
        /\ FileSystem.unmount label w' = (ok tt, w)
  end.
Proof.
  intros _. unfold FileSystem.mount at 1 2. unfold FileSystem.unmount.
  destruct (FileSystem.drives w !! label) eqn:Hfree; [reflexivity|].
  eexists. split; [reflexivity|]. cbn [FileSystem.drives FileSystem.floppies].
  repeat split.
  - apply lookup_insert_eq.
  - intros other Hother. now apply lookup_insert_ne.
  - intros drive'. eapply mount_occupied. cbn [FileSystem.drives].
    apply lookup_insert_eq.
  - rewrite delete_insert_id by exact Hfree. now destruct w.
Qed.

Lemma mount_spec_witness :
  let w :=
    {| FileSystem.drives := {[ "C" := Transient TransientFileSystemDrive.new ]};
       FileSystem.floppies := None |} in
  let drive :=
    Floppy (FloppyFileSystemDrive.new (FileInfoDirectory.new "/" [])) in
  exists w',
    FileSystem.mount "D" drive w = (ok true, w')
    /\ FileSystem.drives w' !! "D" = Some drive
    /\ (forall other,
           other <> "D" ->
           FileSystem.drives w' !! other = FileSystem.drives w !! other)
    /\ FileSystem.floppies w' = FileSystem.floppies w
    /\ (forall drive', FileSystem.mount "D" drive' w' = (ok false, w'))
    /\ FileSystem.unmount "D" w' = (ok tt, w).
Proof.
  intros w drive. apply (mount_spec w "D" drive). reflexivity.
Defined.

(** ** Burning a floppy *)

Lemma filter_nil_find {A} (p : A -> bool) (l : list A) :
  List.filter p l = [] <-> Js.find p l = None.
Proof.
  unfold Js.find. induction l as [|x l IH]; simpl; [tauto|].
  destruct (p x); [split; discriminate|exact IH].
Qed.

Lemma filter_head_find {A} (p : A -> bool) (l : list A) (x : A)
    (rest : list A) :
  List.filter p l = x :: rest -> Js.find p l = Some x.
Proof.
  unfold Js.find. induction l as [|y l IH]; simpl; [discriminate|].
  destruct (p y); [now intros [= ->]|exact IH].
Qed.

(** X23. [burnFloppy(name)] throws, changing nothing, exactly when no record
    has that name. Otherwise it returns: the store holds the records with
    another name, in their order and unchanged; no record has the name any
    more; and when the first record of that name was mounted at a label,
    that label holds no drive afterwards, all other labels being as
    before. *)
Theorem burnFloppy_spec (w : FileSystem.World) (name : string) :
  match Js.find (FloppyStorage.hasName name) (floppyRecords w) with
  | None =>
      FileSystem.burnFloppy name w
      = (throw (Error "No floppy with that name"), w)
  | Some floppy =>
      exists w',
        FileSystem.burnFloppy name w = (ok tt, w')
        /\ floppyRecords w'
           = List.filter (fun r => negb (FloppyStorage.hasName name r))
                         (floppyRecords w)
        /\ Js.find (FloppyStorage.hasName name) (floppyRecords w') = None
        /\ FileSystem.drives w'
           = match FloppyStorage.drive floppy with
             | Some label => delete label (FileSystem.drives w)
             | None => FileSystem.drives w
             end
  end.
Proof.
  unfold FileSystem.burnFloppy, FileSystem.bind, FileSystem.getFloppies,
    Js.remove, floppyRecords.
  destruct (List.filter (FloppyStorage.hasName name) _)
    as [|floppy rest] eqn:Hfilter.
  - apply filter_nil_find in Hfilter. now rewrite Hfilter.
  - rewrite (filter_head_find _ _ _ _ Hfilter).
    assert (Hgone : forall l,
               Js.find (FloppyStorage.hasName name)
                       (List.filter
                          (fun r => negb (FloppyStorage.hasName name r)) l)
               = None).
    { intros l. apply find_none_iff, Forall_forall. intros x Hx.
      apply filter_In in Hx as [_ Hx]. now apply negb_true_iff. }
    destruct (FloppyStorage.drive floppy);
      (eexists; split; [reflexivity|]); simpl; repeat split; apply Hgone.
Qed.

(** ** Commit: repeating it, and constructing from what it wrote *)

Lemma forOf_mapR {A} (body : A -> FileSystem.M A) (g : A -> Result A)
    (l : list A) (w : FileSystem.World) :
  (forall x, body x w = (g x, w)) ->
  FileSystem.forOf body l w = (mapR g l, w).
Proof.
  intros Hbody. induction l as [|x l IH]; simpl; [reflexivity|].
  unfold FileSystem.bind. rewrite Hbody.
  destruct (g x) as [e|x']; [reflexivity|]. rewrite IH.
  now destruct (mapR g l).
Qed.

Lemma commit_mapR (JSON_stringify : FloppySerialized.t -> string)
    (w : FileSystem.World) :
  FileSystem.commit JSON_stringify w
  = match mapR (commitRecord JSON_stringify (FileSystem.drives w))
               (floppyRecords w) with
    | inl e => (inl e, w)
    | inr floppyData =>
        (ok tt, {| FileSystem.drives := FileSystem.drives w;
                   FileSystem.floppies := Some floppyData |})
    end.
Proof.
  unfold FileSystem.commit.
  unfold FileSystem.bind at 1. unfold FileSystem.getFloppies at 1.
  unfold FileSystem.bind at 1.
  rewrite (forOf_mapR _ (commitRecord JSON_stringify (FileSystem.drives w))).
  - unfold floppyRecords. now destruct (mapR _ _).
  - intros x. unfold commitRecord.
    destruct (FloppyStorage.drive x) as [label|]; [|reflexivity].
    unfold FileSystem.bind, FileSystem.getDrive, FileSystem.lift.
    destruct (FileSystem.drives w !! label) as [[t|d]|]; try reflexivity.
    now destruct (FloppyFileSystemDrive.serialize d).
Qed.

Lemma commitRecord_again (JSON_stringify : FloppySerialized.t -> string)
    (drives : gmap string FileSystemDrive) (x x' : FloppyStorage.t) :
  commitRecord JSON_stringify drives x = inr x' ->
  commitRecord JSON_stringify drives x' = inr x'.
Proof.
  unfold commitRecord.
  destruct (FloppyStorage.drive x) as [label|] eqn:Hx.
  - destruct (drives !! label) as [[t|d]|] eqn:Hd; try discriminate.
    + now intros [= <-].
    + destruct (FloppyFileSystemDrive.serialize d) as [e|s] eqn:Hs;
        [discriminate|].
      intros [= <-]. cbn [FloppyStorage.drive FloppyStorage.setData].
      now rewrite Hx, Hd, Hs.
  - intros [= <-]. now rewrite Hx.
Qed.

(** X24. Committing twice is committing once: when [commit()] returns, a
    second [commit()] right after it returns too and leaves the mount table
    and the store exactly as the first one left them. *)
Theorem commit_idempotent
    (JSON_stringify : FloppySerialized.t -> string)
    (w w' : FileSystem.World) :
  FileSystem.commit JSON_stringify w = (ok tt, w') ->
  FileSystem.commit JSON_stringify w' = (ok tt, w').
Proof.
  rewrite !commit_mapR.
  destruct (mapR _ (floppyRecords w)) as [e|floppyData] eqn:Hmap;
    [discriminate|].
  intros [= <-]. unfold floppyRecords.
  cbn [FileSystem.drives FileSystem.floppies default from_option id].
  assert (Hagain : mapR (commitRecord JSON_stringify (FileSystem.drives w))
                        floppyData = inr floppyData).
  { apply mapR_inr in Hmap. apply mapR_inr.
    induction Hmap as [|x y l l' Hxy _ IH]; constructor;
      [eapply commitRecord_again, Hxy|exact IH]. }
  now rewrite Hagain.
Qed.

Lemma commit_idempotent_witness :
  let docs :=
    FloppyFileSystemDrive.new
      (FileInfoDirectory.new "/" [InfoDirectory "docs" []]) in
  let record (name : string) (drive : option DriveLabel) (data : string) :=
    {| FloppyStorage.name := name;
       FloppyStorage.drive := drive;
       FloppyStorage.data := data |} in
  let drives : gmap string FileSystemDrive :=
    {[ "C" := Transient TransientFileSystemDrive.new; "D" := Floppy docs ]} in
  let committed :=
    {| FileSystem.drives := drives;
       FileSystem.floppies :=
         Some [record "work" (Some "D")
                 (JsonText.stringify
                    (FloppySerialized.mk
                       (FloppySerializedDirectory.mk "/"
                          [SerDirectory "docs" []])));
               record "stale" None ""] |} in
  FileSystem.commit JsonText.stringify committed = (ok tt, committed).
Proof.
  intros docs record drives committed.
  apply (commit_idempotent JsonText.stringify
           {| FileSystem.drives := drives;
              FileSystem.floppies :=
                Some [record "work" (Some "D") ""; record "stale" (Some "C") ""]
           |} committed).
  vm_compute. reflexivity.
Defined.

Lemma serialize_then_fromSerialized (d : FloppyFileSystemDrive.t)
    (s : FloppySerialized.t) :
  FloppyFileSystemDrive.serialize d = inr s ->
  FloppyFileSystemDrive.fromSerialized s = inr d.
Proof.
  destruct d as [[name entries]]. intros Hs.
  pose proof (serializeFile_result (InfoDirectory name entries)) as Hres.
  unfold FloppyFileSystemDrive.serialize,
    FloppyFileSystemDrive.serializeDirectory in Hs.
  simpl in Hs, Hres.
  destruct (mapR FloppyFileSystemDrive.serializeFile entries)
    as [e|entries'] eqn:Hmap; [discriminate|].
  simpl in Hs, Hres. injection Hs as <-.
  destruct (serializeDirectory_roundtrip (FileInfoDirectory.new name entries)
                                         Hres) as (s' & Hser & Hde).
  unfold FloppyFileSystemDrive.serializeDirectory in Hser. simpl in Hser.
  rewrite Hmap in Hser. simpl in Hser. injection Hser as <-.
  unfold FloppyFileSystemDrive.fromSerialized. simpl.
  unfold ok in Hde. now rewrite Hde.
Qed.

Lemma construct_loop_ok
    (JSON_parse : string -> option FloppySerialized.t)
    (l : list FloppyStorage.t) :
  NoDup (mountedLabels l) ->
  forall w,
    (forall label, In label (mountedLabels l) ->
                   FileSystem.drives w !! label = None) ->
    Forall (fun floppy =>
              forall label,
                FloppyStorage.drive floppy = Some label ->
                exists c d,
                  JSON_parse (FloppyStorage.data floppy) = Some c
                  /\ FloppyFileSystemDrive.fromSerialized c = inr d) l ->
    exists w',
      FileSystem.forOf
        (fun floppy =>
           match FloppyStorage.drive floppy with
           | None => FileSystem.ret floppy
           | Some label =>
               FileSystem.tryCatch
                 (FileSystem.insertFloppyInternal JSON_parse label floppy)
                 (fun e => FileSystem.raise e)
           end) l w = (ok l, w')
      /\ FileSystem.floppies w' = FileSystem.floppies w
      /\ (forall floppy label c d,
             In floppy l ->
             FloppyStorage.drive floppy = Some label ->
             JSON_parse (FloppyStorage.data floppy) = Some c ->
             FloppyFileSystemDrive.fromSerialized c = inr d ->
             FileSystem.drives w' !! label = Some (Floppy d))
      /\ (forall k, ~ In k (mountedLabels l) ->
                    FileSystem.drives w' !! k = FileSystem.drives w !! k).
Proof.
  induction l as [|x l IH]; intros Hnd w Hfree Hall.
  - exists w. repeat split; try reflexivity. intros ? ? ? ? [].
  - inversion Hall as [|? ? Hx Hl]; subst. simpl.
    unfold FileSystem.bind at 1.
    destruct (FloppyStorage.drive x) as [label|] eqn:Hdrive.
    + simpl in Hnd. rewrite Hdrive in Hnd. simpl in Hnd.
      inversion Hnd as [|? ? Hnotin Hnd']; subst.
      destruct (Hx label eq_refl) as (c & d & Hc & Hd).
      assert (Hlab : FileSystem.drives w !! label = None).
      { apply Hfree. simpl. rewrite Hdrive. now left. }
      set (w1 := {| FileSystem.drives :=
                      <[label := Floppy d]> (FileSystem.drives w);
                    FileSystem.floppies := FileSystem.floppies w |}).
      assert (Hins : FileSystem.insertFloppyInternal JSON_parse label x w
                     = (ok x, w1)).
      { unfold FileSystem.insertFloppyInternal, FileSystem.bind,
          FileSystem.lift, FileSystem.mount.
        rewrite Hc. simpl. unfold ok in Hd |- *. rewrite Hd. simpl.
        rewrite Hlab. simpl. unfold FileSystem.ret.
        now rewrite setDrive_same. }
      unfold FileSystem.tryCatch at 1. rewrite Hins.
      destruct (IH Hnd' w1) as (w' & Hloop & Hfl & Hmounted & Hother).
      { intros k Hk. cbn [FileSystem.drives w1].
        rewrite lookup_insert_ne by (intros ->; contradiction).
        apply Hfree. simpl. rewrite Hdrive. now right. }
      { exact Hl. }
      exists w'. unfold FileSystem.bind, ok. cbv beta iota. rewrite Hloop.
      split; [reflexivity|]. split; [exact Hfl|]. split.
      * intros floppy lab c' d' [<-|Hin] Hlab' Hc' Hd'.
        -- rewrite Hdrive in Hlab'. injection Hlab' as <-.
           rewrite Hc in Hc'. injection Hc' as <-.
           unfold ok in Hd. rewrite Hd in Hd'. injection Hd' as <-.
           rewrite (Hother label Hnotin). apply lookup_insert_eq.
        -- eapply Hmounted; eassumption.
      * intros k Hk. simpl in Hk. rewrite ?Hdrive in Hk. simpl in Hk.
        rewrite Hother by tauto. cbn [FileSystem.drives w1].
        apply lookup_insert_ne. intros ->. tauto.
    + unfold FileSystem.ret at 1.
      simpl in Hnd. rewrite Hdrive in Hnd. simpl in Hnd.
      destruct (IH Hnd w) as (w' & Hloop & Hfl & Hmounted & Hother).
      { intros k Hk. apply Hfree. simpl. now rewrite Hdrive. }
      { exact Hl. }
      exists w'. unfold FileSystem.bind, ok. cbv beta iota. rewrite Hloop.
      split; [reflexivity|]. split; [exact Hfl|]. split.
      * intros floppy lab c' d' [<-|Hin] Hlab' Hc' Hd'; [congruence|].
        eapply Hmounted; eassumption.
      * intros k Hk. apply Hother. simpl in Hk. now rewrite ?Hdrive in Hk.
Qed.

Lemma bind_returns {A B} (m : FileSystem.M A) (k : A -> FileSystem.M B)
    (w w' : FileSystem.World) (x : A) :
  m w = (ok x, w') -> FileSystem.bind m k w = k x w'.
Proof. unfold FileSystem.bind, ok. now intros ->. Qed.

Lemma committed_records
    (JSON_parse : string -> option FloppySerialized.t)
    (JSON_stringify : FloppySerialized.t -> string)
    (drives : gmap string FileSystemDrive)
    (l l1 : list FloppyStorage.t) :
  (forall label d s,
      drives !! label = Some (Floppy d) ->
      FloppyFileSystemDrive.serialize d = ok s ->
      JSON_parse (JSON_stringify s) = Some s) ->
  Forall (fun r => forall label,
              FloppyStorage.drive r = Some label ->
              exists d, drives !! label = Some (Floppy d)) l ->
  Forall2 (fun x x' => commitRecord JSON_stringify drives x = inr x') l l1 ->
  mountedLabels l1 = mountedLabels l
  /\ Forall (fun r' =>
               forall label,
                 FloppyStorage.drive r' = Some label ->
                 exists s d,
                   JSON_parse (FloppyStorage.data r') = Some s
                   /\ FloppyFileSystemDrive.fromSerialized s = inr d
                   /\ drives !! label = Some (Floppy d)) l1.
Proof.
  intros Hjson Hall Hcommitted.
  induction Hcommitted as [|x x' l l1 Hx _ IH]; [now split|].
  inversion Hall as [|? ? Hxc Hl]; subst.
  destruct (IH Hl) as [Hlabels Hrest]. unfold commitRecord in Hx.
  destruct (FloppyStorage.drive x) as [label|] eqn:Hdrive.
  - destruct (Hxc label eq_refl) as (d & Hd). rewrite Hd in Hx.
    destruct (FloppyFileSystemDrive.serialize d) as [e|s] eqn:Hs;
      [discriminate|].
    injection Hx as <-. split.
    + simpl. now rewrite Hdrive, Hlabels.
    + constructor; [|exact Hrest]. simpl. intros lab Hlab.
      rewrite Hdrive in Hlab. injection Hlab as <-.
      exists s, d. repeat split; try assumption.
      * eapply Hjson; eassumption.
      * now apply serialize_then_fromSerialized.
  - injection Hx as <-. split.
    + simpl. now rewrite Hdrive, Hlabels.
    + constructor; [|exact Hrest]. intros lab Hlab. congruence.
Qed.

(** X25. What [commit()] writes is what the constructor needs: when every
    mounted record is mounted at a label that holds a floppy drive, the
    labels are pairwise different and none is [C], and [JSON.parse] reads
    back what [JSON.stringify] writes for the drives at hand, then after a
    [commit()] that returns, constructing a file system from the store
    returns, leaves the store as it is, mounts the transient drive at [C]
    and mounts at every label of a record the very drive, with the same
    tree, that was there at the commit. *)
Theorem commit_then_construct
    (JSON_parse : string -> option FloppySerialized.t)
    (JSON_stringify : FloppySerialized.t -> string)
    (w w1 : FileSystem.World) :
  (forall label d s,
      FileSystem.drives w !! label = Some (Floppy d) ->
      FloppyFileSystemDrive.serialize d = ok s ->
      JSON_parse (JSON_stringify s) = Some s) ->
  Forall (fun r => forall label,
              FloppyStorage.drive r = Some label ->
              exists d, FileSystem.drives w !! label = Some (Floppy d))
         (floppyRecords w) ->
  NoDup ("C" :: mountedLabels (floppyRecords w)) ->
  FileSystem.commit JSON_stringify w = (ok tt, w1) ->
  exists w2,
    FileSystem.construct JSON_parse (FileSystem.floppies w1) = (ok tt, w2)
    /\ FileSystem.floppies w2 = FileSystem.floppies w1
    /\ FileSystem.drives w2 !! "C"
       = Some (Transient TransientFileSystemDrive.new)
    /\ (forall label,
           In label (mountedLabels (floppyRecords w)) ->
           FileSystem.drives w2 !! label = FileSystem.drives w !! label).
Proof.
  intros Hjson Hall Hnd. rewrite commit_mapR.
  destruct (mapR _ (floppyRecords w)) as [e|l1] eqn:Hmap; [discriminate|].
  intros [= <-]. apply mapR_inr in Hmap.
  destruct (committed_records JSON_parse JSON_stringify _ _ _ Hjson Hall Hmap)
    as [Hlabels Hl1].
  inversion Hnd as [|? ? HnotC Hnd']; subst.
  cbn [FileSystem.floppies].
  set (w0 := {| FileSystem.drives :=
                  <["C" := Transient TransientFileSystemDrive.new]> ∅;
                FileSystem.floppies := Some l1 |}).
  destruct (construct_loop_ok JSON_parse l1) with (w := w0)
    as (w' & Hloop & Hfl & Hmounted & Hother).
  { now rewrite Hlabels. }
  { intros label Hin. cbn [FileSystem.drives w0].
    rewrite lookup_insert_ne, lookup_empty; [reflexivity|].
    intros <-. rewrite Hlabels in Hin. contradiction. }
  { eapply Forall_impl; [|exact Hl1]. intros r Hr label Hlab.
    destruct (Hr label Hlab) as (s & d & Hs & Hd & _). eauto. }
  exists {| FileSystem.drives := FileSystem.drives w';
            FileSystem.floppies := Some l1 |}.
  split; [|split; [reflexivity|split]].
  - unfold FileSystem.construct, FileSystem.new.
    unfold FileSystem.bind at 1. unfold FileSystem.mount at 1.
    cbn [FileSystem.drives FileSystem.floppies]. rewrite lookup_empty.
    unfold FileSystem.bind at 1. unfold FileSystem.getFloppies at 1.
    cbn [FileSystem.drives FileSystem.floppies default from_option id].
    etransitivity; [eapply bind_returns; exact Hloop|reflexivity].
  - cbn [FileSystem.drives].
    rewrite Hother by (now rewrite Hlabels). apply lookup_insert_eq.
  - intros label Hin. cbn [FileSystem.drives].
    rewrite <- Hlabels in Hin. unfold mountedLabels in Hin.
    apply in_flat_map in Hin as (r & Hr & Hlab).
    destruct (FloppyStorage.drive r) as [lab|] eqn:Hdrive; [|contradiction].
    destruct Hlab as [->|[]].
    rewrite Forall_forall in Hl1.
    destruct (Hl1 r Hr label Hdrive) as (s & d & Hs & Hd & Hw).
    rewrite Hw. eapply Hmounted; eassumption.
Qed.

Lemma commit_then_construct_witness :
  let docs :=
    FloppyFileSystemDrive.new
      (FileInfoDirectory.new "/" [InfoDirectory "docs" []]) in
  let text :=
    FloppySerialized.mk
      (FloppySerializedDirectory.mk "/" [SerDirectory "docs" []]) in
  let record (name : string) (drive : option DriveLabel) (data : string) :=
    {| FloppyStorage.name := name;
       FloppyStorage.drive := drive;
       FloppyStorage.data := data |} in
  let drives : gmap string FileSystemDrive :=
    {[ "C" := Transient TransientFileSystemDrive.new; "D" := Floppy docs ]} in
  let w :=
    {| FileSystem.drives := drives;
       FileSystem.floppies :=
         Some [record "work" (Some "D") ""; record "spare" None ""] |} in
  let w1 :=
    {| FileSystem.drives := drives;
       FileSystem.floppies :=
         Some [record "work" (Some "D") (JsonText.stringify text);
               record "spare" None ""] |} in
  exists w2,
    FileSystem.construct (JsonText.parseKnown [text]) (FileSystem.floppies w1)
    = (ok tt, w2)
    /\ FileSystem.floppies w2 = FileSystem.floppies w1
    /\ FileSystem.drives w2 !! "C"
       = Some (Transient TransientFileSystemDrive.new)
    /\ (forall label,
           In label (mountedLabels (floppyRecords w)) ->
           FileSystem.drives w2 !! label = FileSystem.drives w !! label).
Proof.
  intros docs text record drives w w1.
  apply (commit_then_construct (JsonText.parseKnown [text])
           JsonText.stringify w w1).
  - intros label d s Hd Hs.
    destruct (decide (label = "D")) as [->|HnotD].
    + vm_compute in Hd. injection Hd as <-.
      vm_compute in Hs. injection Hs as <-.
      vm_compute. reflexivity.
    + destruct (decide (label = "C")) as [->|HnotC].
      * vm_compute in Hd. discriminate.
      * exfalso. subst w drives. cbn [FileSystem.drives] in Hd.
        rewrite lookup_insert_ne, lookup_singleton_ne in Hd by congruence.
        discriminate.
  - repeat constructor; intros label Hlabel; vm_compute in Hlabel.
    + injection Hlabel as <-. eexists. vm_compute. reflexivity.
    + discriminate.
  - vm_compute. repeat constructor; simpl; intuition discriminate.
  - vm_compute. reflexivity.
Defined.

(** ** The listing of the floppies *)

Lemma ascii_compare_lt_trans (a b c : ascii) :
  Ascii.compare a b = Lt -> Ascii.compare b c = Lt -> Ascii.compare a c = Lt.
Proof.
  unfold Ascii.compare. rewrite !N.compare_lt_iff. lia.
Qed.

Lemma string_compare_refl (s : string) : String.compare s s = Eq.
Proof.
  pose proof (String.compare_antisym s s) as H.
  destruct (String.compare s s); [reflexivity|discriminate..].
Qed.

Lemma string_compare_lt_trans (a : string) :
  forall b c,
    String.compare a b = Lt -> String.compare b c = Lt ->
    String.compare a c = Lt.
Proof.
  induction a as [|x a IH]; intros [|y b] [|z c]; simpl;
    try reflexivity; try discriminate.
  destruct (Ascii.compare x y) eqn:Hxy; try discriminate.
  - apply Ascii.compare_eq_iff in Hxy as ->.
    destruct (Ascii.compare y z); try discriminate; [apply IH|reflexivity].
  - intros _. destruct (Ascii.compare y z) eqn:Hyz; try discriminate.
    + apply Ascii.compare_eq_iff in Hyz as <-. now rewrite Hxy.
    + intros _. now rewrite (ascii_compare_lt_trans x y z).
Qed.

Lemma stringCompare_compare (l r : string) :
  FileSystem.stringCompare l r
  = match String.compare l r with Eq => 0 | Lt => -1 | Gt => 1 end%Z.
Proof.
  unfold FileSystem.stringCompare, Js.lessThan, String.ltb.
  destruct (String.eqb_spec l r) as [->|Hne].
  - now rewrite string_compare_refl.
  - destruct (String.compare l r) eqn:Hc; try reflexivity.
    now apply String.compare_eq_iff in Hc.
Qed.

Lemma stringCompare_antisym (l r : string) :
  FileSystem.stringCompare l r = (- FileSystem.stringCompare r l)%Z.
Proof.
  rewrite !stringCompare_compare, (String.compare_antisym r l).
  now destruct (String.compare l r).
Qed.

Lemma stringCompare_zero (l r : string) :
  FileSystem.stringCompare l r = 0%Z <-> l = r.
Proof.
  rewrite stringCompare_compare. split.
  - destruct (String.compare l r) eqn:Hc; try discriminate.
    intros _. now apply String.compare_eq_iff.
  - intros ->. now rewrite string_compare_refl.
Qed.

Lemma stringCompare_trans (a b c : string) :
  (FileSystem.stringCompare a b <= 0)%Z ->
  (FileSystem.stringCompare b c <= 0)%Z ->
  (FileSystem.stringCompare a c <= 0)%Z.
Proof.
  rewrite !stringCompare_compare.
  destruct (String.compare a b) eqn:Hab; [| |lia].
  - apply String.compare_eq_iff in Hab as ->. tauto.
  - intros _. destruct (String.compare b c) eqn:Hbc; [| |lia].
    + apply String.compare_eq_iff in Hbc as <-. now rewrite Hab.
    + now rewrite (string_compare_lt_trans a b c).
Qed.

Lemma compareFloppies_antisym (a b : FloppyStorage.t) :
  FileSystem.compareFloppies a b = (- FileSystem.compareFloppies b a)%Z.
Proof.
  unfold FileSystem.compareFloppies.
  destruct (FloppyStorage.drive a), (FloppyStorage.drive b);
    try reflexivity; apply stringCompare_antisym.
Qed.

Lemma compareFloppies_trans (a b c : FloppyStorage.t) :
  (FileSystem.compareFloppies a b <= 0)%Z ->
  (FileSystem.compareFloppies b c <= 0)%Z ->
  (FileSystem.compareFloppies a c <= 0)%Z.
Proof.
  unfold FileSystem.compareFloppies.
  destruct (FloppyStorage.drive a), (FloppyStorage.drive b),
    (FloppyStorage.drive c); try lia; apply stringCompare_trans.
Qed.

Section Sort.

Context {A : Type} (compareFn : A -> A -> Z).

Lemma sortInsert_permutation (x : A) (l : list A) :
  Permutation (Js.sortInsert compareFn x l) (x :: l).
Proof.
  induction l as [|y l IH]; simpl; [reflexivity|].
  destruct (Z.leb (compareFn x y) 0); [reflexivity|].
  rewrite IH. apply perm_swap.
Qed.

Lemma sort_permutation (l : list A) : Permutation (Js.sort compareFn l) l.
Proof.
  induction l as [|x l IH]; simpl; [reflexivity|].
  fold (Js.sort compareFn l). now rewrite sortInsert_permutation, IH.
Qed.

Lemma sort_of_sorted (l : list A) :
  StronglySorted (fun x y => (compareFn x y <= 0)%Z) l -> Js.sort compareFn l = l.
Proof.
  induction 1 as [|x l Hl IH Hx]; [reflexivity|].
  simpl. fold (Js.sort compareFn l). rewrite IH.
  destruct l as [|y l]; [reflexivity|]. simpl.
  inversion Hx as [|? ? Hxy _]; subst.
  now apply Z.leb_le in Hxy as ->.
Qed.

Hypothesis compareFn_antisym :
  forall x y, compareFn x y = (- compareFn y x)%Z.
Hypothesis compareFn_trans :
  forall x y z,
    (compareFn x y <= 0)%Z -> (compareFn y z <= 0)%Z -> (compareFn x z <= 0)%Z.

Lemma sortInsert_sorted (x : A) (l : list A) :
  StronglySorted (fun x y => (compareFn x y <= 0)%Z) l ->
  StronglySorted (fun x y => (compareFn x y <= 0)%Z) (Js.sortInsert compareFn x l).
Proof.
  induction 1 as [|y l Hl IH Hy]; simpl; [repeat constructor|].
  destruct (Z.leb (compareFn x y) 0) eqn:Hxy.
  - apply Z.leb_le in Hxy. constructor; [now constructor|].
    constructor; [exact Hxy|].
    eapply Forall_impl; [|exact Hy]. intros z. now apply compareFn_trans.
  - apply Z.leb_gt in Hxy. constructor; [exact IH|].
    rewrite sortInsert_permutation. constructor; [|exact Hy].
    rewrite compareFn_antisym. lia.
Qed.

Lemma sort_sorted (l : list A) : StronglySorted (fun x y => (compareFn x y <= 0)%Z) (Js.sort compareFn l).
Proof.
  induction l as [|x l IH]; simpl; [constructor|].
  now apply sortInsert_sorted.
Qed.

End Sort.

Lemma listed_mounted_first (l : list FloppyStorage.t) :
  StronglySorted ListedBefore l ->
  exists mounted others,
    l = mounted ++ others
    /\ Forall (fun d => FloppyStorage.drive d <> None) mounted
    /\ Forall (fun d => FloppyStorage.drive d = None) others.
Proof.
  induction 1 as [|x l Hl (mounted & others & -> & Hm & Ho) Hx].
  - exists [], []. repeat split; constructor.
  - destruct (FloppyStorage.drive x) as [label|] eqn:Hdrive.
    + exists (x :: mounted), others. repeat split; [|exact Ho].
      constructor; [congruence|exact Hm].
    + exists [], (x :: mounted ++ others). repeat split; [constructor|].
      constructor; [exact Hdrive|].
      eapply Forall_impl; [|exact Hx]. intros y.
      unfold ListedBefore, FileSystem.compareFloppies. rewrite Hdrive.
      destruct (FloppyStorage.drive y); [lia|reflexivity].
Qed.

(** X26. The comparator that [getFloppyInfos] sorts with is consistent, so
    that the result of the sort is fixed by the language: swapping the
    arguments changes the sign, the order "at most zero" is transitive, and
    two records compare equal exactly when they are mounted at the same
    label, or are both unmounted with the same name. *)
Theorem compareFloppies_consistent (a b c : FloppyStorage.t) :
  FileSystem.compareFloppies a b = (- FileSystem.compareFloppies b a)%Z
  /\ (ListedBefore a b -> ListedBefore b c -> ListedBefore a c)
  /\ (FileSystem.compareFloppies a b = 0%Z <->
      FloppyStorage.drive a = FloppyStorage.drive b
      /\ (FloppyStorage.drive a = None ->
          FloppyStorage.name a = FloppyStorage.name b)).
Proof.
  split; [apply compareFloppies_antisym|].
  split; [apply compareFloppies_trans|].
  unfold FileSystem.compareFloppies.
  destruct (FloppyStorage.drive a) as [da|], (FloppyStorage.drive b) as [db|].
  - rewrite stringCompare_zero. split.
    + intros ->. split; [reflexivity|discriminate].
    + now intros [[= ->] _].
  - split; [discriminate|]. now intros [[=] _].
  - split; [discriminate|]. now intros [[=] _].
  - rewrite stringCompare_zero. split; [now split|]. intros [_ H]. now apply H.
Qed.

(** X27. [getFloppyInfos()] never throws and changes nothing. It returns the
    drive and the name of every record of the store, each record once, in
    an order in which every record may come before the ones after it: the
    mounted records first, by label, then the unmounted ones, by name. A
    store that is already in such an order is listed in its own order. *)
Theorem getFloppyInfos_spec (w : FileSystem.World) :
  exists sorted,
    FileSystem.getFloppyInfos w
    = (ok (List.map FileSystem.floppyInfo sorted), w)
    /\ Permutation sorted (floppyRecords w)
    /\ StronglySorted ListedBefore sorted
    /\ (exists mounted others,
           sorted = mounted ++ others
           /\ Forall (fun d => FloppyStorage.drive d <> None) mounted
           /\ Forall (fun d => FloppyStorage.drive d = None) others)
    /\ (StronglySorted ListedBefore (floppyRecords w) ->
        sorted = floppyRecords w).
Proof.
  assert (Hsorted : forall l,
             StronglySorted ListedBefore
               (Js.sort FileSystem.compareFloppies l)).
  { intros l. apply sort_sorted;
      [apply compareFloppies_antisym|apply compareFloppies_trans]. }
  exists (Js.sort FileSystem.compareFloppies (floppyRecords w)).
  split; [|split; [apply sort_permutation|split; [apply Hsorted|split]]].
  - unfold FileSystem.getFloppyInfos, floppyRecords.
    now destruct (FileSystem.floppies w).
  - apply listed_mounted_first, Hsorted.
  - apply sort_of_sorted.
Qed.
